(** * CodeDiff: diff engine, find/replace state and scroll synchronisation

    A shallow embedding of the stateful core of the CodeDiff application
    (the [App] component and the line classification consumed by
    [EditorPanel]) together with the properties its specification states
    about it. *)

From Stdlib Require Import ZArith Lia Ascii String.
From stdpp Require Import base list strings gmap pretty.

Local Open Scope string_scope.
Local Open Scope nat_scope.
Local Open Scope list_scope.

(** ** Part I: definitions *)

(** *** Diff lines (types.ts as used by EditorPanel.tsx) *)

Module Diff.

Inductive DiffType := Added | Removed | Unchanged.

Record DiffLine := mkDiffLine { type : DiffType; text : string }.

#[global] Instance DiffType_eq_dec : EqDecision DiffType.
Proof. solve_decision. Defined.

Definition isAdded (l : DiffLine) : bool :=
  match type l with Added => true | _ => false end.
Definition isRemoved (l : DiffLine) : bool :=
  match type l with Removed => true | _ => false end.
Definition isUnchanged (l : DiffLine) : bool :=
  match type l with Unchanged => true | _ => false end.

(** The two projections of an edit script: the lines that count on the
    base side (EditorPanel increments [baseLineNum] on exactly these) and
    the lines that count on the variant side ([currentLineNum]). *)
Definition baseLines (d : list DiffLine) : list string :=
  text <$> List.filter (fun l => isUnchanged l || isRemoved l) d.
Definition variantLines (d : list DiffLine) : list string :=
  text <$> List.filter (fun l => isUnchanged l || isAdded l) d.

(** **** The diff engine

    [calculateDiff] (utils/diff) is imported by App but its body is not part
    of the sources at hand.  The definitions below follow section 4.1 of the
    specification: the standard O(n*m) dynamic-programming table of the
    longest common subsequence over the two line counts, with exact line
    equality as the match predicate, followed by a backtrace. *)

(** Modelled from the spec: one row of the LCS table of the missing
    [calculateDiff], from column 1 on.  [prev] is the row above, read from
    the column to the left of the current one; [left] is the cell just
    computed.  Equal lines extend the diagonal; otherwise the cell is the
    larger of the cell above and the cell to the left. *)
Fixpoint lcsRowFrom (b : string) (V : list string) (prev : list nat)
    (left : nat) : list nat :=
  match V, prev with
  | v :: V', diag :: ((up :: _) as prev') =>
      let c := if decide (b = v) then S diag else Nat.max up left in
      c :: lcsRowFrom b V' prev' c
  | _, _ => []
  end.

(** Modelled from the spec: a full row of the table of the missing
    [calculateDiff]; column 0 is zero. *)
Definition lcsRow (b : string) (V : list string) (prev : list nat) : list nat :=
  0 :: lcsRowFrom b V prev 0.

(** Modelled from the spec: the rows 1..n of the table of the missing
    [calculateDiff], each computed from the one above. *)
Fixpoint lcsRows (B V : list string) (prev : list nat) : list (list nat) :=
  match B with
  | [] => []
  | b :: B' => let row := lcsRow b V prev in row :: lcsRows B' V row
  end.

(** Modelled from the spec: the table of the missing [calculateDiff];
    [dp[i][j]] is the length of a longest common subsequence of the first [i]
    base lines and the first [j] variant lines, and row 0 is zero. *)
Definition lcsTable (B V : list string) : list (list nat) :=
  let row0 := replicate (S (length V)) 0 in
  row0 :: lcsRows B V row0.

(** [dp[i][j]] *)
Definition cell (dp : list (list nat)) (i j : nat) : nat :=
  nth j (nth i dp []) 0.

(** Modelled from the spec: the backtrace of the missing [calculateDiff].
    The walk starts at [dp[n][m]] and moves towards [dp[0][0]], putting each
    emitted line in front of the result, so that the result reads left to
    right.  On equal lines it emits Unchanged.  Otherwise, when the insertion
    is admissible ([dp[i][j-1] >= dp[i-1][j]], which includes every tie) the
    walk consumes the variant line first: the Added line is placed in the
    result before the Removed lines of the same block are put in front of
    it, which is the required order of the output, deletions before
    insertions.  [fuel] bounds the number of iterations of the loop
    [while (i > 0 || j > 0)]. *)
Fixpoint backtrace (fuel : nat) (dp : list (list nat)) (B V : list string)
    (i j : nat) (result : list DiffLine) : list DiffLine :=
  match fuel with
  | 0 => result
  | S fuel' =>
      if (0 <? i) && (0 <? j) && bool_decide (nth (i - 1) B "" = nth (j - 1) V "")
      then backtrace fuel' dp B V (i - 1) (j - 1)
             (mkDiffLine Unchanged (nth (i - 1) B "") :: result)
      else if (0 <? j) && ((i =? 0) || (cell dp (i - 1) j <=? cell dp i (j - 1)))
      then backtrace fuel' dp B V i (j - 1)
             (mkDiffLine Added (nth (j - 1) V "") :: result)
      else if 0 <? i
      then backtrace fuel' dp B V (i - 1) j
             (mkDiffLine Removed (nth (i - 1) B "") :: result)
      else result
  end.

(** Modelled from the spec: [computeDiff(base, variant)], the missing
    [calculateDiff] on texts already split into lines: the table, then the
    backtrace from its last cell, with one iteration per line of either
    side. *)
Definition computeDiff (B V : list string) : list DiffLine :=
  backtrace (length B + length V) (lcsTable B V) B V (length B) (length V) [].

(** The table as a function: the recurrence the rows implement. *)
Fixpoint lcsLen (B V : list string) (i j : nat) : nat :=
  match i with
  | 0 => 0
  | S i' =>
      (fix row (j : nat) : nat :=
         match j with
         | 0 => 0
         | S j' =>
             if decide (nth i' B "" = nth j' V "") then S (lcsLen B V i' j')
             else Nat.max (lcsLen B V i' j) (row j')
         end) j
  end.

(** Row [i] of the table, as the recurrence defines it. *)
Definition rowOf (B V : list string) (i : nat) : list nat :=
  lcsLen B V i <$> seq 0 (S (length V)).

(** Whether the iteration of the backtrace at [(i, j)] emits an Added line. *)
Definition emitsAdded (dp : list (list nat)) (B V : list string) (i j : nat) : bool :=
  negb ((0 <? i) && (0 <? j) && bool_decide (nth (i - 1) B "" = nth (j - 1) V ""))
  && ((0 <? j) && ((i =? 0) || (cell dp (i - 1) j <=? cell dp i (j - 1)))).

(** No Added line is directly followed by a Removed line. *)
Fixpoint removedFirst (d : list DiffLine) : bool :=
  match d with
  | x :: ((y :: _) as d') => negb (isAdded x && isRemoved y) && removedFirst d'
  | _ => true
  end.

Definition changed (l : DiffLine) : Prop := type l ≠ Unchanged.

End Diff.

(** *** The application state and its handlers (App component) *)

Module App.

(** **** JavaScript values the handlers compute with

    The active match index is a JavaScript number.  The handlers only ever
    add, subtract and take remainders of integers, so a number is an
    integer or NaN (the result of a remainder by zero); negative zero is
    identified with zero. *)
Inductive JsNum := Num (z : Z) | NaN.

#[global] Instance JsNum_eq_dec : EqDecision JsNum.
Proof. solve_decision. Defined.

Definition jsAdd (a b : JsNum) : JsNum :=
  match a, b with Num x, Num y => Num (x + y) | _, _ => NaN end.
Definition jsSub (a b : JsNum) : JsNum :=
  match a, b with Num x, Num y => Num (x - y) | _, _ => NaN end.
(** [a % b]: the remainder takes the sign of the dividend. *)
Definition jsRem (a b : JsNum) : JsNum :=
  match a, b with
  | Num x, Num y => if (y =? 0)%Z then NaN else Num (Z.rem x y)
  | _, _ => NaN
  end.
(** [a === b]: NaN is equal to nothing. *)
Definition jsStrictEq (a b : JsNum) : bool :=
  match a, b with Num x, Num y => (x =? y)%Z | _, _ => false end.

(** [arr[i]] for a number [i]: undefined unless [i] is an index of [arr]. *)
Definition jsIndex {A : Type} (arr : list A) (i : JsNum) : option A :=
  match i with
  | Num z => if (0 <=? z)%Z then arr !! Z.to_nat z else None
  | NaN => None
  end.

(** How a piece of code completes: normally, or by an exception that leaves
    the state [s] behind. *)
Inductive Completion (S : Type) := Normal (s : S) | Throws (s : S).
Arguments Normal {S} s.
Arguments Throws {S} s.

(** [try { body } catch (error) { handler }] *)
Definition tryCatch {S : Type} (body : Completion S) (handler : S → Completion S)
    : Completion S :=
  match body with Normal s => Normal s | Throws s => handler s end.

(** **** Records of types.ts, as App uses them *)

(** A panel object.  [ref] is not a field of the source record: it is the
    identity of the object, so that "the same instance" can be told from "an
    equal copy".  Panel objects are never mutated in place; every update
    builds a new object with the spread syntax. *)
Record PanelData := mkPanel { ref : nat; id : string; text : string; title : string }.

Record Match := mkMatch { panelId : string; start : nat; end_ : nat }.

Record FindOptions := mkFindOptions { caseSensitive : bool; useRegex : bool }.

#[global] Instance PanelData_eq_dec : EqDecision PanelData.
Proof. solve_decision. Defined.
#[global] Instance Match_eq_dec : EqDecision Match.
Proof. solve_decision. Defined.
#[global] Instance FindOptions_eq_dec : EqDecision FindOptions.
Proof. solve_decision. Defined.

(** **** The regular-expression facility of the host

    [RegExp] and [String.prototype.matchAll] are built into the JavaScript
    engine.  [newRegExp pattern flags] is [None] when the constructor throws
    a SyntaxError.  A match result is the array the engine returns for one
    match: [matched] is its element 0, [captures] are the elements from 1 on
    (a group that took no part in the match is [undefined]), [index] and
    [groups] are its properties of these names ([groups] is [undefined] for
    a pattern without named groups).  [matchAll str regex] lists the results
    of the successive matches of a pattern with the global flag, the only
    kind the component builds. *)
Record RegExpMatch := mkRegExpMatch {
  index : option nat;
  matched : string;
  captures : list (option string);
  groups : option (list (string * option string));
}.

Class RegexEngine := {
  RegExp : Type;
  newRegExp : string → string → option RegExp;
  matchAll : string → RegExp → list RegExpMatch;
}.

(** A scrollable viewport (the DOM element behind a panel's [scrollRef]).
    The offsets are only ever copied from one viewport to the others. *)
Record Viewport := mkViewport { scrollTop : Z; scrollLeft : Z }.

(** The closures the component hands to the host's scheduler: the one given
    to [requestAnimationFrame] releases the scroll guard; the one given to
    [window.setTimeout] clears the "synced" indicator. *)
Inductive RafCallback := ReleaseScrollGuard.

#[global] Instance RafCallback_eq_dec : EqDecision RafCallback.
Proof. solve_decision. Defined.

(** The state of the component: the React state ([nextRef] is the allocator
    of object identities), the three [useRef] cells, and the part of the
    host's event loop the component schedules work on ([rafQueue]: callbacks
    waiting for the next frame; [timeouts]: identifiers of the pending
    indicator timers; [nextTimerId]: the identifier [setTimeout] returns
    next). *)
Record AppState := mkApp {
  nextRef : nat;
  panels : list PanelData;
  syncingPanelIds : list string;
  isFindVisible : bool;
  findQuery : string;
  replaceQuery : string;
  findOptions : FindOptions;
  matches : list Match;
  activeMatchIndex : JsNum;
  panelScrollRefs : list (option Viewport);
  isSyncingScroll : bool;
  syncIndicatorTimer : option nat;
  rafQueue : list RafCallback;
  timeouts : list nat;
  nextTimerId : nat;
}.

(** The setters: [setX v s] is [s] with the field [x] replaced by [v]. *)
Definition setNextRef (v : nat) (s : AppState) : AppState :=
  mkApp v (panels s) (syncingPanelIds s) (isFindVisible s) (findQuery s)
    (replaceQuery s) (findOptions s) (matches s) (activeMatchIndex s)
    (panelScrollRefs s) (isSyncingScroll s) (syncIndicatorTimer s)
    (rafQueue s) (timeouts s) (nextTimerId s).
Definition setPanels (v : list PanelData) (s : AppState) : AppState :=
  mkApp (nextRef s) v (syncingPanelIds s) (isFindVisible s) (findQuery s)
    (replaceQuery s) (findOptions s) (matches s) (activeMatchIndex s)
    (panelScrollRefs s) (isSyncingScroll s) (syncIndicatorTimer s)
    (rafQueue s) (timeouts s) (nextTimerId s).
Definition setSyncingPanelIds (v : list string) (s : AppState) : AppState :=
  mkApp (nextRef s) (panels s) v (isFindVisible s) (findQuery s)
    (replaceQuery s) (findOptions s) (matches s) (activeMatchIndex s)
    (panelScrollRefs s) (isSyncingScroll s) (syncIndicatorTimer s)
    (rafQueue s) (timeouts s) (nextTimerId s).
Definition setIsFindVisible (v : bool) (s : AppState) : AppState :=
  mkApp (nextRef s) (panels s) (syncingPanelIds s) v (findQuery s)
    (replaceQuery s) (findOptions s) (matches s) (activeMatchIndex s)
    (panelScrollRefs s) (isSyncingScroll s) (syncIndicatorTimer s)
    (rafQueue s) (timeouts s) (nextTimerId s).
Definition setFindQuery (v : string) (s : AppState) : AppState :=
  mkApp (nextRef s) (panels s) (syncingPanelIds s) (isFindVisible s) v
    (replaceQuery s) (findOptions s) (matches s) (activeMatchIndex s)
    (panelScrollRefs s) (isSyncingScroll s) (syncIndicatorTimer s)
    (rafQueue s) (timeouts s) (nextTimerId s).
Definition setReplaceQuery (v : string) (s : AppState) : AppState :=
  mkApp (nextRef s) (panels s) (syncingPanelIds s) (isFindVisible s)
    (findQuery s) v (findOptions s) (matches s) (activeMatchIndex s)
    (panelScrollRefs s) (isSyncingScroll s) (syncIndicatorTimer s)
    (rafQueue s) (timeouts s) (nextTimerId s).
Definition setFindOptions (v : FindOptions) (s : AppState) : AppState :=
  mkApp (nextRef s) (panels s) (syncingPanelIds s) (isFindVisible s)
    (findQuery s) (replaceQuery s) v (matches s) (activeMatchIndex s)
    (panelScrollRefs s) (isSyncingScroll s) (syncIndicatorTimer s)
    (rafQueue s) (timeouts s) (nextTimerId s).
Definition setMatches (v : list Match) (s : AppState) : AppState :=
  mkApp (nextRef s) (panels s) (syncingPanelIds s) (isFindVisible s)
    (findQuery s) (replaceQuery s) (findOptions s) v (activeMatchIndex s)
    (panelScrollRefs s) (isSyncingScroll s) (syncIndicatorTimer s)
    (rafQueue s) (timeouts s) (nextTimerId s).
Definition setActiveMatchIndex (v : JsNum) (s : AppState) : AppState :=
  mkApp (nextRef s) (panels s) (syncingPanelIds s) (isFindVisible s)
    (findQuery s) (replaceQuery s) (findOptions s) (matches s) v
    (panelScrollRefs s) (isSyncingScroll s) (syncIndicatorTimer s)
    (rafQueue s) (timeouts s) (nextTimerId s).
Definition setPanelScrollRefs (v : list (option Viewport)) (s : AppState) : AppState :=
  mkApp (nextRef s) (panels s) (syncingPanelIds s) (isFindVisible s)
    (findQuery s) (replaceQuery s) (findOptions s) (matches s)
    (activeMatchIndex s) v (isSyncingScroll s) (syncIndicatorTimer s)
    (rafQueue s) (timeouts s) (nextTimerId s).
Definition setIsSyncingScroll (v : bool) (s : AppState) : AppState :=
  mkApp (nextRef s) (panels s) (syncingPanelIds s) (isFindVisible s)
    (findQuery s) (replaceQuery s) (findOptions s) (matches s)
    (activeMatchIndex s) (panelScrollRefs s) v (syncIndicatorTimer s)
    (rafQueue s) (timeouts s) (nextTimerId s).
Definition setSyncIndicatorTimer (v : option nat) (s : AppState) : AppState :=
  mkApp (nextRef s) (panels s) (syncingPanelIds s) (isFindVisible s)
    (findQuery s) (replaceQuery s) (findOptions s) (matches s)
    (activeMatchIndex s) (panelScrollRefs s) (isSyncingScroll s) v
    (rafQueue s) (timeouts s) (nextTimerId s).
Definition setRafQueue (v : list RafCallback) (s : AppState) : AppState :=
  mkApp (nextRef s) (panels s) (syncingPanelIds s) (isFindVisible s)
    (findQuery s) (replaceQuery s) (findOptions s) (matches s)
    (activeMatchIndex s) (panelScrollRefs s) (isSyncingScroll s)
    (syncIndicatorTimer s) v (timeouts s) (nextTimerId s).
Definition setTimeouts (v : list nat) (s : AppState) : AppState :=
  mkApp (nextRef s) (panels s) (syncingPanelIds s) (isFindVisible s)
    (findQuery s) (replaceQuery s) (findOptions s) (matches s)
    (activeMatchIndex s) (panelScrollRefs s) (isSyncingScroll s)
    (syncIndicatorTimer s) (rafQueue s) v (nextTimerId s).
Definition setNextTimerId (v : nat) (s : AppState) : AppState :=
  mkApp (nextRef s) (panels s) (syncingPanelIds s) (isFindVisible s)
    (findQuery s) (replaceQuery s) (findOptions s) (matches s)
    (activeMatchIndex s) (panelScrollRefs s) (isSyncingScroll s)
    (syncIndicatorTimer s) (rafQueue s) (timeouts s) v.

(** [!str]: the empty string is the only falsy string. *)
Definition falsy (str : string) : bool := bool_decide (str = "").

(** [if (handle)] for a timer handle: [null] and [0] are falsy. *)
Definition truthyHandle (h : option nat) : bool :=
  match h with Some n => negb (n =? 0) | None => false end.

(** [prev.map(p => cond ? { ...p, changes } : p)]: [upd p] is [Some q] when
    the callback builds a new object with the fields of [q], and [None] when
    it returns [p] itself.  A new object gets a fresh identity. *)
Fixpoint mapSpread (upd : PanelData → option PanelData) (next : nat)
    (ps : list PanelData) : nat * list PanelData :=
  match ps with
  | [] => (next, [])
  | p :: ps' =>
      match upd p with
      | Some q =>
          let '(n, r) := mapSpread upd (S next) ps' in
          (n, mkPanel next (id q) (text q) (title q) :: r)
      | None =>
          let '(n, r) := mapSpread upd next ps' in (n, p :: r)
      end
  end.

(** [arr[i] = v]: in range the slot is overwritten; past the end the array
    is extended, the slots in between being holes. *)
Definition jsArraySet {A : Type} (hole : A) (i : nat) (v : A) (arr : list A) : list A :=
  if i <? length arr then <[i := v]> arr
  else arr ++ replicate (i - length arr) hole ++ [v].

(** [arr.slice(0, -1)] *)
Definition sliceButLast {A : Type} (arr : list A) : list A :=
  take (length arr - 1) arr.

(** [arr.findIndex(pred)]: [None] stands for [-1]. *)
Fixpoint findIndex {A : Type} (pred : A → bool) (arr : list A) : option nat :=
  match arr with
  | [] => None
  | x :: arr' => if pred x then Some 0 else S <$> findIndex pred arr'
  end.

(** [arr.find(pred)] *)
Fixpoint find {A : Type} (pred : A → bool) (arr : list A) : option A :=
  match arr with
  | [] => None
  | x :: arr' => if pred x then Some x else find pred arr'
  end.

(** [str.substring(from)] and [str.substring(0, to)] *)
Definition substringFrom (from : nat) (str : string) : string :=
  String.substring from (String.length str - from) str.
Definition substringTo (to : nat) (str : string) : string :=
  String.substring 0 to str.

(** **** [String.prototype.replace] with a regular expression

    [str.replace(regex, replaceValue)] with a [RegExp] and a string runs the
    steps the language standard gives for [RegExp.prototype[Symbol.replace]]:
    the results of the successive matches are collected (they are the ones
    [matchAll] iterates over), the text between two matches is kept, and
    each match is replaced by the expansion [GetSubstitution] of the
    replacement template, in which a dollar sign introduces a reference. *)

(** The value of a decimal digit. *)
Definition digitValue (c : ascii) : option nat :=
  let n := Ascii.nat_of_ascii c in
  if (48 <=? n) && (n <=? 57) then Some (n - 48) else None.

(** [StringIndexOf(templateRemainder, ">", 0)], counting from [from] *)
Fixpoint indexOfGt (cs : list ascii) (from : nat) : option nat :=
  match cs with
  | [] => None
  | c :: cs' => if Ascii.eqb c ">" then Some from else indexOfGt cs' (S from)
  end.

(** [Get(namedCaptures, groupName)]: [None] is [undefined]. *)
Fixpoint getGroup (namedCaptures : list (string * option string)) (groupName : string)
    : option string :=
  match namedCaptures with
  | [] => None
  | (name, capture) :: namedCaptures' =>
      if bool_decide (name = groupName) then capture
      else getGroup namedCaptures' groupName
  end.

(** A capture as it is inserted: the empty string when it is [undefined]. *)
Definition captureText (capture : option string) : string := default "" capture.

(** One turn of the loop of [GetSubstitution]: the length of the reference
    [ref] that a non-empty template remainder starts with, and the text
    [refReplacement] that takes its place. *)
Definition reference (matched str : string) (position : nat)
    (captures : list (option string))
    (namedCaptures : option (list (string * option string)))
    (templateRemainder : list ascii) : nat * string :=
  match templateRemainder with
  | [] => (0, "")
  | c :: rest =>
      if negb (Ascii.eqb c "$") then (1, String c "")
      else
        match rest with
        | [] => (1, "$")
        | d :: rest' =>
            if Ascii.eqb d "$" then (2, "$")
            else if Ascii.eqb d "`" then (2, String.substring 0 position str)
            else if Ascii.eqb d "&" then (2, matched)
            else if Ascii.eqb d "'" then
              let tailPos := position + String.length matched in
              (2, substringFrom (Nat.min tailPos (String.length str)) str)
            else if Ascii.eqb d "<" then
              match namedCaptures, indexOfGt templateRemainder 0 with
              | Some namedCaptures, Some gtPos =>
                  let groupName :=
                    string_of_list_ascii (take (gtPos - 2) (drop 2 templateRemainder)) in
                  (gtPos + 1, captureText (getGroup namedCaptures groupName))
              | _, _ => (2, "$<")
              end
            else
              match digitValue d with
              | None => (1, "$")
              | Some v1 =>
                  let captureLen := length captures in
                  let twoDigits :=
                    match rest' with
                    | d2 :: _ =>
                        match digitValue d2 with
                        | Some v2 =>
                            if captureLen <? 10 * v1 + v2 then None
                            else Some (d2, 10 * v1 + v2)
                        | None => None
                        end
                    | [] => None
                    end in
                  let '(digitCount, digits, index) :=
                    match twoDigits with
                    | Some (d2, index) => (2, String d (String d2 ""), index)
                    | None => (1, String d "", v1)
                    end in
                  if (1 <=? index) && (index <=? captureLen)
                  then (1 + digitCount,
                        captureText (mjoin (captures !! (index - 1))))
                  else (1 + digitCount, "$" +:+ digits)
              end
        end
  end.

(** The loop of [GetSubstitution]: [skip] counts the characters of the
    reference just replaced that are still to be passed over. *)
Fixpoint getSubstitutionFrom (matched str : string) (position : nat)
    (captures : list (option string))
    (namedCaptures : option (list (string * option string)))
    (templateRemainder : list ascii) (skip : nat) : string :=
  match templateRemainder with
  | [] => ""
  | _ :: rest =>
      match skip with
      | S skip' =>
          getSubstitutionFrom matched str position captures namedCaptures rest skip'
      | 0 =>
          let '(refLength, refReplacement) :=
            reference matched str position captures namedCaptures templateRemainder in
          refReplacement
          +:+ getSubstitutionFrom matched str position captures namedCaptures rest
                (refLength - 1)
      end
  end.

Definition getSubstitution (matched str : string) (position : nat)
    (captures : list (option string))
    (namedCaptures : option (list (string * option string)))
    (replacementTemplate : string) : string :=
  getSubstitutionFrom matched str position captures namedCaptures
    (list_ascii_of_string replacementTemplate) 0.

(** The loop over the results: [expand result position] is the text that
    takes the place of the match [result] found at [position]. *)
Fixpoint replaceLoop (str : string) (expand : RegExpMatch → nat → string)
    (results : list RegExpMatch) (accumulatedResult : string)
    (nextSourcePosition : nat) : string :=
  match results with
  | [] =>
      if String.length str <=? nextSourcePosition then accumulatedResult
      else accumulatedResult +:+ substringFrom nextSourcePosition str
  | result :: results' =>
      let matchLength := String.length (matched result) in
      let position := Nat.min (default 0 (index result)) (String.length str) in
      let replacement := expand result position in
      if nextSourcePosition <=? position then
        replaceLoop str expand results'
          (accumulatedResult
           +:+ String.substring nextSourcePosition (position - nextSourcePosition) str
           +:+ replacement)
          (position + matchLength)
      else replaceLoop str expand results' accumulatedResult nextSourcePosition
  end.

Definition regExpReplace (str : string) (results : list RegExpMatch)
    (replaceValue : string) : string :=
  replaceLoop str
    (fun result position =>
       getSubstitution (matched result) str position (captures result) (groups result)
         replaceValue)
    results "" 0.

(** [str.replace(regex, replaceValue)] *)
Definition replace `{RegexEngine} (str : string) (regex : RegExp) (replaceValue : string)
    : string :=
  regExpReplace str (matchAll str regex) replaceValue.

(** The substitution as the specification words it: every match is replaced
    by the replacement string itself, character for character. *)
Definition substituteVerbatim (str : string) (results : list RegExpMatch)
    (replacement : string) : string :=
  replaceLoop str (fun _ _ => replacement) results "" 0.

(** The invariant the specification states for the active match index. *)
Definition activeIndexOk (s : AppState) : Prop :=
  match matches s with
  | [] => activeMatchIndex s = Num (-1)
  | _ :: _ =>
      ∃ z : Z, activeMatchIndex s = Num z ∧ (0 <= z < Z.of_nat (length (matches s)))%Z
  end.

(** The active index right after the match list has been computed:
    [allMatches.length > 0 ? 0 : -1]. *)
Definition resetIndex (ms : list Match) : JsNum :=
  match ms with [] => Num (-1) | _ :: _ => Num 0 end.

(** Every mounted viewport belongs to a panel. *)
Definition refsMounted (s : AppState) : Prop :=
  ∀ i v, panelScrollRefs s !! i = Some (Some v) → i < length (panels s).

(** The double-quote character of the initial texts. *)
Definition dq : string := String (Ascii.ascii_of_nat 34) "".

(** The scroll guard is never set without its release being scheduled, and
    the viewports are those of mounted panels. *)
Definition scrollInv (s : AppState) : Prop :=
  (isSyncingScroll s = true → ReleaseScrollGuard ∈ rafQueue s) ∧ refsMounted s.

(** The four ways in which an event changes the collection of panels:
    not at all, by appending one panel while there are fewer than four, by
    dropping the last panel while there are more than two, or by mapping
    over it with a callback that keeps the identifiers. *)
Inductive panelsStep (ps : list PanelData) : list PanelData → Prop :=
| panels_same : panelsStep ps ps
| panels_add (newPanel : PanelData) :
    length ps < 4 → panelsStep ps (ps ++ [newPanel])
| panels_remove : 2 < length ps → panelsStep ps (take (length ps - 1) ps)
| panels_update (upd : PanelData → option PanelData) (n : nat) :
    (∀ p q, upd p = Some q → id q = id p) → panelsStep ps (mapSpread upd n ps).2.

(** The parts of the state the scroll coordinator owns, and the number of
    panels, are the same in [s] and [s']. *)
Definition sameScroll (s s' : AppState) : Prop :=
  isSyncingScroll s' = isSyncingScroll s
  ∧ rafQueue s' = rafQueue s
  ∧ panelScrollRefs s' = panelScrollRefs s
  ∧ length (panels s') = length (panels s).

(** [initialPanels]: the two identifiers come from [crypto.randomUUID()]. *)
Definition initialPanels (uuid0 uuid1 : string) : list PanelData :=
  [ mkPanel 0 uuid0
      ("const Greeter = (name) => {
  console.log(" +:+ dq +:+ "Hello, " +:+ dq +:+ " + name);
};

Greeter(" +:+ dq +:+ "World" +:+ dq +:+ ");")
      "Original JavaScript";
    mkPanel 1 uuid1
      ("function Greeter(name) {
  // A friendly greeting
  console.log(`Hello, ${name}!`);
}

Greeter(" +:+ dq +:+ "Universe" +:+ dq +:+ ");
")
      "Refactored TypeScript" ].

Section WithEngine.
Context `{RegexEngine}.
(** [escapeRegExp] (utils/regex) is not among the sources; the handlers are
    stated for any such function. *)
Variable escapeRegExp : string → string.

(** ***** Find Matches effect (lines 65-96) *)

(** The inner [for (const match of panel.text.matchAll(regex))] loop. *)
Fixpoint pushMatches (panel : PanelData) (ms : list RegExpMatch)
    (allMatches : list Match) : list Match :=
  match ms with
  | [] => allMatches
  | m :: ms' =>
      match index m with
      | Some i =>
          pushMatches panel ms'
            (allMatches ++ [mkMatch (id panel) i (i + String.length (matched m))])
      | None => pushMatches panel ms' allMatches
      end
  end.

(** [panels.forEach(panel => ...)] of the effect. *)
Fixpoint scanPanels (regex : RegExp) (ps : list PanelData)
    (allMatches : list Match) : list Match :=
  match ps with
  | [] => allMatches
  | panel :: ps' =>
      scanPanels regex ps' (pushMatches panel (matchAll (text panel) regex) allMatches)
  end.

Definition findMatchesEffect (s : AppState) : Completion AppState :=
  if falsy (findQuery s) || negb (isFindVisible s) then
    Normal (setActiveMatchIndex (Num (-1)) (setMatches [] s))
  else
    tryCatch
      (let query := if useRegex (findOptions s) then findQuery s
                    else escapeRegExp (findQuery s) in
       match newRegExp query (if caseSensitive (findOptions s) then "g" else "gi") with
       | None => Throws s
       | Some regex =>
           let allMatches := scanPanels regex (panels s) [] in
           Normal (setActiveMatchIndex
                     (if 0 <? length allMatches then Num 0 else Num (-1))
                     (setMatches allMatches s))
       end)
      (fun s => Normal (setActiveMatchIndex (Num (-1)) (setMatches [] s))).

(** ***** Panel handlers (lines 125-149) *)

(** [None]: the handler returns without calling [setPanels]. *)
Definition addPanel (uuid : string) (s : AppState) : option AppState :=
  if length (panels s) <? 4 then
    let newPanel :=
      mkPanel (nextRef s) uuid "" ("Comparison " +:+ pretty (length (panels s))) in
    Some (setPanels (panels s ++ [newPanel]) (setNextRef (S (nextRef s)) s))
  else None.

Definition removePanel (s : AppState) : option AppState :=
  if 2 <? length (panels s) then
    Some (setPanelScrollRefs (sliceButLast (panelScrollRefs s))
            (setPanels (sliceButLast (panels s)) s))
  else None.

Definition updatePanelText (id' newText : string) (s : AppState) : AppState :=
  let '(n, ps) :=
    mapSpread (fun p => if decide (id p = id')
                        then Some (mkPanel (ref p) (id p) newText (title p))
                        else None)
      (nextRef s) (panels s) in
  setPanels ps (setNextRef n s).

Definition updatePanelTitle (id' newTitle : string) (s : AppState) : AppState :=
  let '(n, ps) :=
    mapSpread (fun p => if decide (id p = id')
                        then Some (mkPanel (ref p) (id p) (text p) newTitle)
                        else None)
      (nextRef s) (panels s) in
  setPanels ps (setNextRef n s).

(** ***** Navigation (lines 192-193) *)

Definition handleFindNext (s : AppState) : AppState :=
  setActiveMatchIndex
    (jsRem (jsAdd (activeMatchIndex s) (Num 1)) (Num (Z.of_nat (length (matches s)))))
    s.

Definition handleFindPrev (s : AppState) : AppState :=
  setActiveMatchIndex
    (jsRem (jsAdd (jsSub (activeMatchIndex s) (Num 1))
              (Num (Z.of_nat (length (matches s)))))
       (Num (Z.of_nat (length (matches s)))))
    s.

(** ***** Replace (lines 195-220)

    [Normal None]: the handler returns without updating the state.
    [Throws]: an exception leaves the handler (reading [match.panelId] of
    [undefined], or a pattern that does not compile). *)
Definition handleReplace (s : AppState) : Completion (option AppState) :=
  if jsStrictEq (activeMatchIndex s) (Num (-1)) || (length (matches s) =? 0) then
    Normal None
  else
    match jsIndex (matches s) (activeMatchIndex s) with
    | None =>
        (* [match] is undefined: the callback of [find] throws on the
           first panel it is called with *)
        match panels s with [] => Normal None | _ :: _ => Throws None end
    | Some match_ =>
        match find (fun p => bool_decide (id p = panelId match_)) (panels s) with
        | None => Normal None
        | Some panel =>
            let newText :=
              substringTo (start match_) (text panel) +:+ replaceQuery s
              +:+ substringFrom (end_ match_) (text panel) in
            Normal (Some (updatePanelText (id panel) newText s))
        end
    end.

(** [panels.forEach(panel => ...)] of [handleReplaceAll]: [None] when the
    pattern does not compile. *)
Fixpoint collectUpdates (s : AppState) (ps : list PanelData)
    (panelUpdates : gmap string string) : option (gmap string string) :=
  match ps with
  | [] => Some panelUpdates
  | panel :: ps' =>
      let query := if useRegex (findOptions s) then findQuery s
                   else escapeRegExp (findQuery s) in
      match newRegExp query (if caseSensitive (findOptions s) then "g" else "gi") with
      | None => None
      | Some regex =>
          let newText := replace (text panel) regex (replaceQuery s) in
          collectUpdates s ps'
            (if bool_decide (newText ≠ text panel)
             then <[id panel := newText]> panelUpdates
             else panelUpdates)
      end
  end.

Definition handleReplaceAll (s : AppState) : Completion (option AppState) :=
  if falsy (findQuery s) || (length (matches s) =? 0) then Normal None
  else
    match collectUpdates s (panels s) ∅ with
    | None => Throws None
    | Some panelUpdates =>
        let '(n, ps) :=
          mapSpread (fun p => match panelUpdates !! id p with
                              | Some newText =>
                                  Some (mkPanel (ref p) (id p) newText (title p))
                              | None => None
                              end)
            (nextRef s) (panels s) in
        Normal (Some (setPanels ps (setNextRef n s)))
    end.

(** ***** Scroll synchronisation (lines 159-190) *)

Definition requestAnimationFrame (cb : RafCallback) (s : AppState) : AppState :=
  setRafQueue (rafQueue s ++ [cb]) s.

Definition clearTimeout (handle : nat) (s : AppState) : AppState :=
  setTimeouts (List.filter (fun t => negb (t =? handle)) (timeouts s)) s.

(** [window.setTimeout(() => setSyncingPanelIds([]), 400)] *)
Definition setTimeout (s : AppState) : nat * AppState :=
  (nextTimerId s,
   setNextTimerId (S (nextTimerId s)) (setTimeouts (timeouts s ++ [nextTimerId s]) s)).

(** [panelScrollRefs.current.forEach((ref, index) => ...)]: the viewports
    after the loop and, unless reading [panels[index].id] threw, the
    identifiers collected in [idsToSync]. *)
Fixpoint syncRefs (ps : list PanelData) (scrolledPanelIndex : nat) (sTop sLeft : Z)
    (refs : list (option Viewport)) (index : nat) (idsToSync : list string)
    : list (option Viewport) * option (list string) :=
  match refs with
  | [] => ([], Some idsToSync)
  | r :: refs' =>
      match r with
      | Some _ =>
          if negb (index =? scrolledPanelIndex) then
            match ps !! index with
            | Some p =>
                let '(rest, ids) :=
                  syncRefs ps scrolledPanelIndex sTop sLeft refs' (S index)
                    (idsToSync ++ [id p]) in
                (Some (mkViewport sTop sLeft) :: rest, ids)
            | None => (Some (mkViewport sTop sLeft) :: refs', None)
            end
          else
            let '(rest, ids) :=
              syncRefs ps scrolledPanelIndex sTop sLeft refs' (S index) idsToSync in
            (r :: rest, ids)
      | None =>
          let '(rest, ids) :=
            syncRefs ps scrolledPanelIndex sTop sLeft refs' (S index) idsToSync in
          (r :: rest, ids)
      end
  end.

Definition handleScroll (scrolledPanelId : string) (sTop sLeft : Z) (s : AppState)
    : Completion AppState :=
  if isSyncingScroll s then Normal s
  else
    let s := setIsSyncingScroll true s in
    match findIndex (fun p => bool_decide (id p = scrolledPanelId)) (panels s) with
    | None => Normal (requestAnimationFrame ReleaseScrollGuard s)
    | Some scrolledPanelIndex =>
        match syncRefs (panels s) scrolledPanelIndex sTop sLeft (panelScrollRefs s) 0 [] with
        | (refs, None) => Throws (setPanelScrollRefs refs s)
        | (refs, Some idsToSync) =>
            let s := setPanelScrollRefs refs s in
            let s := setSyncingPanelIds idsToSync s in
            let s := if truthyHandle (syncIndicatorTimer s)
                     then clearTimeout (default 0 (syncIndicatorTimer s)) s
                     else s in
            let '(handle, s) := setTimeout s in
            let s := setSyncIndicatorTimer (Some handle) s in
            Normal (requestAnimationFrame ReleaseScrollGuard s)
        end
    end.

(** The host runs the callbacks queued for the frame. *)
Definition runRaf (cb : RafCallback) (s : AppState) : AppState :=
  match cb with ReleaseScrollGuard => setIsSyncingScroll false s end.

Definition animationFrame (s : AppState) : AppState :=
  foldl (fun s cb => runRaf cb s) (setRafQueue [] s) (rafQueue s).

(** The host fires a pending indicator timer. *)
Definition timerFired (handle : nat) (s : AppState) : AppState :=
  if bool_decide (handle ∈ timeouts s)
  then setSyncingPanelIds [] (clearTimeout handle s)
  else s.

(** ***** The component as a transition system

    One event of the user or of the host, followed by the effects React
    runs for it.  Only the Find Matches effect writes state that the
    handlers read; it runs whenever one of its dependencies ([findQuery],
    [findOptions], [panels], [isFindVisible]) has been set to a new value
    (every call of [setPanels] passes a new array). *)
Inductive Event :=
| ToggleFind
| CloseFind
| FindQueryChange (q : string)
| ReplaceQueryChange (q : string)
| OptionsChange (o : FindOptions)
| FindNext
| FindPrev
| Replace
| ReplaceAll
| AddPanel (uuid : string)
| RemovePanel
| TextChange (id' newText : string)
| TitleChange (id' newTitle : string)
| Scroll (id' : string) (sTop sLeft : Z)
| AnimationFrame
| TimerFired (handle : nat).

Definition afterCompletion {S : Type} (c : Completion S) : S :=
  match c with Normal s => s | Throws s => s end.

Definition recompute (s : AppState) : AppState :=
  afterCompletion (findMatchesEffect s).

(** [scrollRef={el => panelScrollRefs.current[index] = el}] (line 295):
    React passes the element when a panel is mounted and null when it is
    unmounted. *)
Definition mountRef (index : nat) (s : AppState) : AppState :=
  setPanelScrollRefs
    (jsArraySet None index (Some (mkViewport 0 0)) (panelScrollRefs s)) s.
Definition unmountRef (index : nat) (s : AppState) : AppState :=
  setPanelScrollRefs (jsArraySet None index None (panelScrollRefs s)) s.

(** The events of the find widget, which exists only while
    [isFindVisible] (line 266). *)
Definition dispatchWidget (e : Event) (s : AppState) : AppState :=
  match e with
  | CloseFind => recompute (setIsFindVisible false s)
  | FindQueryChange q =>
      if bool_decide (q = findQuery s) then s else recompute (setFindQuery q s)
  | ReplaceQueryChange q => setReplaceQuery q s
  | OptionsChange o => recompute (setFindOptions o s)
  | FindNext => handleFindNext s
  | FindPrev => handleFindPrev s
  | Replace =>
      match handleReplace s with
      | Normal (Some s') => recompute s'
      | _ => s
      end
  | ReplaceAll =>
      match handleReplaceAll s with
      | Normal (Some s') => recompute s'
      | _ => s
      end
  | _ => s
  end.

Definition dispatch (e : Event) (s : AppState) : AppState :=
  match e with
  | ToggleFind => recompute (setIsFindVisible (negb (isFindVisible s)) s)
  | AddPanel uuid =>
      match addPanel uuid s with
      | Some s' => recompute (mountRef (length (panels s)) s')
      | None => s
      end
  | RemovePanel =>
      match removePanel s with
      | Some s' => recompute (unmountRef (length (panels s) - 1) s')
      | None => s
      end
  | TextChange id' newText => recompute (updatePanelText id' newText s)
  | TitleChange id' newTitle => recompute (updatePanelTitle id' newTitle s)
  | Scroll id' sTop sLeft => afterCompletion (handleScroll id' sTop sLeft s)
  | AnimationFrame => animationFrame s
  | TimerFired handle => timerFired handle s
  | _ => if isFindVisible s then dispatchWidget e s else s
  end.

(** The events whose handlers may set a dependency of the Find Matches
    effect. *)
Definition setsFindInput (e : Event) : bool :=
  match e with
  | ToggleFind | CloseFind | FindQueryChange _ | OptionsChange _
  | Replace | ReplaceAll | AddPanel _ | RemovePanel
  | TextChange _ _ | TitleChange _ _ => true
  | _ => false
  end.

Definition run (es : list Event) (s : AppState) : AppState :=
  foldl (fun s e => dispatch e s) s es.

(** The state after the first render: two panels, both mounted, the find
    widget hidden. *)
Definition initialState (uuid0 uuid1 : string) : AppState :=
  mkApp 2 (initialPanels uuid0 uuid1) [] false "" "" (mkFindOptions false false)
    [] (Num (-1))
    [Some (mkViewport 0 0); Some (mkViewport 0 0)] false None [] [] 1.

Inductive reachable (uuid0 uuid1 : string) : AppState → Prop :=
| reachable_init : reachable uuid0 uuid1 (initialState uuid0 uuid1)
| reachable_step (e : Event) (s : AppState) :
    reachable uuid0 uuid1 s → reachable uuid0 uuid1 (dispatch e s).

End WithEngine.

(** **** A small regular-expression engine

    An instance of the host's matcher for the patterns without operators,
    the ones a literal search builds: a pattern is a sequence of literal
    characters, each metacharacter written with a backslash in front.  The
    instance refuses every pattern with a metacharacter that is not
    escaped, where the host refuses only the ill-formed ones; its results
    have no groups.  It serves to run the handlers on concrete inputs, and
    is used on escaped queries and on the ill-formed pattern of one opening
    parenthesis only. *)
Module Literal.

Definition isMeta (c : ascii) : bool :=
  bool_decide (c ∈ list_ascii_of_string ".*+?^${}()|[]\").

Fixpoint escapeChars (cs : list ascii) : list ascii :=
  match cs with
  | [] => []
  | c :: cs' => if isMeta c then "\"%char :: c :: escapeChars cs' else c :: escapeChars cs'
  end.

Definition escapeRegExp (str : string) : string :=
  string_of_list_ascii (escapeChars (list_ascii_of_string str)).

Fixpoint parse (cs : list ascii) : option (list ascii) :=
  match cs with
  | [] => Some []
  | c :: cs' =>
      if bool_decide (c = "\"%char) then
        match cs' with
        | [] => None
        | d :: cs'' => (d ::.) <$> parse cs''
        end
      else if isMeta c then None
      else (c ::.) <$> parse cs'
  end.

Definition lower (c : ascii) : ascii :=
  let n := Ascii.nat_of_ascii c in
  if (65 <=? n) && (n <=? 90) then Ascii.ascii_of_nat (n + 32) else c.

Record Pattern := mkPattern { chars : list ascii; ignoreCase : bool }.

Definition compile (pattern flags : string) : option Pattern :=
  match parse (list_ascii_of_string pattern) with
  | Some cs =>
      Some (mkPattern cs (bool_decide ("i"%char ∈ list_ascii_of_string flags)))
  | None => None
  end.

Definition sameChar (p : Pattern) (a b : ascii) : bool :=
  if ignoreCase p then bool_decide (lower a = lower b) else bool_decide (a = b).

Fixpoint startsWith (p : Pattern) (pat txt : list ascii) : bool :=
  match pat, txt with
  | [], _ => true
  | a :: pat', b :: txt' => sameChar p a b && startsWith p pat' txt'
  | _ :: _, [] => false
  end.

(** Left-to-right scan for the occurrences that do not overlap; [skip]
    counts the characters still covered by the last match. *)
Fixpoint scan (p : Pattern) (txt : list ascii) (pos skip : nat) : list RegExpMatch :=
  match txt with
  | [] => []
  | c :: txt' =>
      match skip with
      | S skip' => scan p txt' (S pos) skip'
      | 0 =>
          if startsWith p (chars p) txt then
            mkRegExpMatch (Some pos)
              (string_of_list_ascii (take (length (chars p)) txt)) [] None
            :: scan p txt' (S pos) (length (chars p) - 1)
          else scan p txt' (S pos) 0
      end
  end.

#[global] Instance engine : RegexEngine := {|
  RegExp := Pattern;
  newRegExp := compile;
  matchAll := fun txt p => scan p (list_ascii_of_string txt) 0 0;
|}.

End Literal.

(** **** Concrete states

    [findState]: the find widget is open on the query [q] with the options
    [o], the match list not yet computed.  [twoDocs]: the documents
    "foo bar" and "baz", searched for "bar" with the replacement "qux", the
    match list computed. *)
Definition findState (q : string) (o : FindOptions) : AppState :=
  setFindOptions o (setFindQuery q (setIsFindVisible true (initialState "u0" "u1"))).

Definition twoDocs : AppState :=
  mkApp 2 [mkPanel 0 "d1" "foo bar" "first"; mkPanel 1 "d2" "baz" "second"] []
    true "bar" "qux" (mkFindOptions false false)
    [mkMatch "d1" 4 7] (Num 0)
    [Some (mkViewport 0 0); Some (mkViewport 0 0)] false None [] [] 1.

(** The pattern the literal engine compiles from the query of [twoDocs]. *)
Definition barPattern : @RegExp Literal.engine :=
  Literal.mkPattern (list_ascii_of_string "bar") true.

(** [twoDocs] after "replace all". *)
Definition twoDocsReplaced : AppState :=
  mkApp 3 [mkPanel 2 "d1" "foo qux" "first"; mkPanel 1 "d2" "baz" "second"] []
    true "bar" "qux" (mkFindOptions false false)
    [mkMatch "d1" 4 7] (Num 0)
    [Some (mkViewport 0 0); Some (mkViewport 0 0)] false None [] [] 1.

(** [twoDocs] with a replacement string that refers to the matched text,
    and with the replacement string of two dollar signs. *)
Definition patternDocs : AppState := setReplaceQuery "[$&]" twoDocs.
Definition dollarDocs : AppState := setReplaceQuery "$$" twoDocs.

(** The panels after a handler that may or may not have called
    [setPanels]. *)
Definition panelsAfter (c : Completion (option AppState)) (s : AppState)
    : list PanelData :=
  match c with Normal (Some s') => panels s' | _ => panels s end.

End App.

(** *** Invariants of the reachable states *)

Module AppInv.
Import App.

(** The active index as the handlers really keep it: inside a non-empty
    match list; on an empty one the sentinel, or NaN after a navigation. *)
Definition indexInv (s : AppState) : Prop :=
  match matches s with
  | [] => activeMatchIndex s = Num (-1) ∨ activeMatchIndex s = NaN
  | _ :: _ =>
      ∃ z : Z, activeMatchIndex s = Num z ∧ (0 <= z < Z.of_nat (length (matches s)))%Z
  end.

(** At most one indicator timer is pending, [syncIndicatorTimer] holds its
    handle, handles are positive, and the indicator is never shown without a
    timer that will clear it. *)
Definition timerInv (s : AppState) : Prop :=
  1 ≤ nextTimerId s
  ∧ (∀ h, syncIndicatorTimer s = Some h → 1 ≤ h < nextTimerId s)
  ∧ (timeouts s = [] ∨ ∃ h, timeouts s = [h] ∧ syncIndicatorTimer s = Some h)
  ∧ (syncingPanelIds s ≠ [] → timeouts s ≠ []).

(** The panel objects are pairwise distinct, and [nextRef] is beyond all of
    them. *)
Definition objectsInv (s : AppState) : Prop :=
  NoDup (ref <$> panels s) ∧ ∀ p, p ∈ panels s → ref p < nextRef s.

(** What the Find Matches effect reads. *)
Definition findInputs (s : AppState) : string * bool * FindOptions * list (string * string) :=
  (findQuery s, isFindVisible s, findOptions s, (fun p => (id p, text p)) <$> panels s).

(** The match list is the one the Find Matches effect computes from the
    current state. *)
Definition upToDate `{RegexEngine} (escapeRegExp : string → string) (s : AppState) : Prop :=
  matches s = matches (recompute escapeRegExp s).

(** The state after a scroll fan-out: what [handleScroll] may write. *)
Definition withScroll (guard : bool) (refs : list (option Viewport)) (ids : list string)
    (pending : list nat) (next : nat) (handle : option nat) (queue : list RafCallback)
    (s : AppState) : AppState :=
  setRafQueue queue
    (setSyncIndicatorTimer handle
       (setNextTimerId next
          (setTimeouts pending
             (setSyncingPanelIds ids
                (setPanelScrollRefs refs (setIsSyncingScroll guard s)))))).

(** The state after an update of the documents and of the match list. *)
Definition withDocs (n : nat) (ps : list PanelData) (ms : list Match) (i : JsNum)
    (s : AppState) : AppState :=
  setActiveMatchIndex i (setMatches ms (setPanels ps (setNextRef n s))).

(** The viewports after a fan-out from the panel at [source]: every mounted
    viewport but the source's is at the given offsets. *)
Fixpoint fannedOut (source : nat) (sTop sLeft : Z) (refs : list (option Viewport))
    (index : nat) : list (option Viewport) :=
  match refs with
  | [] => []
  | r :: refs' =>
      (match r with
       | Some _ => if index =? source then r else Some (mkViewport sTop sLeft)
       | None => None
       end) :: fannedOut source sTop sLeft refs' (S index)
  end.

(** The identifiers of the panels whose viewport a fan-out writes. *)
Fixpoint syncedIds (ps : list PanelData) (source : nat) (refs : list (option Viewport))
    (index : nat) : list string :=
  match refs with
  | [] => []
  | r :: refs' =>
      match r, ps !! index with
      | Some _, Some p =>
          if index =? source then syncedIds ps source refs' (S index)
          else id p :: syncedIds ps source refs' (S index)
      | _, _ => syncedIds ps source refs' (S index)
      end
  end.

(** The matches of one panel, in scan order: one for every result of
    [matchAll] that carries an index. *)
Definition panelScan `{RegexEngine} (regex : RegExp) (p : PanelData) : list Match :=
  omap (fun m => i ← index m; Some (mkMatch (id p) i (i + String.length (matched m))))
    (matchAll (text p) regex).

(** The events of the scroll coordinator and of the host's scheduler. *)
Definition isScrollEvent (e : Event) : bool :=
  match e with Scroll _ _ _ | AnimationFrame | TimerFired _ => true | _ => false end.

(** What the indicator timer logic reads and writes. *)
Definition timerFields (s : AppState) : list string * list nat * option nat * nat :=
  (syncingPanelIds s, timeouts s, syncIndicatorTimer s, nextTimerId s).

(** How an event changes the allocator and the collection of panels. *)
Inductive docsStep (n : nat) (ps : list PanelData) : nat → list PanelData → Prop :=
| docs_same : docsStep n ps n ps
| docs_add (uuid title' : string) :
    length ps < 4 → docsStep n ps (S n) (ps ++ [mkPanel n uuid "" title'])
| docs_remove : 2 < length ps → docsStep n ps n (take (length ps - 1) ps)
| docs_update (upd : PanelData → option PanelData) :
    (∀ p q, upd p = Some q → id q = id p) →
    docsStep n ps (mapSpread upd n ps).1 (mapSpread upd n ps).2.

End AppInv.

(** *** What App computes for rendering (lines 50-62, 223-248, 285-301) *)

Module AppView.
Import App.

(** [panelMatches] (lines 243-248): an empty array is stored under every
    panel identifier, then every match is pushed onto the array stored under
    its [panelId], if there is one. *)
Definition panelMatches (ps : list PanelData) (ms : list Match) : gmap string (list Match) :=
  let result := foldl (fun result p => <[id p := []]> result) ∅ ps in
  foldl (fun result m =>
           match result !! panelId m with
           | Some arr => <[panelId m := arr ++ [m]]> result
           | None => result
           end) result ms.

(** [matches={panelMatches.get(panel.id) || []}] *)
Definition matchesProp (s : AppState) (panel : PanelData) : list Match :=
  default [] (panelMatches (panels s) (matches s) !! id panel).

(** [activeMatch={matches[activeMatchIndex]?.panelId === panel.id
                  ? matches[activeMatchIndex] : undefined}] *)
Definition activeMatchProp (s : AppState) (panel : PanelData) : option Match :=
  match jsIndex (matches s) (activeMatchIndex s) with
  | Some m => if bool_decide (panelId m = id panel) then Some m else None
  | None => None
  end.

(** The Diff Calculation effect (lines 50-62); [calculateDiff] (utils/diff)
    is not among the sources and is a parameter.  [None] stands for
    [null]. *)
Definition diffEffect (calculateDiff : string → string → list Diff.DiffLine)
    (ps : list PanelData) : list (option (list Diff.DiffLine)) :=
  if length ps <? 2 then (fun _ => None) <$> ps
  else
    let baseText := default "" (text <$> ps !! 0) in
    let newDiffs :=
      imap (fun index panel =>
              if index =? 0 then None else Some (calculateDiff baseText (text panel)))
        ps in
    None :: drop 1 newDiffs.

(** [diffResult={diffResults[index] || null}] *)
Definition diffResultProp (diffResults : list (option (list Diff.DiffLine))) (index : nat)
    : option (list Diff.DiffLine) :=
  mjoin (diffResults !! index).




End AppView.

(** *** The editor panel (components/EditorPanel.tsx) *)

Module EditorPanel.
Import Diff.

(** **** The string operations of the host that the panel uses

    Strings are sequences of characters; the operations below are the
    built-in ones restricted to what the panel passes them: single-character
    separators and patterns, and replacement strings without [$]. *)

(** [toLowerCase] on one character: the letters A-Z.  No other character
    has a lower-case form among the letters of the suffixes tested below. *)
Definition lowerChar (c : ascii) : ascii :=
  let n := Ascii.nat_of_ascii c in
  if (65 <=? n) && (n <=? 90) then Ascii.ascii_of_nat (n + 32) else c.

Fixpoint toLowerCase (str : string) : string :=
  match str with
  | EmptyString => EmptyString
  | String c str' => String (lowerChar c) (toLowerCase str')
  end.

(** [str.endsWith(suffix)] *)
Definition endsWith (str suffix : string) : bool :=
  bool_decide (list_ascii_of_string suffix `suffix_of` list_ascii_of_string str).

(** The line feed. *)
Definition newline : ascii := Ascii.ascii_of_nat 10.

(** [str.split(sep)] for a separator of one character. *)
Fixpoint split (sep : ascii) (str : string) : list string :=
  match str with
  | EmptyString => [EmptyString]
  | String c str' =>
      if bool_decide (c = sep) then EmptyString :: split sep str'
      else match split sep str' with
           | piece :: pieces => String c piece :: pieces
           | [] => [String c EmptyString]
           end
  end.

(** [str.replace(/c/g, by)] for a pattern of one literal character. *)
Fixpoint replaceChar (c : ascii) (by_ : string) (str : string) : string :=
  match str with
  | EmptyString => EmptyString
  | String x str' =>
      if bool_decide (x = c) then by_ +:+ replaceChar c by_ str'
      else String x (replaceChar c by_ str')
  end.

(** [str.substring(from, to)]: the arguments are swapped when out of order
    and clamped to the length. *)
Definition jsSubstring (from to : nat) (str : string) : string :=
  String.substring (Nat.min from to) (Nat.max from to - Nat.min from to) str.

(** [str.substring(from)] *)
Definition jsSubstringFrom (from : nat) (str : string) : string :=
  String.substring from (String.length str - from) str.

(** **** Styles and languages *)

(** [getLineStyle]: the background colour, [None] for the empty style. *)
Definition getLineStyle (type : DiffType) : option string :=
  match type with
  | Added => Some "var(--color-diff-add-bg)"
  | Removed => Some "var(--color-diff-remove-bg)"
  | _ => None
  end.

Definition getLineSymbolClass (type : DiffType) : string :=
  match type with
  | Added => "text-[var(--color-diff-add-text)]"
  | Removed => "text-[var(--color-diff-remove-text)]"
  | _ => "text-transparent"
  end.

Definition getLanguageFromTitle (title : string) : string :=
  let lowerTitle := toLowerCase title in
  if endsWith lowerTitle ".tsx" then "tsx"
  else if endsWith lowerTitle ".ts" then "typescript"
  else if endsWith lowerTitle ".jsx" then "jsx"
  else if endsWith lowerTitle ".js" || endsWith lowerTitle ".mjs" then "javascript"
  else if endsWith lowerTitle ".css" then "css"
  else if endsWith lowerTitle ".html" || endsWith lowerTitle ".xml"
          || endsWith lowerTitle ".svg" then "markup"
  else if endsWith lowerTitle ".json" then "json"
  else "javascript".

(** The suffixes the function knows, with their languages. *)
Definition knownSuffixes : list (string * string) :=
  [(".tsx", "tsx"); (".ts", "typescript"); (".jsx", "jsx"); (".js", "javascript");
   (".mjs", "javascript"); (".css", "css"); (".html", "markup"); (".xml", "markup");
   (".svg", "markup"); (".json", "json")].

(** **** The highlight overlay *)

(** What the overlay renders: plain text, or a [mark] element with its key
    and whether it is the active match. *)
Inductive Part :=
| Plain (str : string)
| Mark (key : nat) (active : bool) (str : string).

Definition partText (part : Part) : string :=
  match part with Plain str => str | Mark _ _ str => str end.

(** [[...matches].sort((a, b) => a.start - b.start)]: the sort of the host is
    stable, and the result of a stable sort is determined by the comparator;
    it is computed here by insertion. *)
Fixpoint insertByStart (m : App.Match) (sorted : list App.Match) : list App.Match :=
  match sorted with
  | [] => [m]
  | m' :: sorted' =>
      if App.start m <=? App.start m' then m :: sorted
      else m' :: insertByStart m sorted'
  end.

Fixpoint sortByStart (ms : list App.Match) : list App.Match :=
  match ms with
  | [] => []
  | m :: ms' => insertByStart m (sortByStart ms')
  end.

(** [sortedMatches.forEach((match, i) => ...)]: the parts pushed so far and
    [lastIndex]. *)
Fixpoint overlayLoop (text : string) (activeMatch : option App.Match)
    (sortedMatches : list App.Match) (i lastIndex : nat) (parts : list Part)
    : list Part * nat :=
  match sortedMatches with
  | [] => (parts, lastIndex)
  | m :: rest =>
      let parts :=
        if lastIndex <? App.start m
        then parts ++ [Plain (jsSubstring lastIndex (App.start m) text)]
        else parts in
      let isMatchActive :=
        match activeMatch with
        | Some a => (App.start a =? App.start m) && (App.end_ a =? App.end_ m)
        | None => false
        end in
      let parts :=
        parts ++ [Mark i isMatchActive (jsSubstring (App.start m) (App.end_ m) text)] in
      overlayLoop text activeMatch rest (S i) (App.end_ m) parts
  end.

Definition HighlightOverlay (text : string) (matches : list App.Match)
    (activeMatch : option App.Match) : list Part :=
  let sortedMatches := sortByStart matches in
  if length matches =? 0 then [Plain text]
  else
    let '(parts, lastIndex) := overlayLoop text activeMatch sortedMatches 0 0 [] in
    if lastIndex <? String.length text
    then parts ++ [Plain (jsSubstringFrom lastIndex text)]
    else parts.

(** The text the parts show, one after the other. *)
Definition overlayText (parts : list Part) : string :=
  foldr (fun part rest => partText part +:+ rest) "" parts.

Definition isMark (part : Part) : bool :=
  match part with Mark _ _ _ => true | Plain _ => false end.

(** The matches lie one after the other inside the text, from [lastIndex]
    on. *)
Fixpoint placed (text : string) (lastIndex : nat) (ms : list App.Match) : Prop :=
  match ms with
  | [] => True
  | m :: ms' =>
      lastIndex ≤ App.start m ∧ App.start m ≤ App.end_ m
      ∧ App.end_ m ≤ String.length text ∧ placed text (App.end_ m) ms'
  end.

(** **** The rendered lines *)

(** One rendered line: the style of the row, the two line-number cells
    ([None] for an empty cell), the class and the text of the symbol cell,
    and the markup of the code cell. *)
Record Row := mkRow {
  rowStyle : option string;
  baseNumber : option nat;
  currentNumber : option nat;
  symbolClass : string;
  symbol : string;
  html : string;
}.

(** The three characters that are escaped. *)
Definition ampChar : ascii := "&".
Definition ltChar : ascii := "<".
Definition gtChar : ascii := ">".

(** The escaping applied when no grammar is available. *)
Definition escapeHtml (lineContent : string) : string :=
  replaceChar gtChar "&gt;"
    (replaceChar ltChar "&lt;" (replaceChar ampChar "&amp;" lineContent)).

Section Render.
(** The syntax highlighter is external: [prismGrammar language] is the
    grammar [Prism.languages[language]], [None] when Prism or the grammar is
    missing. *)
Variable Grammar : Type.
Variable prismGrammar : string → option Grammar.
Variable prismHighlight : string → Grammar → string → string.

(** [lines.map((line, i) => ...)] with the two counters. *)
Fixpoint renderLines (language : string) (isBasePanel : bool) (lines : list DiffLine)
    (baseLineNum currentLineNum : nat) : list Row :=
  match lines with
  | [] => []
  | line :: lines' =>
      let lineContent := if 0 <? String.length (text line) then text line else " " in
      let highlightedHtml :=
        match prismGrammar language with
        | Some grammar => prismHighlight lineContent grammar language
        | None => escapeHtml lineContent
        end in
      let isAdded := isAdded line in
      let isRemoved := isRemoved line in
      let isUnchanged := isUnchanged line in
      let baseLineNum :=
        if isBasePanel then S baseLineNum
        else if isUnchanged || isRemoved then S baseLineNum else baseLineNum in
      let currentLineNum :=
        if isBasePanel then currentLineNum
        else if isUnchanged || isAdded then S currentLineNum else currentLineNum in
      let symbol := if isAdded then "+" else if isRemoved then "-" else " " in
      mkRow (getLineStyle (type line))
        (if isBasePanel then Some baseLineNum
         else if isUnchanged || isRemoved then Some baseLineNum else None)
        (if isBasePanel then None
         else if isUnchanged || isAdded then Some currentLineNum else None)
        (if isBasePanel then "text-transparent" else getLineSymbolClass (type line))
        (if isBasePanel then " " else symbol)
        highlightedHtml
      :: renderLines language isBasePanel lines' baseLineNum currentLineNum
  end.

Definition renderContent (title text : string) (diffResult : option (list DiffLine))
    : list Row :=
  let language := getLanguageFromTitle title in
  let isBasePanel := match diffResult with Some _ => false | None => true end in
  let lines :=
    match diffResult with
    | Some d => d
    | None => (fun line => mkDiffLine Unchanged line) <$> split newline text
    end in
  renderLines language isBasePanel lines 0 0.

End Render.

End EditorPanel.

(** *** Concrete runs *)

Module Samples.
Import App.

(** The find widget opened on the query "greeter", then "next". *)
Definition greeterState : AppState :=
  run Literal.escapeRegExp [ToggleFind; FindQueryChange "greeter"; FindNext]
    (initialState "u0" "u1").

(** A scroll of the first panel. *)
Definition scrolledState : AppState :=
  run Literal.escapeRegExp [Scroll "u0" 120 0] (initialState "u0" "u1").

End Samples.

(** ** Part II: properties *)

Module DiffFacts.
Import Diff.

Example diff_abc_axc :
  computeDiff ["a"; "b"; "c"] ["a"; "x"; "c"]
  = [mkDiffLine Unchanged "a"; mkDiffLine Removed "b";
     mkDiffLine Added "x"; mkDiffLine Unchanged "c"].
Proof. reflexivity. Qed.

Example diff_disjoint :
  computeDiff ["a"; "b"] ["x"; "y"]
  = [mkDiffLine Removed "a"; mkDiffLine Removed "b";
     mkDiffLine Added "x"; mkDiffLine Added "y"].
Proof. reflexivity. Qed.

Example diff_identical :
  computeDiff ["p"; ""; "q"] ["p"; ""; "q"]
  = [mkDiffLine Unchanged "p"; mkDiffLine Unchanged ""; mkDiffLine Unchanged "q"].
Proof. reflexivity. Qed.

(** *** Reconstruction of both sides *)

Lemma take_pred_snoc (l : list string) (i : nat) :
  0 < i → i ≤ length l → take i l = take (i - 1) l ++ [nth (i - 1) l ""].
Proof.
  intros Hi Hl. destruct i as [|i]; [lia|].
  replace (S i - 1) with i by lia.
  apply take_S_r. destruct (nth_lookup_or_length l i "") as [H|H]; [done | lia].
Qed.

Lemma baseLines_cons (x : DiffLine) (d : list DiffLine) :
  baseLines (x :: d)
  = if isUnchanged x || isRemoved x then text x :: baseLines d else baseLines d.
Proof. unfold baseLines. simpl. by destruct (isUnchanged x || isRemoved x). Qed.

Lemma variantLines_cons (x : DiffLine) (d : list DiffLine) :
  variantLines (x :: d)
  = if isUnchanged x || isAdded x then text x :: variantLines d else variantLines d.
Proof. unfold variantLines. simpl. by destruct (isUnchanged x || isAdded x). Qed.

Ltac backtrace_step :=
  cbn [backtrace];
  repeat match goal with
  | |- context [if ?c then _ else _] =>
      let E := fresh "E" in destruct c eqn:E
  end;
  repeat match goal with
  | H : _ && _ = true |- _ => apply andb_prop in H; destruct H
  | H : (_ <? _) = true |- _ => apply Nat.ltb_lt in H
  | H : (_ <? _) = false |- _ => apply Nat.ltb_ge in H
  | H : (_ =? _) = true |- _ => apply Nat.eqb_eq in H
  end.

Section Reconstruction.
Variables (dp : list (list nat)) (B V : list string).

(** The walk from [(i, j)] puts the first [i] base lines in front of the
    base side of what was already emitted, whatever the table holds. *)
Lemma backtrace_baseLines (fuel i j : nat) (acc : list DiffLine) :
  i ≤ length B → j ≤ length V → i + j ≤ fuel →
  baseLines (backtrace fuel dp B V i j acc) = take i B ++ baseLines acc.
Proof.
  revert i j acc. induction fuel as [|fuel IH]; intros i j acc Hi Hj Hf.
  - assert (i = 0) as -> by lia. done.
  - backtrace_step.
    + rewrite IH by lia. rewrite baseLines_cons. cbn.
      rewrite (take_pred_snoc B i) by lia. by rewrite <- app_assoc.
    + rewrite IH by lia. rewrite baseLines_cons. by cbn.
    + rewrite IH by lia. rewrite baseLines_cons. cbn.
      rewrite (take_pred_snoc B i) by lia. by rewrite <- app_assoc.
    + assert (i = 0) as -> by lia. done.
Qed.

Lemma backtrace_variantLines (fuel i j : nat) (acc : list DiffLine) :
  i ≤ length B → j ≤ length V → i + j ≤ fuel →
  variantLines (backtrace fuel dp B V i j acc) = take j V ++ variantLines acc.
Proof.
  revert i j acc. induction fuel as [|fuel IH]; intros i j acc Hi Hj Hf.
  - assert (j = 0) as -> by lia. done.
  - backtrace_step.
    + rewrite IH by lia. rewrite variantLines_cons. cbn.
      rewrite (take_pred_snoc V j) by lia. rewrite <- app_assoc. cbn.
      apply bool_decide_eq_true in H0. by rewrite H0.
    + rewrite IH by lia. rewrite variantLines_cons. cbn.
      rewrite (take_pred_snoc V j) by lia. by rewrite <- app_assoc.
    + rewrite IH by lia. rewrite variantLines_cons. by cbn.
    + apply andb_false_iff in E0 as [E0|E0].
      * apply Nat.ltb_ge in E0. assert (j = 0) as -> by lia. done.
      * apply orb_false_iff in E0 as [E0 _]. apply Nat.eqb_neq in E0. lia.
Qed.
End Reconstruction.

(** C1: for every pair of line sequences [B] and [V], the lines of
    [computeDiff B V] whose kind is Removed or Unchanged carry, in emission
    order, exactly the texts of [B], and the lines whose kind is Added or
    Unchanged carry exactly the texts of [V]. *)
Theorem computeDiff_reconstructs (B V : list string) :
  baseLines (computeDiff B V) = B ∧ variantLines (computeDiff B V) = V.
Proof.
  unfold computeDiff. split.
  - rewrite backtrace_baseLines by lia. rewrite take_ge by lia. apply app_nil_r.
  - rewrite backtrace_variantLines by lia. rewrite take_ge by lia. apply app_nil_r.
Qed.

(** *** The table implements the LCS recurrence *)

Section Table.
Variables (B V : list string).

Lemma lcsLen_0_l (j : nat) : lcsLen B V 0 j = 0.
Proof. reflexivity. Qed.

Lemma lcsLen_0_r (i : nat) : lcsLen B V i 0 = 0.
Proof. by destruct i. Qed.

Lemma lcsLen_S_S (i j : nat) :
  lcsLen B V (S i) (S j)
  = if decide (nth i B "" = nth j V "") then S (lcsLen B V i j)
    else Nat.max (lcsLen B V i (S j)) (lcsLen B V (S i) j).
Proof. reflexivity. Qed.

Lemma lcsRowFrom_spec (i k j : nat) :
  j + k = length V →
  lcsRowFrom (nth i B "") (drop j V) (lcsLen B V i <$> seq j (S k))
    (lcsLen B V (S i) j)
  = lcsLen B V (S i) <$> seq (S j) k.
Proof.
  revert j. induction k as [|k IH]; intros j Hjk.
  - rewrite drop_ge by lia. done.
  - destruct (nth_lookup_or_length V j "") as [Hv|Hv]; [|lia].
    rewrite (drop_S _ _ _ Hv). cbn [seq fmap list_fmap lcsRowFrom].
    rewrite <- lcsLen_S_S. f_equal. apply (IH (S j)). lia.
Qed.

Lemma lcsRow_spec (i : nat) :
  lcsRow (nth i B "") V (rowOf B V i) = rowOf B V (S i).
Proof.
  pose proof (lcsRowFrom_spec i (length V) 0 eq_refl) as H.
  rewrite drop_0, lcsLen_0_r in H.
  unfold lcsRow, rowOf. rewrite H. done.
Qed.

Lemma lcsRows_spec (k i : nat) :
  i + k = length B →
  lcsRows (drop i B) V (rowOf B V i) = rowOf B V <$> seq (S i) k.
Proof.
  revert i. induction k as [|k IH]; intros i Hik.
  - rewrite drop_ge by lia. done.
  - destruct (nth_lookup_or_length B i "") as [Hb|Hb]; [|lia].
    rewrite (drop_S _ _ _ Hb). cbn [lcsRows seq fmap list_fmap].
    rewrite lcsRow_spec. f_equal. apply (IH (S i)). lia.
Qed.

Lemma rowOf_0 : rowOf B V 0 = replicate (S (length V)) 0.
Proof.
  assert (H : ∀ n s, lcsLen B V 0 <$> seq s n = replicate n 0).
  { induction n as [|n IH]; intros s; [done|].
    cbn [seq fmap list_fmap replicate]. by rewrite IH. }
  apply H.
Qed.

Lemma lcsTable_spec : lcsTable B V = rowOf B V <$> seq 0 (S (length B)).
Proof.
  unfold lcsTable. cbn [seq fmap list_fmap]. rewrite <- rowOf_0. f_equal.
  apply (lcsRows_spec (length B) 0). lia.
Qed.

Lemma cell_lcsTable (i j : nat) :
  i ≤ length B → j ≤ length V → cell (lcsTable B V) i j = lcsLen B V i j.
Proof.
  intros Hi Hj. unfold cell. rewrite lcsTable_spec.
  assert (Hrow : (rowOf B V <$> seq 0 (S (length B))) !! i = Some (rowOf B V i)).
  { rewrite list_lookup_fmap, lookup_seq_lt by lia. done. }
  rewrite (nth_lookup_Some _ _ _ _ Hrow).
  assert (Hc : rowOf B V i !! j = Some (lcsLen B V i j)).
  { unfold rowOf. rewrite list_lookup_fmap, lookup_seq_lt by lia. done. }
  apply (nth_lookup_Some _ _ _ _ Hc).
Qed.

(** Neighbouring cells differ by at most one, and the table grows along
    both axes. *)
Lemma lcsLen_neighbours (n i j : nat) :
  i + j ≤ n →
  lcsLen B V i j ≤ lcsLen B V (S i) j
  ∧ lcsLen B V i j ≤ lcsLen B V i (S j)
  ∧ lcsLen B V i (S j) ≤ S (lcsLen B V i j)
  ∧ lcsLen B V (S i) j ≤ S (lcsLen B V i j).
Proof.
  revert i j. induction n as [|n IH]; intros i j Hn.
  - assert (i = 0) as -> by lia. assert (j = 0) as -> by lia. cbn. lia.
  - destruct i as [|i], j as [|j].
    + cbn. lia.
    + destruct (IH 0 j ltac:(lia)) as (_ & _ & _ & Hd).
      rewrite lcsLen_S_S, !lcsLen_0_l in *. case_decide; lia.
    + destruct (IH i 0 ltac:(lia)) as (_ & _ & Hc & _).
      rewrite lcsLen_S_S, !lcsLen_0_r in *. case_decide; lia.
    + destruct (IH i (S j) ltac:(lia)) as (Ha1 & Hb1 & Hc1 & Hd1).
      destruct (IH (S i) j ltac:(lia)) as (Ha2 & Hb2 & Hc2 & Hd2).
      rewrite (lcsLen_S_S (S i) j), (lcsLen_S_S i (S j)).
      repeat case_decide; lia.
Qed.

Lemma lcsLen_mono_rows (i j : nat) : lcsLen B V i j ≤ lcsLen B V (S i) j.
Proof. by destruct (lcsLen_neighbours (i + j) i j). Qed.
End Table.

(** *** Removed lines come first in every block of changes *)

Lemma removedFirst_cons_not_added (x : DiffLine) (d : list DiffLine) :
  isAdded x = false → removedFirst d = true → removedFirst (x :: d) = true.
Proof.
  intros Hx Hd. destruct d; [done|].
  cbn [removedFirst] in *. rewrite Hx. exact Hd.
Qed.

Section Backtrace.
Variables (B V : list string).
Let dp := lcsTable B V.

(** After a Removed line has been emitted at [(i, j)], the iteration at
    [(i - 1, j)] does not emit an Added line: the table grows along its
    rows, so the comparison that rejected the insertion rejects it again. *)
Lemma removed_then_not_added (i j : nat) :
  i ≤ length B → j ≤ length V → 0 < i →
  ((0 <? i) && (0 <? j) && bool_decide (nth (i - 1) B "" = nth (j - 1) V "")) = false →
  ((0 <? j) && ((i =? 0) || (cell dp (i - 1) j <=? cell dp i (j - 1)))) = false →
  emitsAdded dp B V (i - 1) j = false.
Proof.
  intros Hi Hj Hpos E1 E2. unfold emitsAdded.
  destruct j as [|j]; [by rewrite andb_false_r|].
  destruct i as [|i]; [lia|].
  cbn [Nat.ltb Nat.leb Nat.eqb andb orb] in E1, E2.
  replace (S i - 1) with i in * by lia. replace (S j - 1) with j in * by lia.
  apply Nat.leb_gt in E2. unfold dp in *.
  rewrite !cell_lcsTable in E2 by lia.
  destruct i as [|i].
  { rewrite lcsLen_0_l in E2. lia. }
  replace (S i - 1) with i by lia.
  cbn [Nat.ltb Nat.leb Nat.eqb andb orb].
  destruct (bool_decide (nth i B "" = nth j V "")) eqn:Em; [done|].
  cbn [negb andb]. apply Nat.leb_gt.
  rewrite !cell_lcsTable by lia.
  apply bool_decide_eq_false in Em. apply bool_decide_eq_false in E1.
  pose proof (lcsLen_mono_rows B V (S i) j) as Hmono.
  rewrite lcsLen_S_S in E2. rewrite decide_False in E2 by done. lia.
Qed.

Lemma backtrace_removedFirst (fuel i j : nat) (acc : list DiffLine) :
  i ≤ length B → j ≤ length V →
  removedFirst acc = true →
  (∀ x acc', acc = x :: acc' → isRemoved x = true → emitsAdded dp B V i j = false) →
  removedFirst (backtrace fuel dp B V i j acc) = true.
Proof.
  revert i j acc. induction fuel as [|fuel IH]; intros i j acc Hi Hj Hacc Hhead; [done|].
  cbn [backtrace].
  destruct ((0 <? i) && (0 <? j) && bool_decide (nth (i - 1) B "" = nth (j - 1) V ""))
    eqn:E1.
  { apply IH; [lia | lia | by apply removedFirst_cons_not_added |].
    intros x acc' [= <- <-]. discriminate. }
  destruct ((0 <? j) && ((i =? 0) || (cell dp (i - 1) j <=? cell dp i (j - 1))))
    eqn:E2.
  { apply IH; [lia | lia | | intros x acc' [= <- <-]; discriminate].
    destruct acc as [|y acc']; [done|].
    cbn [removedFirst isAdded type andb negb].
    destruct (isRemoved y) eqn:Hy; [|done].
    specialize (Hhead y acc' eq_refl Hy). unfold emitsAdded in Hhead.
    rewrite E1, E2 in Hhead. discriminate. }
  destruct (decide (0 < i)) as [E3|E3].
  - rewrite (proj2 (Nat.ltb_lt 0 i) E3).
    apply IH; [lia | lia | by apply removedFirst_cons_not_added |].
    intros _ _ _ _. by apply removed_then_not_added.
  - rewrite (proj2 (Nat.ltb_ge 0 i)) by lia. done.
Qed.

Lemma computeDiff_removedFirst : removedFirst (computeDiff B V) = true.
Proof.
  unfold computeDiff. apply backtrace_removedFirst; [lia | lia | done |].
  intros x acc' [=].
Qed.
End Backtrace.

Lemma removedFirst_tail (x : DiffLine) (d : list DiffLine) :
  removedFirst (x :: d) = true → removedFirst d = true.
Proof. destruct d; [done|]. cbn [removedFirst]. by intros [_ ?]%andb_prop. Qed.

Lemma removedFirst_app_r (pre d : list DiffLine) :
  removedFirst (pre ++ d) = true → removedFirst d = true.
Proof.
  induction pre as [|x pre IH]; [done|]. intros H. apply IH.
  by apply (removedFirst_tail x).
Qed.

Lemma removedFirst_app_l (d post : list DiffLine) :
  removedFirst (d ++ post) = true → removedFirst d = true.
Proof.
  induction d as [|x d IH]; [done|]. intros H.
  destruct d as [|y d]; [done|].
  cbn [app removedFirst] in *. apply andb_prop in H as [H1 H2].
  rewrite H1. by apply IH.
Qed.

(** A run of changed lines without an Added line directly followed by a
    Removed one is a run of Removed lines followed by a run of Added lines. *)
Lemma block_split (blk : list DiffLine) :
  removedFirst blk = true → Forall changed blk →
  ∃ rs ads, blk = rs ++ ads
    ∧ Forall (fun l => type l = Removed) rs
    ∧ Forall (fun l => type l = Added) ads.
Proof.
  induction blk as [|x blk IH]; intros Hrf Hch.
  { exists [], []. by repeat split. }
  apply Forall_cons in Hch as [Hx Hch].
  destruct (IH (removedFirst_tail _ _ Hrf) Hch) as (rs & ads & -> & Hrs & Hads).
  destruct x as [[] t]; [| |by destruct Hx].
  - destruct rs as [|r rs].
    + exists [], (mkDiffLine Added t :: ads). repeat split; [done|].
      by apply Forall_cons.
    + apply Forall_cons in Hrs as [Hr _].
      destruct r as [tr tx]. cbn in Hr. subst tr.
      cbn [app removedFirst isAdded isRemoved type andb negb] in Hrf.
      discriminate.
  - exists (mkDiffLine Removed t :: rs), ads. repeat split; [|done].
    by apply Forall_cons.
Qed.

(** C2: in the output of [computeDiff], every contiguous block of changed
    lines consists of its Removed lines followed by its Added lines; in
    particular the diff of ["a"] against ["b"] is Removed "a" followed by
    Added "b". *)
Theorem computeDiff_removed_before_added (B V : list string) :
  (∀ pre blk post : list DiffLine,
      computeDiff B V = pre ++ blk ++ post → Forall changed blk →
      ∃ rs ads, blk = rs ++ ads
        ∧ Forall (fun l => type l = Removed) rs
        ∧ Forall (fun l => type l = Added) ads)
  ∧ computeDiff ["a"] ["b"] = [mkDiffLine Removed "a"; mkDiffLine Added "b"].
Proof.
  split; [|reflexivity].
  intros pre blk post Heq Hch. apply block_split; [|done].
  pose proof (computeDiff_removedFirst B V) as H. rewrite Heq in H.
  by apply removedFirst_app_r, removedFirst_app_l in H.
Qed.

Lemma computeDiff_removed_before_added_witness :
  ∃ rs ads, [mkDiffLine Removed "b"; mkDiffLine Added "x"] = rs ++ ads
    ∧ Forall (fun l => type l = Removed) rs
    ∧ Forall (fun l => type l = Added) ads.
Proof.
  apply (proj1 (computeDiff_removed_before_added ["a"; "b"; "c"] ["a"; "x"; "c"])
           [mkDiffLine Unchanged "a"] _ [mkDiffLine Unchanged "c"]).
  - reflexivity.
  - repeat constructor; discriminate.
Defined.

End DiffFacts.

Module AppFacts.
Import App.

(** *** Navigation *)

Lemma jsRem_zero (a : JsNum) : jsRem a (Num 0) = NaN.
Proof. by destruct a. Qed.

(** With a non-empty match list the handlers step through it cyclically. *)
Lemma handleFind_nonempty (s : AppState) (i : Z) :
  let count := Z.of_nat (length (matches s)) in
  (0 < count)%Z → (-1 <= i)%Z → activeMatchIndex s = Num i →
  activeMatchIndex (handleFindNext s) = Num ((i + 1) mod count)
  ∧ activeMatchIndex (handleFindPrev s) = Num ((i - 1 + count) mod count).
Proof.
  intros count Hc Hi Hs. unfold handleFindNext, handleFindPrev.
  cbn [activeMatchIndex setActiveMatchIndex]. rewrite Hs. fold count.
  cbn [jsAdd jsSub jsRem].
  destruct (count =? 0)%Z eqn:E; [lia|]. split; f_equal.
  - apply Z.rem_mod_nonneg; lia.
  - destruct (decide (i - 1 + count = -1)%Z) as [Heq|Hne].
    + assert (count = 1)%Z as -> by lia. by rewrite Z.rem_1_r, Z.mod_1_r.
    + apply Z.rem_mod_nonneg; lia.
Qed.

(** C3: on an empty match list [handleFindNext] and [handleFindPrev] do not
    return the sentinel [-1]: the remainder by a zero count is NaN, whatever
    the active index was. *)
Theorem handleFind_empty_is_NaN (s : AppState) :
  matches s = [] →
  activeMatchIndex (handleFindNext s) = NaN
  ∧ activeMatchIndex (handleFindPrev s) = NaN
  ∧ activeMatchIndex (handleFindNext s) ≠ Num (-1)
  ∧ activeMatchIndex (handleFindPrev s) ≠ Num (-1).
Proof.
  intros Hm. unfold handleFindNext, handleFindPrev.
  cbn [activeMatchIndex setActiveMatchIndex]. rewrite Hm. cbn [length Z.of_nat].
  rewrite !jsRem_zero. by repeat split.
Qed.

Lemma handleFind_empty_is_NaN_witness :
  let s := initialState "u0" "u1" in
  activeMatchIndex (handleFindNext s) = NaN
  ∧ activeMatchIndex (handleFindPrev s) = NaN
  ∧ activeMatchIndex (handleFindNext s) ≠ Num (-1)
  ∧ activeMatchIndex (handleFindPrev s) ≠ Num (-1).
Proof. apply (handleFind_empty_is_NaN (initialState "u0" "u1")). reflexivity. Defined.

Section Find.
Context `{RegexEngine} (escapeRegExp : string → string).

Local Abbreviation findMatchesEffect := (findMatchesEffect escapeRegExp).
Local Abbreviation recompute := (recompute escapeRegExp).
Local Abbreviation dispatch := (dispatch escapeRegExp).
Local Abbreviation dispatchWidget := (dispatchWidget escapeRegExp).
Local Abbreviation run := (run escapeRegExp).

(** *** The Find Matches effect *)

Lemma resetIndex_length (ms : list Match) :
  (if 0 <? length ms then Num 0 else Num (-1)) = resetIndex ms.
Proof. by destruct ms. Qed.

(** The effect always completes normally, and writes only the match list
    and the active index, the latter as a function of the former. *)
Lemma findMatchesEffect_normal (s : AppState) :
  ∃ ms, findMatchesEffect s
        = Normal (setActiveMatchIndex (resetIndex ms) (setMatches ms s)).
Proof.
  unfold App.findMatchesEffect.
  destruct (falsy (findQuery s) || negb (isFindVisible s)); [by exists []|].
  cbn zeta.
  destruct (newRegExp _ _) as [regex|]; cbn [tryCatch].
  - eexists. by rewrite resetIndex_length.
  - by exists [].
Qed.

Lemma recompute_spec (s : AppState) :
  ∃ ms, recompute s = setActiveMatchIndex (resetIndex ms) (setMatches ms s).
Proof.
  unfold App.recompute. destruct (findMatchesEffect_normal s) as [ms ->].
  by exists ms.
Qed.

Lemma recompute_activeMatchIndex (s : AppState) :
  activeMatchIndex (recompute s) = resetIndex (matches (recompute s)).
Proof. by destruct (recompute_spec s) as [ms ->]. Qed.

Lemma recompute_panels (s : AppState) : panels (recompute s) = panels s.
Proof. by destruct (recompute_spec s) as [ms ->]. Qed.

Lemma findMatchesEffect_ignores_index (i : JsNum) (s : AppState) :
  findMatchesEffect (setActiveMatchIndex i s) = findMatchesEffect s.
Proof.
  unfold App.findMatchesEffect. cbn [findQuery isFindVisible findOptions panels
    setActiveMatchIndex].
  destruct (falsy (findQuery s) || negb (isFindVisible s)); [done|].
  cbn zeta. by destruct (newRegExp _ _).
Qed.

Lemma recompute_activeIndexOk (s : AppState) : activeIndexOk (recompute s).
Proof.
  destruct (recompute_spec s) as [ms ->]. unfold activeIndexOk.
  cbn [matches activeMatchIndex setActiveMatchIndex setMatches].
  destruct ms as [|m ms]; [done|]. exists 0%Z. cbn [resetIndex length]. split; [done|lia].
Qed.

(** C10: every run of the Find Matches effect completes and leaves the
    active index at 0 when the match list it computed is non-empty and at -1
    when it is empty, whatever the index was before; and every event whose
    handler sets the query, the options, the panels or the visibility of the
    widget either leaves the state untouched or ends with such a run. *)
Theorem recompute_resets_active_index (s : AppState) :
  (∃ s', findMatchesEffect s = Normal s'
     ∧ (matches s' = [] → activeMatchIndex s' = Num (-1))
     ∧ (matches s' ≠ [] → activeMatchIndex s' = Num 0)
     ∧ ∀ i, findMatchesEffect (setActiveMatchIndex i s) = Normal s')
  ∧ (∀ e, setsFindInput e = true →
       dispatch e s = s
       ∨ ((matches (dispatch e s) = [] → activeMatchIndex (dispatch e s) = Num (-1))
          ∧ (matches (dispatch e s) ≠ [] → activeMatchIndex (dispatch e s) = Num 0))).
Proof.
  assert (Hre : ∀ t, (matches (recompute t) = [] → activeMatchIndex (recompute t) = Num (-1))
                   ∧ (matches (recompute t) ≠ [] → activeMatchIndex (recompute t) = Num 0)).
  { intros t. rewrite recompute_activeMatchIndex.
    destruct (matches (recompute t)); by split. }
  split.
  - destruct (findMatchesEffect_normal s) as [ms Hms].
    eexists. split; [exact Hms|].
    cbn [matches activeMatchIndex setActiveMatchIndex setMatches].
    repeat split.
    + by intros ->.
    + by destruct ms.
    + intros i. by rewrite findMatchesEffect_ignores_index.
  - intros e He. destruct e; try discriminate He; unfold App.dispatch.
    all: try (right; apply Hre).
    all: try (destruct (isFindVisible s); [|by left]; unfold App.dispatchWidget).
    all: try (right; apply Hre).
    + case_bool_decide; [by left | right; apply Hre].
    + destruct (handleReplace s) as [[s'|]|]; [right; apply Hre | by left..].
    + destruct (handleReplaceAll escapeRegExp s) as [[s'|]|]; [right; apply Hre | by left..].
    + destruct (addPanel uuid s); [right; apply Hre | by left].
    + destruct (removePanel s); [right; apply Hre | by left].
Qed.

(** C5: when [useRegex] is set and the query does not compile, the effect
    completes normally with the empty match list and no active match, which
    is exactly the outcome for a pattern that compiles and matches nowhere. *)
Theorem invalid_regex_gives_empty_matches (s : AppState) :
  useRegex (findOptions s) = true →
  newRegExp (findQuery s) (if caseSensitive (findOptions s) then "g" else "gi") = None →
  findMatchesEffect s = Normal (setActiveMatchIndex (Num (-1)) (setMatches [] s))
  ∧ ∀ (t : AppState) (regex : RegExp),
      falsy (findQuery t) = false → isFindVisible t = true →
      newRegExp (if useRegex (findOptions t) then findQuery t
                 else escapeRegExp (findQuery t))
        (if caseSensitive (findOptions t) then "g" else "gi") = Some regex →
      scanPanels regex (panels t) [] = [] →
      findMatchesEffect t = Normal (setActiveMatchIndex (Num (-1)) (setMatches [] t)).
Proof.
  intros Hre Hbad. split.
  - unfold App.findMatchesEffect.
    destruct (falsy (findQuery s) || negb (isFindVisible s)); [done|].
    cbn zeta. by rewrite Hre, Hbad.
  - intros t regex Hq Hv Hok Hnone. unfold App.findMatchesEffect.
    rewrite Hq, Hv. cbn [orb negb]. cbn zeta. rewrite Hok, Hnone. done.
Qed.

(** *** Replace all *)

Lemma mapSpread_lookup (upd : PanelData → option PanelData) (ps : list PanelData)
    (n k : nat) (p : PanelData) :
  ps !! k = Some p →
  match upd p with
  | None => (mapSpread upd n ps).2 !! k = Some p
  | Some q =>
      ∃ r, n ≤ r ∧ (mapSpread upd n ps).2 !! k
                   = Some (mkPanel r (id q) (text q) (title q))
  end.
Proof.
  revert n k. induction ps as [|p0 ps IH]; intros n k Hk; [done|].
  cbn [mapSpread]. destruct k as [|k].
  - injection Hk as ->. destruct (upd p) as [q|] eqn:Hu.
    + destruct (mapSpread upd (S n) ps) as [n' r]. exists n. by split.
    + by destruct (mapSpread upd n ps) as [n' r].
  - cbn in Hk. destruct (upd p0) as [q0|].
    + specialize (IH (S n) k Hk). destruct (mapSpread upd (S n) ps) as [n' r].
      destruct (upd p) as [q|]; [|done].
      destruct IH as (r0 & Hr0 & IH). exists r0. split; [lia|done].
    + specialize (IH n k Hk). by destruct (mapSpread upd n ps) as [n' r].
Qed.

Lemma mapSpread_length (upd : PanelData → option PanelData) (ps : list PanelData)
    (n : nat) :
  length (mapSpread upd n ps).2 = length ps.
Proof.
  revert n. induction ps as [|p ps IH]; intros n; [done|].
  cbn [mapSpread]. destruct (upd p).
  - specialize (IH (S n)). destruct (mapSpread upd (S n) ps). cbn in *. by rewrite IH.
  - specialize (IH n). destruct (mapSpread upd n ps). cbn in *. by rewrite IH.
Qed.

(** The pattern both the effect and [handleReplaceAll] compile. *)
Local Abbreviation patternOf s :=
  (newRegExp (if useRegex (findOptions s) then findQuery s
              else escapeRegExp (findQuery s))
     (if caseSensitive (findOptions s) then "g" else "gi")).

Lemma collectUpdates_compiles (s : AppState) (ps : list PanelData)
    (acc u : gmap string string) (p : PanelData) :
  collectUpdates escapeRegExp s ps acc = Some u → p ∈ ps →
  ∃ regex, patternOf s = Some regex.
Proof.
  intros Hu Hp. destruct ps as [|p0 ps]; [by apply elem_of_nil in Hp|].
  cbn [collectUpdates] in Hu. cbn zeta in Hu.
  destruct (patternOf s) as [regex|]; [by exists regex | done].
Qed.

Lemma collectUpdates_lookup (s : AppState) (regex : RegExp) (ps : list PanelData)
    (acc : gmap string string) :
  patternOf s = Some regex → NoDup (id <$> ps) →
  ∃ u, collectUpdates escapeRegExp s ps acc = Some u
    ∧ (∀ p, p ∈ ps →
         u !! id p
         = if bool_decide (replace (text p) regex (replaceQuery s) ≠ text p)
           then Some (replace (text p) regex (replaceQuery s))
           else acc !! id p)
    ∧ (∀ k, k ∉ id <$> ps → u !! k = acc !! k).
Proof.
  intros Hre. revert acc. induction ps as [|p0 ps IH]; intros acc Hnd.
  { exists acc. split; [done|]. split; [|done]. intros p Hp. by apply elem_of_nil in Hp. }
  cbn [fmap list_fmap] in Hnd. apply NoDup_cons in Hnd as [Hp0 Hnd].
  cbn [collectUpdates]. cbn zeta. rewrite Hre.
  set (acc' := if bool_decide (replace (text p0) regex (replaceQuery s) ≠ text p0)
               then <[id p0 := replace (text p0) regex (replaceQuery s)]> acc
               else acc).
  destruct (IH acc' Hnd) as (u & Hu & Hin & Hout).
  exists u. split; [done|].
  assert (Hacc' : ∀ k, k ≠ id p0 → acc' !! k = acc !! k).
  { intros k Hk. unfold acc'. case_bool_decide; [|done]. by rewrite lookup_insert_ne. }
  split.
  - intros p Hp. apply elem_of_cons in Hp as [->|Hp].
    + rewrite (Hout _ Hp0). unfold acc'. case_bool_decide; [|done].
      by rewrite lookup_insert_eq.
    + rewrite (Hin p Hp). case_bool_decide; [done|].
      apply Hacc'. intros Heq. apply Hp0. rewrite <- Heq.
      by apply list_elem_of_fmap_2.
  - intros k Hk. cbn [fmap list_fmap] in Hk. apply not_elem_of_cons in Hk as [Hk1 Hk2].
    rewrite (Hout k Hk2). by apply Hacc'.
Qed.

(** What [handleReplaceAll] does to each panel once it gets past its guard. *)
Lemma handleReplaceAll_panel (s : AppState) (regex : RegExp) :
  NoDup (id <$> panels s) → patternOf s = Some regex →
  falsy (findQuery s) || (length (matches s) =? 0) = false →
  ∃ s', handleReplaceAll escapeRegExp s = Normal (Some s')
    ∧ length (panels s') = length (panels s)
    ∧ ∀ k p, panels s !! k = Some p →
        let newText := replace (text p) regex (replaceQuery s) in
        (newText = text p → panels s' !! k = Some p)
        ∧ (newText ≠ text p →
           ∃ r, nextRef s ≤ r
                ∧ panels s' !! k = Some (mkPanel r (id p) newText (title p))).
Proof.
  intros Hnd Hre Hguard. unfold handleReplaceAll. rewrite Hguard.
  destruct (collectUpdates_lookup s regex (panels s) ∅ Hre Hnd) as (u & -> & Hin & _).
  set (upd := fun p : PanelData =>
                match u !! id p with
                | Some newText => Some (mkPanel (ref p) (id p) newText (title p))
                | None => None
                end).
  pose proof (mapSpread_length upd (panels s) (nextRef s)) as Hlen.
  pose proof (mapSpread_lookup upd (panels s) (nextRef s)) as Hlk.
  destruct (mapSpread upd (nextRef s) (panels s)) as [n ps]. cbn [snd] in *.
  eexists. split; [done|]. cbn [panels setPanels setNextRef]. split; [done|].
  intros k p Hk. specialize (Hlk k p Hk). unfold upd in Hlk.
  rewrite (Hin p) in Hlk by (by eapply list_elem_of_lookup_2).
  cbn zeta. split; intros Hnew.
  - rewrite bool_decide_false in Hlk by (by intros ?). by rewrite lookup_empty in Hlk.
  - by rewrite bool_decide_true in Hlk.
Qed.

Lemma handleReplaceAll_guard (s s' : AppState) :
  handleReplaceAll escapeRegExp s = Normal (Some s') →
  falsy (findQuery s) || (length (matches s) =? 0) = false
  ∧ length (panels s') = length (panels s)
  ∧ ∀ p, p ∈ panels s → ∃ regex, patternOf s = Some regex.
Proof.
  unfold handleReplaceAll.
  destruct (falsy (findQuery s) || (length (matches s) =? 0)); [done|].
  destruct (collectUpdates escapeRegExp s (panels s) ∅) as [u|] eqn:Hu; [|done].
  intros Hs'. split; [done|]. split.
  - pose proof (mapSpread_length
      (fun p : PanelData =>
         match u !! id p with
         | Some newText => Some (mkPanel (ref p) (id p) newText (title p))
         | None => None
         end) (panels s) (nextRef s)) as Hlen.
    destruct (mapSpread _ (nextRef s) (panels s)) as [n ps].
    injection Hs' as <-. done.
  - intros p Hp. by eapply collectUpdates_compiles.
Qed.

(** C6: when [handleReplaceAll] updates the collection, a document whose
    text the substitution leaves unchanged is, in the new collection, the very
    same object at the same position; a document whose text changes is
    replaced by a new object (a fresh identity) with the new text and the old
    identifier and title.  When the handler does not update the collection,
    the event changes nothing at all. *)
Theorem replaceAll_preserves_identity (s : AppState) :
  NoDup (id <$> panels s) →
  (∀ s', handleReplaceAll escapeRegExp s = Normal (Some s') →
     length (panels s') = length (panels s)
     ∧ ∀ k p, panels s !! k = Some p →
         ∃ regex, patternOf s = Some regex
           ∧ (replace (text p) regex (replaceQuery s) = text p →
              panels s' !! k = Some p)
           ∧ (replace (text p) regex (replaceQuery s) ≠ text p →
              ∃ r, nextRef s ≤ r
                ∧ panels s' !! k
                  = Some (mkPanel r (id p)
                            (replace (text p) regex (replaceQuery s)) (title p))))
  ∧ ((∀ s', handleReplaceAll escapeRegExp s ≠ Normal (Some s')) →
     isFindVisible s = true → dispatch ReplaceAll s = s).
Proof.
  intros Hnd. split.
  - intros s' Hs'. destruct (handleReplaceAll_guard s s' Hs') as (Hg & Hlen & Hre).
    split; [done|]. intros k p Hk.
    destruct (Hre p) as [regex Hregex]; [by eapply list_elem_of_lookup_2|].
    exists regex. split; [done|].
    destruct (handleReplaceAll_panel s regex Hnd Hregex Hg) as (s'' & Hs'' & _ & Hall).
    rewrite Hs'' in Hs'. injection Hs' as <-. apply (Hall k p Hk).
  - intros Hno Hv. unfold App.dispatch. rewrite Hv. unfold App.dispatchWidget.
    destruct (handleReplaceAll escapeRegExp s) as [[s'|]|]; [|done..].
    by destruct (Hno s').
Qed.

Lemma pushMatches_app (panel : PanelData) (ms : list RegExpMatch) (acc : list Match) :
  pushMatches panel ms acc = acc ++ pushMatches panel ms [].
Proof.
  revert acc. induction ms as [|m ms IH]; intros acc; cbn [pushMatches].
  - by rewrite app_nil_r.
  - destruct (index m); [|done]. rewrite IH, (IH ([] ++ _)). by rewrite app_assoc.
Qed.

Lemma scanPanels_nil (regex : RegExp) (ps : list PanelData) (acc : list Match) :
  scanPanels regex ps acc = [] →
  acc = [] ∧ ∀ p, p ∈ ps → pushMatches p (matchAll (text p) regex) [] = [].
Proof.
  revert acc. induction ps as [|p0 ps IH]; intros acc; cbn [scanPanels].
  - intros ->. split; [done|]. intros p Hp. by apply elem_of_nil in Hp.
  - intros Hnil. destruct (IH _ Hnil) as [Hacc Hps].
    rewrite pushMatches_app in Hacc. apply app_eq_nil in Hacc as [-> Hp0].
    split; [done|]. intros p Hp. apply elem_of_cons in Hp as [->|Hp]; auto.
Qed.

(** **** The expansion of the replacement string *)

Lemma string_app_cons (c : ascii) (a b : string) : String c a +:+ b = String c (a +:+ b).
Proof. reflexivity. Qed.

Lemma string_app_length (a b : string) :
  String.length (a +:+ b) = String.length a + String.length b.
Proof.
  induction a as [|c a IH]; [done|].
  rewrite string_app_cons. cbn [String.length]. by rewrite IH.
Qed.

Lemma substringFrom_zero (str : string) : substringFrom 0 str = str.
Proof.
  unfold substringFrom. rewrite Nat.sub_0_r.
  induction str as [|c str IH]; [done|]. cbn [String.length String.substring].
  by rewrite IH.
Qed.

(** Without a match the text is returned as it is. *)
Lemma regExpReplace_nil (str replaceValue : string) : regExpReplace str [] replaceValue = str.
Proof.
  unfold regExpReplace. cbn [replaceLoop].
  destruct (Nat.leb_spec (String.length str) 0) as [Hle|Hgt].
  - by destruct str; [|cbn in Hle; lia].
  - change ("" +:+ ?a) with a. apply substringFrom_zero.
Qed.

(** A template without a dollar sign expands to itself. *)
Lemma getSubstitutionFrom_plain (matched str : string) (position : nat)
    (captures : list (option string))
    (namedCaptures : option (list (string * option string)))
    (template : list ascii) :
  ("$"%char ∉ template) →
  getSubstitutionFrom matched str position captures namedCaptures template 0
  = string_of_list_ascii template.
Proof.
  induction template as [|c template IH]; intros Hno; [done|].
  cbn [getSubstitutionFrom reference string_of_list_ascii].
  destruct (Ascii.eqb_spec c "$") as [->|_].
  { exfalso. apply Hno, list_elem_of_here. }
  cbn [negb Nat.sub]. rewrite IH; [done|].
  intros Hin. apply Hno. by apply list_elem_of_further.
Qed.

Lemma replaceLoop_ext (str : string) (f g : RegExpMatch → nat → string)
    (results : list RegExpMatch) (acc : string) (nsp : nat) :
  (∀ r position, f r position = g r position) →
  replaceLoop str f results acc nsp = replaceLoop str g results acc nsp.
Proof.
  intros Hfg. revert acc nsp.
  induction results as [|r results IH]; intros acc nsp; [done|].
  cbn [replaceLoop]. rewrite Hfg. destruct (nsp <=? _); apply IH.
Qed.

Lemma regExpReplace_plain (str : string) (results : list RegExpMatch) (replaceValue : string) :
  ("$"%char ∉ list_ascii_of_string replaceValue) →
  regExpReplace str results replaceValue = substituteVerbatim str results replaceValue.
Proof.
  intros Hno. apply replaceLoop_ext. intros r position. unfold getSubstitution.
  by rewrite getSubstitutionFrom_plain, string_of_list_ascii_of_string.
Qed.

(** The template of two dollar signs expands to one. *)
Lemma regExpReplace_dollar (str : string) (results : list RegExpMatch) :
  regExpReplace str results "$$" = substituteVerbatim str results "$".
Proof. reflexivity. Qed.

(** A longer replacement gives a longer text, once one match is replaced. *)
Lemma replaceLoop_longer (str a b : string) (results : list RegExpMatch)
    (acca accb : string) (nsp : nat) :
  String.length a ≤ String.length b →
  String.length acca < String.length accb →
  String.length (replaceLoop str (fun _ _ => a) results acca nsp)
  < String.length (replaceLoop str (fun _ _ => b) results accb nsp).
Proof.
  intros Hab. revert acca accb nsp.
  induction results as [|r results IH]; intros acca accb nsp Hacc; cbn [replaceLoop].
  - destruct (String.length str <=? nsp); [done|].
    rewrite !string_app_length. lia.
  - destruct (nsp <=? _); [|by apply IH].
    apply IH. rewrite !string_app_length. lia.
Qed.

Lemma substituteVerbatim_longer (str a b : string) (results : list RegExpMatch) :
  String.length a < String.length b → results ≠ [] →
  substituteVerbatim str results a ≠ substituteVerbatim str results b.
Proof.
  intros Hab Hne Heq. destruct results as [|r results]; [done|].
  unfold substituteVerbatim in Heq. cbn [replaceLoop] in Heq.
  cbn [Nat.leb] in Heq.
  pose proof (replaceLoop_longer str a b results
                ("" +:+ String.substring 0
                          (Nat.min (default 0 (index r)) (String.length str) - 0) str
                 +:+ a)
                ("" +:+ String.substring 0
                          (Nat.min (default 0 (index r)) (String.length str) - 0) str
                 +:+ b)
                (Nat.min (default 0 (index r)) (String.length str)
                 + String.length (matched r))) as Hlt.
  rewrite Heq in Hlt. rewrite !string_app_length in Hlt. lia.
Qed.

(** Where every match result carries its index, a text without an entry in
    the match list has no match. *)
Lemma pushMatches_nil (panel : PanelData) (ms : list RegExpMatch) :
  (∀ m, m ∈ ms → is_Some (index m)) → pushMatches panel ms [] = [] → ms = [].
Proof.
  intros Hidx Hnil. destruct ms as [|m ms]; [done|]. exfalso.
  cbn [pushMatches] in Hnil.
  destruct (Hidx m (list_elem_of_here _ _)) as [i Hi]. rewrite Hi in Hnil.
  rewrite pushMatches_app in Hnil. by apply app_eq_nil in Hnil as [? _].
Qed.

(** In a state whose query is not empty, whose pattern compiles, and whose
    match list is the one the Find Matches effect computes,
    [handleReplaceAll] leaves every document with the text [replace] gives
    for its own text, the pattern and the replacement string, with its
    identifier and title unchanged; the pattern is the one the effect scans
    with. *)
Lemma handleReplaceAll_texts (s : AppState) (regex : RegExp) :
  NoDup (id <$> panels s) →
  falsy (findQuery s) = false →
  newRegExp (if useRegex (findOptions s) then findQuery s
             else escapeRegExp (findQuery s))
    (if caseSensitive (findOptions s) then "g" else "gi") = Some regex →
  matches s = scanPanels regex (panels s) [] →
  (∀ p m, p ∈ panels s → m ∈ matchAll (text p) regex → is_Some (index m)) →
  findMatchesEffect (setIsFindVisible true s)
  = Normal (setActiveMatchIndex (resetIndex (scanPanels regex (panels s) []))
              (setMatches (scanPanels regex (panels s) []) (setIsFindVisible true s)))
  ∧ length (panelsAfter (handleReplaceAll escapeRegExp s) s) = length (panels s)
  ∧ ∀ k p, panels s !! k = Some p →
      ∃ p', panelsAfter (handleReplaceAll escapeRegExp s) s !! k = Some p'
        ∧ text p' = replace (text p) regex (replaceQuery s)
        ∧ id p' = id p ∧ title p' = title p.
Proof.
  intros Hnd Hq Hre Hms Hidx. split.
  { unfold App.findMatchesEffect.
    cbn [findQuery isFindVisible findOptions panels setIsFindVisible].
    rewrite Hq. cbn [orb negb]. cbn zeta. rewrite Hre. cbn [tryCatch].
    by rewrite resetIndex_length. }
  destruct (length (matches s) =? 0) eqn:Hlen.
  - (* no match anywhere: the guard returns, and nothing was to be replaced *)
    apply Nat.eqb_eq, length_zero_iff_nil in Hlen.
    assert (Hnone : handleReplaceAll escapeRegExp s = Normal None).
    { unfold handleReplaceAll. rewrite Hlen, Hq. done. }
    rewrite Hnone. cbn [panelsAfter]. split; [done|].
    intros k p Hk. exists p. split; [done|]. split; [|done].
    symmetry. rewrite Hlen in Hms. symmetry in Hms.
    apply scanPanels_nil in Hms as [_ Hms].
    assert (Hp : p ∈ panels s) by by eapply list_elem_of_lookup_2.
    unfold replace. rewrite (pushMatches_nil p (matchAll (text p) regex)).
    + apply regExpReplace_nil.
    + intros m. by apply Hidx.
    + by apply Hms.
  - destruct (handleReplaceAll_panel s regex Hnd Hre) as (s' & -> & Hl & Hall).
    { by rewrite Hq, Hlen. }
    cbn [panelsAfter]. split; [done|]. intros k p Hk.
    destruct (Hall k p Hk) as [Hsame Hnew].
    destruct (decide (replace (text p) regex (replaceQuery s) = text p)) as [Heq|Hne].
    + exists p. by rewrite (Hsame Heq).
    + destruct (Hnew Hne) as (r & _ & ->). by eexists.
Qed.

(** C7: in a state whose query is not empty, whose pattern compiles, whose
    match list is the one the Find Matches effect computes, and whose match
    results carry their index, [handleReplaceAll] builds the pattern the
    effect scans with (the query as it is when [useRegex] is set and escaped
    otherwise, with the flags "g" when [caseSensitive] is set and "gi"
    otherwise) and leaves every document with its identifier and title;
    but the text it leaves is the one [String.prototype.replace] gives,
    in which each match is replaced by the expansion of the replacement
    string as a template, not by the replacement string.  The two agree
    when the replacement string has no dollar sign; for the replacement
    string of two dollar signs every match is replaced by one dollar sign,
    so the text of every document with a match differs from the one the
    substitution of the replacement string itself gives. *)
Theorem replaceAll_expands_replacement_patterns (s : AppState) (regex : RegExp) :
  NoDup (id <$> panels s) →
  falsy (findQuery s) = false →
  newRegExp (if useRegex (findOptions s) then findQuery s
             else escapeRegExp (findQuery s))
    (if caseSensitive (findOptions s) then "g" else "gi") = Some regex →
  matches s = scanPanels regex (panels s) [] →
  (∀ p m, p ∈ panels s → m ∈ matchAll (text p) regex → is_Some (index m)) →
  findMatchesEffect (setIsFindVisible true s)
  = Normal (setActiveMatchIndex (resetIndex (scanPanels regex (panels s) []))
              (setMatches (scanPanels regex (panels s) []) (setIsFindVisible true s)))
  ∧ length (panelsAfter (handleReplaceAll escapeRegExp s) s) = length (panels s)
  ∧ ∀ k p, panels s !! k = Some p →
      ∃ p', panelsAfter (handleReplaceAll escapeRegExp s) s !! k = Some p'
        ∧ id p' = id p ∧ title p' = title p
        ∧ text p' = regExpReplace (text p) (matchAll (text p) regex) (replaceQuery s)
        ∧ (("$"%char ∉ list_ascii_of_string (replaceQuery s)) →
           text p'
           = substituteVerbatim (text p) (matchAll (text p) regex) (replaceQuery s))
        ∧ (replaceQuery s = "$$" → matchAll (text p) regex ≠ [] →
           text p' = substituteVerbatim (text p) (matchAll (text p) regex) "$"
           ∧ text p'
             ≠ substituteVerbatim (text p) (matchAll (text p) regex) (replaceQuery s)).
Proof.
  intros Hnd Hq Hre Hms Hidx.
  destruct (handleReplaceAll_texts s regex Hnd Hq Hre Hms Hidx) as (Heff & Hlen & Hall).
  split; [done|]. split; [done|]. intros k p Hk.
  destruct (Hall k p Hk) as (p' & Hp' & Htext & Hid & Htitle).
  exists p'. unfold replace in Htext.
  split; [done|]. split; [done|]. split; [done|]. split; [done|]. split.
  - intros Hno. rewrite Htext. by apply regExpReplace_plain.
  - intros Hrq Hsome. rewrite Htext, Hrq, regExpReplace_dollar. split; [done|].
    apply substituteVerbatim_longer; [cbn; lia | done].
Qed.

(** *** Scroll synchronisation *)

Lemma syncRefs_mounted (ps : list PanelData) (spi : nat) (sTop sLeft : Z)
    (refs : list (option Viewport)) (index : nat) (acc : list string) :
  (∀ i v, refs !! i = Some (Some v) → index + i < length ps) →
  ∃ refs' ids,
    syncRefs ps spi sTop sLeft refs index acc = (refs', Some ids)
    ∧ ∀ i v, refs' !! i = Some (Some v) → ∃ v0, refs !! i = Some (Some v0).
Proof.
  revert index acc. induction refs as [|r refs IH]; intros index acc Hm.
  { exists [], acc. by split. }
  assert (Hm' : ∀ i v, refs !! i = Some (Some v) → S index + i < length ps).
  { intros i v Hi. specialize (Hm (S i) v Hi). lia. }
  cbn [syncRefs]. destruct r as [v0|].
  - destruct (negb (index =? spi)).
    + destruct (ps !! index) as [p|] eqn:Hp.
      * destruct (IH (S index) (acc ++ [id p]) Hm') as (refs' & ids & -> & Hshape).
        eexists _, ids. split; [done|]. intros [|i] v Hi; [by exists v0|].
        by apply (Hshape i v).
      * apply lookup_ge_None in Hp. specialize (Hm 0 v0 eq_refl). lia.
    + destruct (IH (S index) acc Hm') as (refs' & ids & -> & Hshape).
      eexists _, ids. split; [done|]. intros [|i] v Hi; [by exists v0|].
      by apply (Hshape i v).
  - destruct (IH (S index) acc Hm') as (refs' & ids & -> & Hshape).
    eexists _, ids. split; [done|]. intros [|i] v Hi; [done|].
    by apply (Hshape i v).
Qed.

(** A scroll event that finds the guard clear sets it and queues its
    release; the panels stay, and no viewport appears that was not there. *)
Lemma handleScroll_clear (id' : string) (sTop sLeft : Z) (s : AppState) :
  isSyncingScroll s = false → refsMounted s →
  ∃ s', handleScroll id' sTop sLeft s = Normal s'
    ∧ isSyncingScroll s' = true
    ∧ rafQueue s' = rafQueue s ++ [ReleaseScrollGuard]
    ∧ panels s' = panels s
    ∧ ∀ i v, panelScrollRefs s' !! i = Some (Some v) →
        ∃ v0, panelScrollRefs s !! i = Some (Some v0).
Proof.
  intros Hg Hm. unfold handleScroll. rewrite Hg. cbn zeta.
  cbn [panels panelScrollRefs setIsSyncingScroll].
  destruct (findIndex _ _) as [spi|].
  - destruct (syncRefs_mounted (panels s) spi sTop sLeft (panelScrollRefs s) 0 [])
      as (refs' & ids & -> & Hshape); [exact Hm|].
    cbn [syncIndicatorTimer setSyncingPanelIds setPanelScrollRefs setIsSyncingScroll].
    destruct (truthyHandle (syncIndicatorTimer s)); eexists; (split; [done|]);
      by repeat split.
  - eexists. split; [done|]. repeat split. intros i v Hi. by exists v.
Qed.

Lemma foldl_runRaf (q : list RafCallback) (s : AppState) :
  foldl (fun s cb => runRaf cb s) s q
  = match q with [] => s | _ :: _ => setIsSyncingScroll false s end.
Proof.
  revert s. induction q as [|[] q IH]; intros s; [done|].
  cbn [foldl]. rewrite IH. by destruct q.
Qed.

Lemma animationFrame_spec (s : AppState) :
  animationFrame s
  = match rafQueue s with
    | [] => setRafQueue [] s
    | _ :: _ => setIsSyncingScroll false (setRafQueue [] s)
    end.
Proof. unfold animationFrame. by rewrite foldl_runRaf. Qed.

Lemma jsArraySet_mounted {A : Type} (i : nat) (v : option A) (arr : list (option A))
    (j : nat) (w : A) :
  jsArraySet None i v arr !! j = Some (Some w) →
  (j = i ∧ v = Some w) ∨ (j ≠ i ∧ arr !! j = Some (Some w)).
Proof.
  unfold jsArraySet. destruct (Nat.ltb_spec i (length arr)) as [Hlt|Hge].
  - destruct (decide (j = i)) as [->|Hne].
    + rewrite list_lookup_insert_eq by done. intros [= ->]. by left.
    + rewrite list_lookup_insert_ne by done. intros Hj. by right.
  - intros Hj. destruct (decide (j < length arr)) as [Hlt|Hnlt].
    + rewrite lookup_app_l in Hj by done. right. split; [lia|done].
    + rewrite lookup_app_r in Hj by lia.
      destruct (decide (j - length arr < i - length arr)) as [Hh|Hh].
      * rewrite lookup_app_l in Hj by (by rewrite length_replicate).
        apply lookup_replicate in Hj as [? _]. done.
      * rewrite lookup_app_r in Hj by (rewrite length_replicate; lia).
        rewrite length_replicate in Hj.
        destruct (j - length arr - (i - length arr)) as [|d] eqn:Hd; [|done].
        injection Hj as ->. left. split; [lia|done].
Qed.

(** *** The panels along the events *)

Lemma recompute_sameScroll (s : AppState) : sameScroll s (recompute s).
Proof. destruct (recompute_spec s) as [ms ->]. by repeat split. Qed.

Lemma updatePanelText_panels (id' newText : string) (s : AppState) :
  ∃ upd, (∀ p q, upd p = Some q → id q = id p)
    ∧ panels (updatePanelText id' newText s) = (mapSpread upd (nextRef s) (panels s)).2
    ∧ sameScroll s (updatePanelText id' newText s).
Proof.
  unfold updatePanelText.
  set (upd := fun p : PanelData =>
                if decide (id p = id') then Some (mkPanel (ref p) (id p) newText (title p))
                else None).
  exists upd. split.
  { intros p q. unfold upd. case_decide; [|done]. by intros [= <-]. }
  pose proof (mapSpread_length upd (panels s) (nextRef s)) as Hlen.
  destruct (mapSpread upd (nextRef s) (panels s)) as [n ps]. by repeat split.
Qed.

Lemma updatePanelTitle_panels (id' newTitle : string) (s : AppState) :
  ∃ upd, (∀ p q, upd p = Some q → id q = id p)
    ∧ panels (updatePanelTitle id' newTitle s) = (mapSpread upd (nextRef s) (panels s)).2
    ∧ sameScroll s (updatePanelTitle id' newTitle s).
Proof.
  unfold updatePanelTitle.
  set (upd := fun p : PanelData =>
                if decide (id p = id') then Some (mkPanel (ref p) (id p) (text p) newTitle)
                else None).
  exists upd. split.
  { intros p q. unfold upd. case_decide; [|done]. by intros [= <-]. }
  pose proof (mapSpread_length upd (panels s) (nextRef s)) as Hlen.
  destruct (mapSpread upd (nextRef s) (panels s)) as [n ps]. by repeat split.
Qed.

Lemma handleReplace_panels (s s' : AppState) :
  handleReplace s = Normal (Some s') →
  ∃ upd, (∀ p q, upd p = Some q → id q = id p)
    ∧ panels s' = (mapSpread upd (nextRef s) (panels s)).2
    ∧ sameScroll s s'.
Proof.
  unfold handleReplace.
  destruct (jsStrictEq _ _ || _); [done|].
  destruct (jsIndex _ _) as [m|]; [|by destruct (panels s)].
  destruct (find _ _) as [panel|]; [|done].
  intros [= <-]. apply updatePanelText_panels.
Qed.

Lemma handleReplaceAll_panels (s s' : AppState) :
  handleReplaceAll escapeRegExp s = Normal (Some s') →
  ∃ upd, (∀ p q, upd p = Some q → id q = id p)
    ∧ panels s' = (mapSpread upd (nextRef s) (panels s)).2
    ∧ sameScroll s s'.
Proof.
  unfold handleReplaceAll.
  destruct (falsy _ || _); [done|].
  destruct (collectUpdates _ _ _ _) as [u|]; [|done].
  set (upd := fun p : PanelData =>
                match u !! id p with
                | Some newText => Some (mkPanel (ref p) (id p) newText (title p))
                | None => None
                end).
  pose proof (mapSpread_length upd (panels s) (nextRef s)) as Hlen.
  destruct (mapSpread upd (nextRef s) (panels s)) as [n ps] eqn:Hmap.
  intros [= <-]. exists upd. split.
  { intros p q. unfold upd. destruct (u !! id p); [|done]. by intros [= <-]. }
  rewrite Hmap. by repeat split.
Qed.

Lemma sameScroll_panelsStep (s s' : AppState) (upd : PanelData → option PanelData) :
  (∀ p q, upd p = Some q → id q = id p) →
  panels s' = (mapSpread upd (nextRef s) (panels s)).2 →
  panelsStep (panels s) (panels (recompute s')).
Proof.
  intros Hupd Hp. rewrite recompute_panels, Hp. by apply panels_update.
Qed.

Lemma handleScroll_panels (id' : string) (sTop sLeft : Z) (s : AppState) :
  panels (afterCompletion (handleScroll id' sTop sLeft s)) = panels s.
Proof.
  unfold handleScroll. destruct (isSyncingScroll s); [done|].
  cbn zeta. destruct (findIndex _ _); [|done].
  destruct (syncRefs _ _ _ _ _ _ _) as [refs [ids|]]; [|done].
  cbn [syncIndicatorTimer setSyncingPanelIds setPanelScrollRefs setIsSyncingScroll].
  by destruct (truthyHandle (syncIndicatorTimer s)).
Qed.

Lemma dispatch_panelsStep (e : Event) (s : AppState) :
  panelsStep (panels s) (panels (dispatch e s)).
Proof.
  destruct e; unfold App.dispatch.
  all: try (rewrite recompute_panels; apply panels_same).
  all: try (destruct (isFindVisible s); [|apply panels_same]; unfold App.dispatchWidget).
  all: try (rewrite recompute_panels; apply panels_same).
  all: try apply panels_same.
  - case_bool_decide; [apply panels_same | rewrite recompute_panels; apply panels_same].
  - destruct (handleReplace s) as [[s'|]|] eqn:Hr; try apply panels_same.
    destruct (handleReplace_panels s s' Hr) as (upd & Hupd & Hp & _).
    by eapply sameScroll_panelsStep.
  - destruct (handleReplaceAll escapeRegExp s) as [[s'|]|] eqn:Hr; try apply panels_same.
    destruct (handleReplaceAll_panels s s' Hr) as (upd & Hupd & Hp & _).
    by eapply sameScroll_panelsStep.
  - unfold addPanel. destruct (Nat.ltb_spec (length (panels s)) 4); [|apply panels_same].
    rewrite recompute_panels. by apply panels_add.
  - unfold removePanel. destruct (Nat.ltb_spec 2 (length (panels s))); [|apply panels_same].
    rewrite recompute_panels. by apply panels_remove.
  - destruct (updatePanelText_panels id' newText s) as (upd & Hupd & Hp & _).
    by eapply sameScroll_panelsStep.
  - destruct (updatePanelTitle_panels id' newTitle s) as (upd & Hupd & Hp & _).
    by eapply sameScroll_panelsStep.
  - rewrite handleScroll_panels. apply panels_same.
  - rewrite animationFrame_spec. destruct (rafQueue s); apply panels_same.
  - unfold timerFired. case_bool_decide; apply panels_same.
Qed.

Lemma panelsStep_length (ps ps' : list PanelData) :
  panelsStep ps ps' → 2 ≤ length ps ≤ 4 → 2 ≤ length ps' ≤ 4.
Proof.
  intros [|np Hlt|Hgt|upd n Hupd] Hlen; [done| | |].
  - rewrite length_app. cbn. lia.
  - rewrite length_take. lia.
  - by rewrite mapSpread_length.
Qed.

Lemma panelsStep_base (ps ps' : list PanelData) :
  panelsStep ps ps' → 2 ≤ length ps →
  ∃ b b', ps !! 0 = Some b ∧ ps' !! 0 = Some b' ∧ id b' = id b.
Proof.
  intros Hstep Hlen. destruct ps as [|b ps]; [cbn in Hlen; lia|].
  exists b. destruct Hstep as [|np Hlt|Hgt|upd n Hupd].
  - by exists b.
  - by exists b.
  - exists b. cbn [length] in *. destruct (length ps) as [|m]; [lia|]. done.
  - pose proof (mapSpread_lookup upd (b :: ps) n 0 b eq_refl) as Hlk.
    destruct (upd b) as [q|] eqn:Hq.
    + destruct Hlk as (r & _ & Hlk). eexists. split; [done|]. split; [done|].
      cbn [id]. by apply Hupd.
    + by exists b.
Qed.

Lemma reachable_panels_length (uuid0 uuid1 : string) (s : AppState) :
  reachable escapeRegExp uuid0 uuid1 s → 2 ≤ length (panels s) ≤ 4.
Proof.
  induction 1 as [|e s Hs IH]; [cbn; lia|].
  eapply panelsStep_length; [apply dispatch_panelsStep | done].
Qed.

(** C9: the collection starts with two panels and every reachable state has
    between two and four; [addPanel] appends one panel exactly when there are
    fewer than four, [removePanel] drops the last panel exactly when there
    are more than two; no event removes the base panel, and a removal leaves
    a prefix of the collection with the very same base object. *)
Theorem panel_count_bounds (uuid0 uuid1 : string) :
  length (panels (initialState uuid0 uuid1)) = 2
  ∧ (∀ s, reachable escapeRegExp uuid0 uuid1 s → 2 ≤ length (panels s) ≤ 4)
  ∧ (∀ s uuid,
       (length (panels s) < 4 →
        ∃ s' newPanel, addPanel uuid s = Some s'
          ∧ panels s' = panels s ++ [newPanel] ∧ id newPanel = uuid)
       ∧ (4 ≤ length (panels s) → addPanel uuid s = None))
  ∧ (∀ s,
       (2 < length (panels s) →
        ∃ s', removePanel s = Some s'
          ∧ panels s' = take (length (panels s) - 1) (panels s))
       ∧ (length (panels s) ≤ 2 → removePanel s = None))
  ∧ (∀ s e, reachable escapeRegExp uuid0 uuid1 s →
       ∃ b b', panels s !! 0 = Some b ∧ panels (dispatch e s) !! 0 = Some b'
         ∧ id b' = id b
         ∧ (e = RemovePanel →
            b' = b ∧ panels (dispatch e s) `prefix_of` panels s)).
Proof.
  split; [done|]. split; [apply reachable_panels_length|]. split; [|split].
  - intros s uuid. unfold addPanel. split; intros Hlen.
    + rewrite (proj2 (Nat.ltb_lt _ _) Hlen). by eexists _, _.
    + by rewrite (proj2 (Nat.ltb_ge _ _) Hlen).
  - intros s. unfold removePanel. split; intros Hlen.
    + rewrite (proj2 (Nat.ltb_lt _ _) Hlen). by eexists.
    + by rewrite (proj2 (Nat.ltb_ge _ _) Hlen).
  - intros s e Hs. pose proof (reachable_panels_length _ _ _ Hs) as Hlen.
    destruct (panelsStep_base _ _ (dispatch_panelsStep e s)) as (b & b' & Hb & Hb' & Hid);
      [lia|].
    exists b, b'. do 3 (split; [done|]). intros ->. split.
    + revert Hb'. unfold App.dispatch, removePanel.
      destruct (Nat.ltb_spec 2 (length (panels s))) as [Hgt|Hle].
      * rewrite recompute_panels.
        cbn [unmountRef panels setPanelScrollRefs setPanels]. unfold sliceButLast.
        rewrite lookup_take_lt by lia. congruence.
      * congruence.
    + unfold App.dispatch, removePanel.
      destruct (Nat.ltb_spec 2 (length (panels s))) as [Hgt|Hle]; [|done].
      rewrite recompute_panels.
      cbn [unmountRef panels setPanelScrollRefs setPanels]. unfold sliceButLast.
      exists (drop (length (panels s) - 1) (panels s)). by rewrite take_drop.
Qed.

(** *** The scroll guard along the events *)

Lemma sameScroll_inv (s s' : AppState) : sameScroll s s' → scrollInv s → scrollInv s'.
Proof.
  intros (Hg & Hq & Hr & Hl) [Hrel Hm]. split.
  - by rewrite Hg, Hq.
  - intros i v. rewrite Hr, Hl. apply Hm.
Qed.

Lemma recompute_scrollInv (s : AppState) : scrollInv s → scrollInv (recompute s).
Proof. apply sameScroll_inv, recompute_sameScroll. Qed.

Lemma dispatch_scrollInv (e : Event) (s : AppState) :
  scrollInv s → scrollInv (dispatch e s).
Proof.
  intros Hinv.
  assert (Hset : ∀ s', sameScroll s s' → scrollInv (recompute s')).
  { intros s' Hs'. by apply recompute_scrollInv, (sameScroll_inv s). }
  destruct e; unfold App.dispatch.
  all: try (apply Hset; by repeat split).
  all: try (destruct (isFindVisible s); [|done]; unfold App.dispatchWidget).
  all: try (apply Hset; by repeat split).
  - by case_bool_decide; [|apply Hset].
  - done.
  - by apply (sameScroll_inv s).
  - by apply (sameScroll_inv s).
  - destruct (handleReplace s) as [[s'|]|] eqn:Hr; try done.
    apply Hset. by destruct (handleReplace_panels s s' Hr) as (_ & _ & _ & ?).
  - destruct (handleReplaceAll escapeRegExp s) as [[s'|]|] eqn:Hr; try done.
    apply Hset. by destruct (handleReplaceAll_panels s s' Hr) as (_ & _ & _ & ?).
  - (* AddPanel *)
    unfold addPanel. destruct (length (panels s) <? 4); [|done].
    apply recompute_scrollInv. destruct Hinv as [Hrel Hm]. split; [done|].
    intros i v. cbn [mountRef panelScrollRefs panels setPanelScrollRefs setPanels setNextRef].
    rewrite length_app. cbn [length].
    intros [[-> _]|[_ Hi]]%jsArraySet_mounted; [lia|]. specialize (Hm i v Hi). lia.
  - (* RemovePanel *)
    unfold removePanel. destruct (Nat.ltb_spec 2 (length (panels s))); [|done].
    apply recompute_scrollInv. destruct Hinv as [Hrel Hm]. split; [done|].
    intros i v.
    cbn [unmountRef panelScrollRefs panels setPanelScrollRefs setPanels].
    unfold sliceButLast. rewrite length_take.
    intros [[_ [=]]|[Hne Hi]]%jsArraySet_mounted.
    apply lookup_take_Some in Hi as [Hi _]. specialize (Hm i v Hi). lia.
  - destruct (updatePanelText_panels id' newText s) as (_ & _ & _ & Hsame).
    by apply recompute_scrollInv, (sameScroll_inv s).
  - destruct (updatePanelTitle_panels id' newTitle s) as (_ & _ & _ & Hsame).
    by apply recompute_scrollInv, (sameScroll_inv s).
  - (* Scroll *)
    destruct (isSyncingScroll s) eqn:Hg.
    + unfold handleScroll. by rewrite Hg.
    + destruct Hinv as [Hrel Hm].
      destruct (handleScroll_clear id' sTop sLeft s Hg Hm) as (s' & -> & _ & Hq & Hp & Hshape).
      cbn [afterCompletion]. split.
      * intros _. rewrite Hq. apply elem_of_app. right. apply list_elem_of_here.
      * intros i v Hi. rewrite Hp. destruct (Hshape i v Hi) as [v0 Hv0]. by apply (Hm i v0).
  - (* AnimationFrame *)
    rewrite animationFrame_spec. destruct Hinv as [Hrel Hm].
    destruct (rafQueue s) eqn:Hq; (split; [|done]).
    + cbn [isSyncingScroll setRafQueue]. intros Hg. specialize (Hrel Hg).
      by apply elem_of_nil in Hrel.
    + done.
  - unfold timerFired. case_bool_decide; [|done]. by apply (sameScroll_inv s).
Qed.

Lemma reachable_scrollInv (uuid0 uuid1 : string) (s : AppState) :
  reachable escapeRegExp uuid0 uuid1 s → scrollInv s.
Proof.
  induction 1 as [|e s Hs IH]; [|by apply dispatch_scrollInv].
  split; [done|]. intros [|[|i]] v Hi; cbn in *; [lia | lia | done].
Qed.

Lemma animationFrame_releases (s : AppState) :
  (isSyncingScroll s = true → ReleaseScrollGuard ∈ rafQueue s) →
  isSyncingScroll (animationFrame s) = false.
Proof.
  intros Hrel. rewrite animationFrame_spec. destruct (rafQueue s); [|done].
  cbn [isSyncingScroll setRafQueue]. destruct (isSyncingScroll s); [|done].
  specialize (Hrel eq_refl). by apply elem_of_nil in Hrel.
Qed.

(** C8: a scroll event that finds the guard set changes nothing; one that
    finds it clear (the viewports being those of mounted panels) completes
    with the guard set and its release queued for the next frame, and that
    frame clears the guard; in every reachable state a set guard has its
    release queued, so the next frame always clears it. *)
Theorem scroll_guard (s : AppState) (id' : string) (sTop sLeft : Z) :
  (isSyncingScroll s = true →
     handleScroll id' sTop sLeft s = Normal s
     ∧ dispatch (Scroll id' sTop sLeft) s = s)
  ∧ (isSyncingScroll s = false → refsMounted s →
     ∃ s', handleScroll id' sTop sLeft s = Normal s'
       ∧ isSyncingScroll s' = true
       ∧ ReleaseScrollGuard ∈ rafQueue s'
       ∧ isSyncingScroll (animationFrame s') = false)
  ∧ (∀ uuid0 uuid1, reachable escapeRegExp uuid0 uuid1 s →
       refsMounted s
       ∧ (isSyncingScroll s = true → ReleaseScrollGuard ∈ rafQueue s)
       ∧ isSyncingScroll (dispatch AnimationFrame s) = false).
Proof.
  split; [|split].
  - intros Hg. unfold App.dispatch, handleScroll. by rewrite Hg.
  - intros Hg Hm.
    destruct (handleScroll_clear id' sTop sLeft s Hg Hm) as (s' & Hs' & Hg' & Hq & _).
    exists s'. split; [done|]. split; [done|].
    assert (Hin : ReleaseScrollGuard ∈ rafQueue s').
    { rewrite Hq. apply elem_of_app. right. apply list_elem_of_here. }
    split; [done|]. by apply animationFrame_releases.
  - intros uuid0 uuid1 Hs. destruct (reachable_scrollInv _ _ _ Hs) as [Hrel Hm].
    split; [done|]. split; [done|]. by apply animationFrame_releases.
Qed.

(** *** The active index along the events *)

Lemma foldl_runRaf_find (q : list RafCallback) (s : AppState) :
  matches (foldl (fun s cb => runRaf cb s) s q) = matches s
  ∧ activeMatchIndex (foldl (fun s cb => runRaf cb s) s q) = activeMatchIndex s.
Proof.
  revert s. induction q as [|[] q IH]; intros s; [done|].
  cbn [foldl]. destruct (IH (runRaf ReleaseScrollGuard s)) as [-> ->]. done.
Qed.

Lemma handleScroll_find (id' : string) (sTop sLeft : Z) (s : AppState) :
  let s' := afterCompletion (handleScroll id' sTop sLeft s) in
  matches s' = matches s ∧ activeMatchIndex s' = activeMatchIndex s.
Proof.
  unfold handleScroll. destruct (isSyncingScroll s); [done|].
  cbn zeta. destruct (findIndex _ _); [|done].
  destruct (syncRefs _ _ _ _ _ _ _) as [refs [ids|]]; [|done].
  cbn [syncIndicatorTimer setSyncingPanelIds setPanelScrollRefs setIsSyncingScroll].
  by destruct (truthyHandle (syncIndicatorTimer s)).
Qed.

(** Every event keeps the active index inside the match list, except a
    navigation on an empty list. *)
Lemma dispatch_activeIndexOk (e : Event) (s : AppState) :
  activeIndexOk s →
  (e = FindNext ∨ e = FindPrev → matches s ≠ []) →
  activeIndexOk (dispatch e s).
Proof.
  intros Hok Hnav. destruct e; unfold App.dispatch.
  all: try apply recompute_activeIndexOk.
  all: try (destruct (isFindVisible s); [|done]; unfold App.dispatchWidget).
  all: try apply recompute_activeIndexOk.
  - by case_bool_decide; [|apply recompute_activeIndexOk].
  - done.
  - (* FindNext *)
    unfold activeIndexOk in *. cbn [handleFindNext matches setActiveMatchIndex].
    destruct (matches s) as [|m ms] eqn:Hm; [by destruct Hnav; [left|]|].
    destruct Hok as (z & Hz & Hr). rewrite <- Hm in *.
    destruct (handleFind_nonempty s z) as [Hn _]; [lia | lia | done |].
    eexists. split; [exact Hn|]. apply Z.mod_pos_bound. lia.
  - (* FindPrev *)
    unfold activeIndexOk in *. cbn [handleFindPrev matches setActiveMatchIndex].
    destruct (matches s) as [|m ms] eqn:Hm; [by destruct Hnav; [right|]|].
    destruct Hok as (z & Hz & Hr). rewrite <- Hm in *.
    destruct (handleFind_nonempty s z) as [_ Hp]; [lia | lia | done |].
    eexists. split; [exact Hp|]. apply Z.mod_pos_bound. lia.
  - destruct (handleReplace s) as [[s'|]|]; [apply recompute_activeIndexOk | done..].
  - destruct (handleReplaceAll escapeRegExp s) as [[s'|]|]; [apply recompute_activeIndexOk | done..].
  - destruct (addPanel uuid s); [apply recompute_activeIndexOk | done].
  - destruct (removePanel s); [apply recompute_activeIndexOk | done].
  - destruct (handleScroll_find id' sTop sLeft s) as [Hm Hi].
    unfold activeIndexOk in *. by rewrite Hm, Hi.
  - unfold animationFrame.
    destruct (foldl_runRaf_find (rafQueue s) (setRafQueue [] s)) as [Hm Hi].
    unfold activeIndexOk in *. by rewrite Hm, Hi.
  - unfold timerFired. by case_bool_decide.
Qed.

(** C4: the invariant of the active index does not survive a navigation on
    an empty match list.  Opening the find widget and pressing "next" leads
    to a state whose match list is empty and whose active index is NaN, not
    the sentinel. *)
Theorem active_index_invariant_broken (uuid0 uuid1 : string) :
  let s := run [ToggleFind; FindNext] (initialState uuid0 uuid1) in
  reachable escapeRegExp uuid0 uuid1 s
  ∧ matches s = [] ∧ activeMatchIndex s = NaN ∧ ¬ activeIndexOk s.
Proof.
  cbn zeta. unfold App.run. cbn [foldl].
  split; [do 2 apply reachable_step; apply reachable_init|].
  assert (Hs : dispatch FindNext (dispatch ToggleFind (initialState uuid0 uuid1))
               = setActiveMatchIndex NaN
                   (setIsFindVisible true (initialState uuid0 uuid1))).
  { reflexivity. }
  rewrite Hs. repeat split. unfold activeIndexOk. cbn. discriminate.
Qed.

End Find.

(** *** The properties on concrete states, with the literal engine *)

Lemma twoDocs_NoDup : NoDup (id <$> panels twoDocs).
Proof. apply (bool_decide_unpack _). by vm_compute. Defined.

Lemma recompute_resets_active_index_witness :
  let s := findState "greeter" (mkFindOptions false false) in
  dispatch Literal.escapeRegExp (TitleChange "u0" "a.ts") s = s
  ∨ ((matches (dispatch Literal.escapeRegExp (TitleChange "u0" "a.ts") s) = [] →
      activeMatchIndex (dispatch Literal.escapeRegExp (TitleChange "u0" "a.ts") s)
      = Num (-1))
     ∧ (matches (dispatch Literal.escapeRegExp (TitleChange "u0" "a.ts") s) ≠ [] →
        activeMatchIndex (dispatch Literal.escapeRegExp (TitleChange "u0" "a.ts") s)
        = Num 0)).
Proof.
  apply (proj2 (recompute_resets_active_index Literal.escapeRegExp
                  (findState "greeter" (mkFindOptions false false)))).
  reflexivity.
Defined.

Lemma invalid_regex_gives_empty_matches_witness :
  let s := findState "(" (mkFindOptions false true) in
  findMatchesEffect Literal.escapeRegExp s
  = Normal (setActiveMatchIndex (Num (-1)) (setMatches [] s)).
Proof.
  refine (proj1 (invalid_regex_gives_empty_matches Literal.escapeRegExp
                   (findState "(" (mkFindOptions false true)) _ _)).
  - reflexivity.
  - reflexivity.
Defined.

Lemma replaceAll_preserves_identity_witness :
  panels twoDocsReplaced !! 1 = Some (mkPanel 1 "d2" "baz" "second")
  ∧ length (panels twoDocsReplaced) = length (panels twoDocs)
  ∧ ∀ k p, panels twoDocs !! k = Some p →
      ∃ regex : RegExp,
        newRegExp (Literal.escapeRegExp "bar") "gi" = Some regex
        ∧ (replace (text p) regex "qux" = text p → panels twoDocsReplaced !! k = Some p)
        ∧ (replace (text p) regex "qux" ≠ text p →
           ∃ r, 2 ≤ r
             ∧ panels twoDocsReplaced !! k
               = Some (mkPanel r (id p) (replace (text p) regex "qux") (title p))).
Proof.
  split; [reflexivity|].
  apply (proj1 (replaceAll_preserves_identity Literal.escapeRegExp twoDocs twoDocs_NoDup)
           twoDocsReplaced).
  reflexivity.
Defined.

Lemma literal_results_indexed (str : string) (p : Literal.Pattern) (pos skip : nat)
    (m : RegExpMatch) :
  m ∈ Literal.scan p (list_ascii_of_string str) pos skip → is_Some (index m).
Proof.
  generalize (list_ascii_of_string str) as txt. intros txt. revert pos skip.
  induction txt as [|c txt IH]; intros pos skip; cbn [Literal.scan].
  - by intros ?%elem_of_nil.
  - destruct skip as [|skip]; [|apply IH].
    destruct (Literal.startsWith _ _ _); [|apply IH].
    intros [-> | Hm]%elem_of_cons; [by eexists | by eapply IH].
Qed.

Lemma replaceAll_expands_replacement_patterns_witness :
  (∃ p', panelsAfter (handleReplaceAll Literal.escapeRegExp patternDocs) patternDocs !! 0
         = Some p'
     ∧ id p' = "d1" ∧ title p' = "first" ∧ text p' = "foo [bar]")
  ∧ substituteVerbatim "foo bar" (matchAll "foo bar" barPattern) "[$&]" = "foo [$&]"
  ∧ panelsAfter (handleReplace patternDocs) patternDocs !! 0
    = Some (mkPanel 2 "d1" "foo [$&]" "first")
  ∧ (∃ p', panelsAfter (handleReplaceAll Literal.escapeRegExp dollarDocs) dollarDocs !! 0
           = Some p'
       ∧ text p' = "foo $" ∧ text p' ≠ "foo $$").
Proof.
  assert (Hpattern : ∀ k p, panels patternDocs !! k = Some p →
            ∃ p', panelsAfter (handleReplaceAll Literal.escapeRegExp patternDocs)
                    patternDocs !! k = Some p'
              ∧ id p' = id p ∧ title p' = title p
              ∧ text p' = regExpReplace (text p) (matchAll (text p) barPattern) "[$&]"
              ∧ (("$"%char ∉ list_ascii_of_string "[$&]") →
                 text p' = substituteVerbatim (text p) (matchAll (text p) barPattern) "[$&]")
              ∧ ("[$&]" = "$$" → matchAll (text p) barPattern ≠ [] →
                 text p' = substituteVerbatim (text p) (matchAll (text p) barPattern) "$"
                 ∧ text p'
                   ≠ substituteVerbatim (text p) (matchAll (text p) barPattern) "[$&]")).
  { apply (replaceAll_expands_replacement_patterns Literal.escapeRegExp patternDocs
             barPattern).
    - exact twoDocs_NoDup.
    - reflexivity.
    - reflexivity.
    - reflexivity.
    - intros p m _. apply literal_results_indexed. }
  assert (Hdollar : ∀ k p, panels dollarDocs !! k = Some p →
            ∃ p', panelsAfter (handleReplaceAll Literal.escapeRegExp dollarDocs)
                    dollarDocs !! k = Some p'
              ∧ id p' = id p ∧ title p' = title p
              ∧ text p' = regExpReplace (text p) (matchAll (text p) barPattern) "$$"
              ∧ (("$"%char ∉ list_ascii_of_string "$$") →
                 text p' = substituteVerbatim (text p) (matchAll (text p) barPattern) "$$")
              ∧ ("$$" = "$$" → matchAll (text p) barPattern ≠ [] →
                 text p' = substituteVerbatim (text p) (matchAll (text p) barPattern) "$"
                 ∧ text p'
                   ≠ substituteVerbatim (text p) (matchAll (text p) barPattern) "$$")).
  { apply (replaceAll_expands_replacement_patterns Literal.escapeRegExp dollarDocs
             barPattern).
    - exact twoDocs_NoDup.
    - reflexivity.
    - reflexivity.
    - reflexivity.
    - intros p m _. apply literal_results_indexed. }
  split; [|split; [reflexivity|split; [reflexivity|]]].
  - destruct (Hpattern 0 _ eq_refl) as (p' & Hp' & Hid & Htitle & Htext & _).
    exists p'. split; [exact Hp'|]. split; [exact Hid|]. split; [exact Htitle|].
    exact Htext.
  - destruct (Hdollar 0 _ eq_refl) as (p' & Hp' & _ & _ & _ & _ & Hdiff).
    exists p'. split; [exact Hp'|]. apply Hdiff; [reflexivity | discriminate].
Defined.

Lemma scroll_guard_witness :
  ∃ s', handleScroll "u0" 120 0 (initialState "u0" "u1") = Normal s'
    ∧ isSyncingScroll s' = true
    ∧ ReleaseScrollGuard ∈ rafQueue s'
    ∧ isSyncingScroll (animationFrame s') = false.
Proof.
  apply (proj1 (proj2 (scroll_guard Literal.escapeRegExp (initialState "u0" "u1")
                         "u0" 120 0))).
  - reflexivity.
  - intros [|[|i]] v Hi; cbn in *; [lia | lia | discriminate Hi].
Defined.

Lemma panel_count_bounds_witness :
  2 ≤ length (panels (run Literal.escapeRegExp
                        [AddPanel "u2"; AddPanel "u3"; AddPanel "u4"; RemovePanel]
                        (initialState "u0" "u1"))) ≤ 4.
Proof.
  apply (proj1 (proj2 (panel_count_bounds Literal.escapeRegExp "u0" "u1"))).
  unfold run. cbn [foldl]. repeat apply reachable_step. apply reachable_init.
Defined.

End AppFacts.

(** ** Part III: further properties of the handlers *)

Module AppInvFacts.
Import App AppInv AppFacts.

(** Projections of states built by setters. *)
Ltac simpl_state :=
  cbn [nextRef panels syncingPanelIds isFindVisible findQuery replaceQuery findOptions
       matches activeMatchIndex panelScrollRefs isSyncingScroll syncIndicatorTimer
       rafQueue timeouts nextTimerId
       setNextRef setPanels setSyncingPanelIds setIsFindVisible setFindQuery
       setReplaceQuery setFindOptions setMatches setActiveMatchIndex
       setPanelScrollRefs setIsSyncingScroll setSyncIndicatorTimer setRafQueue
       setTimeouts setNextTimerId withDocs withScroll mountRef unmountRef
       requestAnimationFrame clearTimeout setTimeout] in *.

Section Machine.
Context `{RegexEngine} (escapeRegExp : string → string).

Local Abbreviation recompute := (recompute escapeRegExp).
Local Abbreviation dispatch := (dispatch escapeRegExp).
Local Abbreviation reachable := (reachable escapeRegExp).

(** *** The shape of what each handler writes *)

Lemma recompute_withDocs (s : AppState) :
  ∃ ms, recompute s = withDocs (nextRef s) (panels s) ms (resetIndex ms) s.
Proof.
  destruct (recompute_spec escapeRegExp s) as [ms ->]. exists ms. by destruct s.
Qed.

Lemma updatePanelText_withDocs (id' newText : string) (s : AppState) :
  updatePanelText id' newText s
  = withDocs
      (mapSpread (fun p => if decide (id p = id')
                           then Some (mkPanel (ref p) (id p) newText (title p))
                           else None) (nextRef s) (panels s)).1
      (mapSpread (fun p => if decide (id p = id')
                           then Some (mkPanel (ref p) (id p) newText (title p))
                           else None) (nextRef s) (panels s)).2
      (matches s) (activeMatchIndex s) s.
Proof. unfold updatePanelText. destruct (mapSpread _ _ _). by destruct s. Qed.

Lemma updatePanelTitle_withDocs (id' newTitle : string) (s : AppState) :
  updatePanelTitle id' newTitle s
  = withDocs
      (mapSpread (fun p => if decide (id p = id')
                           then Some (mkPanel (ref p) (id p) (text p) newTitle)
                           else None) (nextRef s) (panels s)).1
      (mapSpread (fun p => if decide (id p = id')
                           then Some (mkPanel (ref p) (id p) (text p) newTitle)
                           else None) (nextRef s) (panels s)).2
      (matches s) (activeMatchIndex s) s.
Proof. unfold updatePanelTitle. destruct (mapSpread _ _ _). by destruct s. Qed.

Lemma handleReplace_withDocs (s s' : AppState) :
  handleReplace s = Normal (Some s') →
  ∃ upd, s' = withDocs (mapSpread upd (nextRef s) (panels s)).1
                (mapSpread upd (nextRef s) (panels s)).2
                (matches s) (activeMatchIndex s) s
         ∧ ∀ p q, upd p = Some q → id q = id p ∧ title q = title p.
Proof.
  unfold handleReplace.
  destruct (jsStrictEq _ _ || _); [done|].
  destruct (jsIndex _ _) as [m|]; [|by destruct (panels s)].
  destruct (find _ _) as [panel|]; [|done].
  intros [= <-]. eexists. split; [apply updatePanelText_withDocs|].
  intros p q. cbn beta. case_decide; [|done]. by intros [= <-].
Qed.

Lemma handleReplaceAll_withDocs (s s' : AppState) :
  handleReplaceAll escapeRegExp s = Normal (Some s') →
  ∃ upd, s' = withDocs (mapSpread upd (nextRef s) (panels s)).1
                (mapSpread upd (nextRef s) (panels s)).2
                (matches s) (activeMatchIndex s) s
         ∧ ∀ p q, upd p = Some q → id q = id p ∧ title q = title p.
Proof.
  unfold handleReplaceAll.
  destruct (falsy _ || _); [done|].
  destruct (collectUpdates _ _ _ _) as [u|]; [|done].
  set (upd := fun p : PanelData =>
                match u !! id p with
                | Some newText => Some (mkPanel (ref p) (id p) newText (title p))
                | None => None
                end).
  destruct (mapSpread upd (nextRef s) (panels s)) as [n ps] eqn:Hmap.
  intros [= <-]. exists upd. rewrite Hmap. split; [by destruct s|].
  intros p q. unfold upd. destruct (u !! id p); [|done]. by intros [= <-].
Qed.

Lemma handleScroll_withScroll (id' : string) (sTop sLeft : Z) (s : AppState) :
  ∃ g refs ids pending next handle queue,
    afterCompletion (handleScroll id' sTop sLeft s)
    = withScroll g refs ids pending next handle queue s.
Proof.
  unfold handleScroll. destruct (isSyncingScroll s) eqn:Hg.
  { exists true, (panelScrollRefs s), (syncingPanelIds s), (timeouts s),
      (nextTimerId s), (syncIndicatorTimer s), (rafQueue s).
    destruct s. cbn in Hg. by subst. }
  cbn zeta. destruct (findIndex _ _).
  - destruct (syncRefs _ _ _ _ _ _ _) as [refs [ids|]].
    + cbn [syncIndicatorTimer setSyncingPanelIds setPanelScrollRefs setIsSyncingScroll].
      destruct (truthyHandle (syncIndicatorTimer s)); by eexists _, _, _, _, _, _, _.
    + exists true, refs, (syncingPanelIds s), (timeouts s),
        (nextTimerId s), (syncIndicatorTimer s), (rafQueue s). by destruct s.
  - exists true, (panelScrollRefs s), (syncingPanelIds s), (timeouts s),
      (nextTimerId s), (syncIndicatorTimer s), (rafQueue s ++ [ReleaseScrollGuard]).
    by destruct s.
Qed.

(** *** Object identities *)

Lemma mapSpread_refs (upd : PanelData → option PanelData) (ps : list PanelData) (n : nat) :
  (∀ p, p ∈ ps → ref p < n) → NoDup (ref <$> ps) →
  n ≤ (mapSpread upd n ps).1
  ∧ (∀ p, p ∈ (mapSpread upd n ps).2 →
       ref p < (mapSpread upd n ps).1 ∧ (p ∈ ps ∨ n ≤ ref p))
  ∧ NoDup (ref <$> (mapSpread upd n ps).2).
Proof.
  revert n. induction ps as [|p0 ps IH]; intros n Hlt Hnd.
  { cbn. split; [lia|]. split; [|constructor]. intros p Hp. by apply elem_of_nil in Hp. }
  cbn [fmap list_fmap] in Hnd. apply NoDup_cons in Hnd as [Hp0 Hnd].
  assert (Hlt0 : ref p0 < n) by (apply Hlt, list_elem_of_here).
  assert (Hlt' : ∀ p, p ∈ ps → ref p < n).
  { intros p Hp. apply Hlt. by apply elem_of_cons; right. }
  cbn [mapSpread]. destruct (upd p0) as [q|].
  - destruct (IH (S n)) as (Hle & Hin & Hnd'); [intros p Hp; specialize (Hlt' p Hp); lia | done |].
    destruct (mapSpread upd (S n) ps) as [n' r]. cbn [fst snd] in *.
    split; [lia|]. split.
    + intros p [->|Hp]%elem_of_cons.
      * cbn [ref]. split; [lia|]. by right.
      * destruct (Hin p Hp) as [? [?|?]]. all: split; [done|].
        -- left. by apply elem_of_cons; right.
        -- right. lia.
    + cbn [fmap list_fmap ref]. apply NoDup_cons. split; [|done].
      intros (p & Hrp & Hp)%list_elem_of_fmap. destruct (Hin p Hp) as [_ [Hold|Hnew]].
      * specialize (Hlt' p Hold). lia.
      * lia.
  - destruct (IH n) as (Hle & Hin & Hnd'); [done | done |].
    destruct (mapSpread upd n ps) as [n' r]. cbn [fst snd] in *.
    split; [lia|]. split.
    + intros p [->|Hp]%elem_of_cons.
      * split; [lia|]. left. apply list_elem_of_here.
      * destruct (Hin p Hp) as [? [?|?]]. all: split; [done|].
        -- left. by apply elem_of_cons; right.
        -- by right.
    + cbn [fmap list_fmap]. apply NoDup_cons. split; [|done].
      intros (p & Hrp & Hp)%list_elem_of_fmap. destruct (Hin p Hp) as [_ [Hold|Hnew]].
      * apply Hp0. rewrite Hrp. by apply list_elem_of_fmap_2.
      * lia.
Qed.

Lemma docsStep_objects (n n' : nat) (ps ps' : list PanelData) :
  docsStep n ps n' ps' →
  NoDup (ref <$> ps) → (∀ p, p ∈ ps → ref p < n) →
  NoDup (ref <$> ps') ∧ (∀ p, p ∈ ps' → ref p < n').
Proof.
  intros [|uuid t Hlen|Hlen|upd Hupd] Hnd Hlt; [done| | |].
  - split.
    + rewrite fmap_app. apply NoDup_app. split; [done|]. split; [|apply NoDup_singleton].
      intros r (p & -> & Hp)%list_elem_of_fmap [= Heq]%list_elem_of_singleton.
      specialize (Hlt p Hp). cbn in Heq. lia.
    + intros p [Hp| ->%list_elem_of_singleton]%elem_of_app; [specialize (Hlt p Hp); lia|].
      cbn. lia.
  - split.
    + rewrite fmap_take. eapply sublist_NoDup; [done | apply sublist_take].
    + intros p (i & Hi & _)%elem_of_take. apply Hlt. by eapply list_elem_of_lookup_2.
  - destruct (mapSpread_refs upd ps n Hlt Hnd) as (_ & Hin & Hnd'). split; [done|].
    intros p Hp. by destruct (Hin p Hp).
Qed.

(** *** How the events change the documents *)

Ltac reduce_recompute :=
  match goal with
  | |- context [App.recompute _ ?t] =>
      let ms := fresh "ms" in
      destruct (recompute_withDocs t) as [ms ->]
  end; simpl_state.

Lemma dispatch_docsStep (e : Event) (s : AppState) :
  docsStep (nextRef s) (panels s) (nextRef (dispatch e s)) (panels (dispatch e s)).
Proof.
  destruct e; unfold App.dispatch.
  all: try (reduce_recompute; apply docs_same).
  all: try (destruct (isFindVisible s); [|apply docs_same]; unfold App.dispatchWidget).
  all: try (reduce_recompute; apply docs_same).
  all: try apply docs_same.
  - case_bool_decide; [apply docs_same | reduce_recompute; apply docs_same].
  - destruct (handleReplace s) as [[s'|]|] eqn:Hr; try apply docs_same.
    destruct (handleReplace_withDocs s s' Hr) as (upd & -> & Hupd).
    reduce_recompute. apply docs_update. intros p q Hq. by destruct (Hupd p q Hq).
  - destruct (handleReplaceAll escapeRegExp s) as [[s'|]|] eqn:Hr; try apply docs_same.
    destruct (handleReplaceAll_withDocs s s' Hr) as (upd & -> & Hupd).
    reduce_recompute. apply docs_update. intros p q Hq. by destruct (Hupd p q Hq).
  - unfold addPanel. destruct (Nat.ltb_spec (length (panels s)) 4); [|apply docs_same].
    reduce_recompute. by apply docs_add.
  - unfold removePanel. destruct (Nat.ltb_spec 2 (length (panels s))); [|apply docs_same].
    reduce_recompute. by apply docs_remove.
  - rewrite updatePanelText_withDocs. reduce_recompute. apply docs_update.
    intros p q. case_decide; [|done]. by intros [= <-].
  - rewrite updatePanelTitle_withDocs. reduce_recompute. apply docs_update.
    intros p q. case_decide; [|done]. by intros [= <-].
  - destruct (handleScroll_withScroll id' sTop sLeft s)
      as (g & refs & ids & pending & next & handle & queue & ->).
    simpl_state. apply docs_same.
  - rewrite animationFrame_spec. destruct (rafQueue s); apply docs_same.
  - unfold timerFired. case_bool_decide; apply docs_same.
Qed.

Lemma reachable_objectsInv (uuid0 uuid1 : string) (s : AppState) :
  reachable uuid0 uuid1 s → objectsInv s.
Proof.
  induction 1 as [|e s Hs [Hnd Hlt]].
  - split.
    + cbn. apply NoDup_cons. split; [|apply NoDup_singleton].
      intros [=]%list_elem_of_singleton.
    + intros p [->|[->|[]%elem_of_nil]%elem_of_cons]%elem_of_cons; cbn; lia.
  - by apply (docsStep_objects _ _ _ _ (dispatch_docsStep e s)).
Qed.

(** *** The match list *)

Lemma pushMatches_panelScan (regex : RegExp) (p : PanelData) (acc : list Match) :
  pushMatches p (matchAll (text p) regex) acc = acc ++ panelScan regex p.
Proof.
  unfold panelScan. generalize (matchAll (text p) regex) as ms. intros ms.
  revert acc. induction ms as [|m ms IH]; intros acc; cbn [pushMatches omap list_omap].
  - by rewrite app_nil_r.
  - destruct (index m) as [i|]; cbn [mbind option_bind]; [|apply IH].
    rewrite IH. by rewrite <- app_assoc.
Qed.

Lemma scanPanels_flat (regex : RegExp) (ps : list PanelData) (acc : list Match) :
  scanPanels regex ps acc = acc ++ (ps ≫= panelScan regex).
Proof.
  revert acc. induction ps as [|p ps IH]; intros acc; cbn [scanPanels mbind list_bind].
  - by rewrite app_nil_r.
  - rewrite IH, pushMatches_panelScan. by rewrite <- app_assoc.
Qed.

Lemma elem_of_panelScan (regex : RegExp) (p : PanelData) (m : Match) :
  m ∈ panelScan regex p → panelId m = id p ∧ start m ≤ end_ m.
Proof.
  unfold panelScan. intros (r & _ & Hr)%list_elem_of_omap.
  destruct (index r) as [i|]; [|done]. injection Hr as <-. cbn. split; [done|lia].
Qed.

(** The effect leaves either no match at all or the scan of the panels with
    the pattern of the state. *)
Lemma recompute_matches (s : AppState) :
  matches (recompute s) = []
  ∨ ∃ regex,
      newRegExp (if useRegex (findOptions s) then findQuery s
                 else escapeRegExp (findQuery s))
        (if caseSensitive (findOptions s) then "g" else "gi") = Some regex
      ∧ falsy (findQuery s) = false ∧ isFindVisible s = true
      ∧ matches (recompute s) = panels s ≫= panelScan regex.
Proof.
  unfold App.recompute, findMatchesEffect.
  destruct (falsy (findQuery s)) eqn:Hq; [by left|].
  destruct (isFindVisible s) eqn:Hv; [|by left].
  cbn [orb negb]. cbn zeta.
  destruct (newRegExp _ _) as [regex|] eqn:Hre; [|by left].
  right. exists regex. repeat split. cbn [tryCatch afterCompletion]. simpl_state.
  by rewrite scanPanels_flat.
Qed.

Lemma scanPanels_ext (regex : RegExp) (ps ps' : list PanelData) :
  (fun p => (id p, text p)) <$> ps = (fun p => (id p, text p)) <$> ps' →
  ps ≫= panelScan regex = ps' ≫= panelScan regex.
Proof.
  revert ps'. induction ps as [|p ps IH]; intros [|p' ps'] Heq; try done.
  cbn [fmap list_fmap] in Heq. injection Heq as Hid Htx Hrest.
  cbn [mbind list_bind]. f_equal; [|by apply IH].
  unfold panelScan. by rewrite Hid, Htx.
Qed.

Lemma recompute_matches_ext (s t : AppState) :
  findInputs s = findInputs t → matches (recompute s) = matches (recompute t).
Proof.
  unfold findInputs. intros [= Hq Hv Ho Hp].
  unfold App.recompute, findMatchesEffect. rewrite Hq, Hv, Ho.
  destruct (falsy (findQuery t) || negb (isFindVisible t)); [done|].
  cbn zeta. destruct (newRegExp _ _) as [regex|]; [|done].
  cbn [tryCatch afterCompletion]. simpl_state.
  rewrite !scanPanels_flat. cbn [app]. by apply scanPanels_ext.
Qed.

Lemma recompute_findInputs (s : AppState) : findInputs (recompute s) = findInputs s.
Proof. destruct (recompute_withDocs s) as [ms ->]. done. Qed.

Lemma recompute_upToDate (s : AppState) : upToDate escapeRegExp (recompute s).
Proof. unfold upToDate. apply recompute_matches_ext. by rewrite recompute_findInputs. Qed.

Lemma upToDate_frame (s s' : AppState) :
  matches s' = matches s → findInputs s' = findInputs s →
  upToDate escapeRegExp s → upToDate escapeRegExp s'.
Proof.
  unfold upToDate. intros Hm Hf Hs. rewrite Hm, Hs. by apply recompute_matches_ext.
Qed.

(** *** The match list and the active index along the events *)

Lemma activeIndexOk_indexInv (s : AppState) : activeIndexOk s → indexInv s.
Proof. unfold activeIndexOk, indexInv. destruct (matches s); [by left | done]. Qed.

Lemma recompute_indexInv (s : AppState) : indexInv (recompute s).
Proof. apply activeIndexOk_indexInv, recompute_activeIndexOk. Qed.

Lemma indexInv_frame (s s' : AppState) :
  matches s' = matches s → activeMatchIndex s' = activeMatchIndex s →
  indexInv s → indexInv s'.
Proof. unfold indexInv. by intros -> ->. Qed.

Lemma dispatch_indexInv (e : Event) (s : AppState) : indexInv s → indexInv (dispatch e s).
Proof.
  intros Hinv. destruct e; unfold App.dispatch.
  all: try apply recompute_indexInv.
  all: try (destruct (isFindVisible s); [|done]; unfold App.dispatchWidget).
  all: try apply recompute_indexInv.
  - by case_bool_decide; [|apply recompute_indexInv].
  - done.
  - (* FindNext *)
    unfold indexInv in *. cbn [handleFindNext matches setActiveMatchIndex activeMatchIndex].
    destruct (matches s) as [|m ms] eqn:Hm.
    { right. cbn [length Z.of_nat]. apply jsRem_zero. }
    destruct Hinv as (z & Hz & Hr). rewrite <- Hm in *.
    destruct (handleFind_nonempty s z) as [Hn _]; [lia | lia | done |].
    cbn [handleFindNext activeMatchIndex setActiveMatchIndex] in Hn.
    eexists. split; [exact Hn|]. apply Z.mod_pos_bound. lia.
  - (* FindPrev *)
    unfold indexInv in *. cbn [handleFindPrev matches setActiveMatchIndex activeMatchIndex].
    destruct (matches s) as [|m ms] eqn:Hm.
    { right. cbn [length Z.of_nat]. apply jsRem_zero. }
    destruct Hinv as (z & Hz & Hr). rewrite <- Hm in *.
    destruct (handleFind_nonempty s z) as [_ Hp]; [lia | lia | done |].
    cbn [handleFindPrev activeMatchIndex setActiveMatchIndex] in Hp.
    eexists. split; [exact Hp|]. apply Z.mod_pos_bound. lia.
  - destruct (handleReplace s) as [[s'|]|]; [apply recompute_indexInv | done..].
  - destruct (handleReplaceAll escapeRegExp s) as [[s'|]|]; [apply recompute_indexInv | done..].
  - destruct (addPanel uuid s); [apply recompute_indexInv | done].
  - destruct (removePanel s); [apply recompute_indexInv | done].
  - destruct (handleScroll_withScroll id' sTop sLeft s)
      as (g & refs & ids & pending & next & handle & queue & ->).
    by apply (indexInv_frame s).
  - rewrite animationFrame_spec. destruct (rafQueue s); by apply (indexInv_frame s).
  - unfold timerFired. case_bool_decide; [|done]. by apply (indexInv_frame s).
Qed.

Lemma dispatch_upToDate (e : Event) (s : AppState) :
  upToDate escapeRegExp s → upToDate escapeRegExp (dispatch e s).
Proof.
  intros Hinv. destruct e; unfold App.dispatch.
  all: try apply recompute_upToDate.
  all: try (destruct (isFindVisible s); [|done]; unfold App.dispatchWidget).
  all: try apply recompute_upToDate.
  - by case_bool_decide; [|apply recompute_upToDate].
  - by apply (upToDate_frame s).
  - by apply (upToDate_frame s).
  - by apply (upToDate_frame s).
  - destruct (handleReplace s) as [[s'|]|]; [apply recompute_upToDate | done..].
  - destruct (handleReplaceAll escapeRegExp s) as [[s'|]|]; [apply recompute_upToDate | done..].
  - destruct (addPanel uuid s); [apply recompute_upToDate | done].
  - destruct (removePanel s); [apply recompute_upToDate | done].
  - destruct (handleScroll_withScroll id' sTop sLeft s)
      as (g & refs & ids & pending & next & handle & queue & ->).
    by apply (upToDate_frame s).
  - rewrite animationFrame_spec. destruct (rafQueue s); by apply (upToDate_frame s).
  - unfold timerFired. case_bool_decide; [|done]. by apply (upToDate_frame s).
Qed.

Lemma upToDate_matches (s : AppState) (m : Match) :
  upToDate escapeRegExp s → m ∈ matches s →
  ∃ p, p ∈ panels s ∧ panelId m = id p ∧ start m ≤ end_ m.
Proof.
  unfold upToDate. intros -> Hm.
  destruct (recompute_matches s) as [Hnil|(regex & _ & _ & _ & Heq)].
  - rewrite Hnil in Hm. by apply elem_of_nil in Hm.
  - rewrite Heq in Hm. apply list_elem_of_bind in Hm as (p & Hm & Hp).
    exists p. split; [done|]. by apply (elem_of_panelScan regex).
Qed.

Lemma reachable_find_invariants (uuid0 uuid1 : string) (s : AppState) :
  reachable uuid0 uuid1 s →
  upToDate escapeRegExp s
  ∧ (∀ m, m ∈ matches s → ∃ p, p ∈ panels s ∧ panelId m = id p ∧ start m ≤ end_ m)
  ∧ indexInv s.
Proof.
  intros Hs.
  assert (Hinv : upToDate escapeRegExp s ∧ indexInv s).
  { induction Hs as [|e s Hs [Hu Hi]].
    - split; [reflexivity | by left].
    - split; [by apply dispatch_upToDate | by apply dispatch_indexInv]. }
  destruct Hinv as [Hu Hi]. split; [exact Hu|]. split; [|done].
  intros m Hm. by apply upToDate_matches.
Qed.

(** X1: in every reachable state the match list is the one the Find Matches
    effect computes from the current query, options, visibility and panels;
    every match belongs to a panel of the collection and has its start at
    or before its end; and the active index is inside a non-empty match
    list, while on an empty one it is the sentinel or NaN. *)
Theorem reachable_matches_current (uuid0 uuid1 : string) (s : AppState) :
  reachable uuid0 uuid1 s →
  matches s = matches (recompute s)
  ∧ (∀ m, m ∈ matches s → ∃ p, p ∈ panels s ∧ panelId m = id p ∧ start m ≤ end_ m)
  ∧ match matches s with
    | [] => activeMatchIndex s = Num (-1) ∨ activeMatchIndex s = NaN
    | _ :: _ =>
        ∃ z : Z, activeMatchIndex s = Num z
                 ∧ (0 <= z < Z.of_nat (length (matches s)))%Z
    end.
Proof.
  intros Hs.
  assert (Hinv : upToDate escapeRegExp s ∧ indexInv s).
  { induction Hs as [|e s Hs [Hu Hi]].
    - split; [reflexivity | by left].
    - split; [by apply dispatch_upToDate | by apply dispatch_indexInv]. }
  destruct Hinv as [Hu Hi]. split; [exact Hu|]. split; [|exact Hi].
  intros m Hm. by apply upToDate_matches.
Qed.

(** X2: when the query is not empty, the widget is visible and the pattern
    compiles, the Find Matches effect leaves the matches of the panels in
    the order of the collection, and within a panel in scan order, each with
    the panel's identifier and its end at the start plus the length of the
    matched text; with an empty query or a hidden widget it leaves no match,
    whatever the panels hold. *)
Theorem findMatchesEffect_scans_in_order (s : AppState) :
  (∀ regex,
     falsy (findQuery s) = false → isFindVisible s = true →
     newRegExp (if useRegex (findOptions s) then findQuery s
                else escapeRegExp (findQuery s))
       (if caseSensitive (findOptions s) then "g" else "gi") = Some regex →
     findMatchesEffect escapeRegExp s
     = Normal (setActiveMatchIndex (resetIndex (panels s ≫= panelScan regex))
                 (setMatches (panels s ≫= panelScan regex) s)))
  ∧ (falsy (findQuery s) = true ∨ isFindVisible s = false →
     findMatchesEffect escapeRegExp s
     = Normal (setActiveMatchIndex (Num (-1)) (setMatches [] s))).
Proof.
  split.
  - intros regex Hq Hv Hre. unfold findMatchesEffect. rewrite Hq, Hv. cbn [orb negb].
    cbn zeta. rewrite Hre. cbn [tryCatch].
    by rewrite resetIndex_length, scanPanels_flat.
  - intros Hoff. unfold findMatchesEffect.
    destruct Hoff as [-> | ->]; [done | by rewrite orb_true_r].
Qed.

(** *** Replacing the active match *)

Lemma find_exists {A : Type} (pred : A → bool) (l : list A) (x : A) :
  x ∈ l → pred x = true → ∃ y, find pred l = Some y.
Proof.
  induction l as [|a l IH]; intros Hx Hp; [by apply elem_of_nil in Hx|].
  cbn [find]. destruct (pred a) eqn:Ha; [by exists a|].
  apply elem_of_cons in Hx as [->|Hx]; [congruence|]. by apply IH.
Qed.

Lemma find_unique_id (ps : list PanelData) (k : nat) (p : PanelData) :
  NoDup (id <$> ps) → ps !! k = Some p →
  find (fun q => bool_decide (id q = id p)) ps = Some p.
Proof.
  revert k. induction ps as [|a ps IH]; intros k Hnd Hk; [done|].
  cbn [fmap list_fmap] in Hnd. apply NoDup_cons in Hnd as [Ha Hnd].
  cbn [find]. destruct k as [|k].
  - injection Hk as ->. by rewrite bool_decide_true.
  - cbn in Hk. rewrite bool_decide_false; [by apply (IH k)|].
    intros Heq. apply Ha. rewrite Heq. apply list_elem_of_fmap_2.
    by eapply list_elem_of_lookup_2.
Qed.

Lemma jsIndex_Some {A : Type} (arr : list A) (i : JsNum) (x : A) :
  jsIndex arr i = Some x →
  ∃ z, i = Num z ∧ (0 <= z < Z.of_nat (length arr))%Z ∧ arr !! Z.to_nat z = Some x.
Proof.
  destruct i as [z|]; [|done]. cbn [jsIndex].
  destruct (Z.leb_spec 0 z); [|done]. intros Hx. exists z.
  apply lookup_lt_Some in Hx as Hlt. repeat split; try done; lia.
Qed.

(** [updatePanelText] on a collection with distinct identifiers: the panel
    with the identifier gets the text, every other panel stays the object it
    was. *)
Lemma mapSpread_one (upd : PanelData → option PanelData) (ps : list PanelData)
    (n k : nat) (p q : PanelData) :
  ps !! k = Some p → upd p = Some q →
  (∀ j p', j ≠ k → ps !! j = Some p' → upd p' = None) →
  (∃ r, n ≤ r ∧ (mapSpread upd n ps).2 !! k = Some (mkPanel r (id q) (text q) (title q)))
  ∧ ∀ j p', j ≠ k → ps !! j = Some p' → (mapSpread upd n ps).2 !! j = Some p'.
Proof.
  intros Hk Hq Hothers. split.
  - pose proof (mapSpread_lookup upd ps n k p Hk) as Hlk. by rewrite Hq in Hlk.
  - intros j p' Hj Hp'. pose proof (mapSpread_lookup upd ps n j p' Hp') as Hlk.
    by rewrite (Hothers j p' Hj Hp') in Hlk.
Qed.

(** X3: when the active index selects a match and the identifiers are distinct,
    [handleReplace] completes with an update: the panel of the match gets
    the text before the match, the replacement and the text after the match;
    its identifier and title, the size of the collection and every other
    panel object are kept. *)
Theorem handleReplace_splices (s : AppState) (m : Match) (k : nat) (panel : PanelData) :
  jsIndex (matches s) (activeMatchIndex s) = Some m →
  NoDup (id <$> panels s) →
  panels s !! k = Some panel → id panel = panelId m →
  ∃ s', handleReplace s = Normal (Some s')
    ∧ length (panels s') = length (panels s)
    ∧ (∃ r, nextRef s ≤ r
          ∧ panels s' !! k
            = Some (mkPanel r (id panel)
                      (substringTo (start m) (text panel) +:+ replaceQuery s
                       +:+ substringFrom (end_ m) (text panel))
                      (title panel)))
    ∧ ∀ j p, j ≠ k → panels s !! j = Some p → panels s' !! j = Some p.
Proof.
  intros Hm Hnd Hk Hid.
  destruct (jsIndex_Some _ _ _ Hm) as (z & Hz & Hr & Hlk).
  unfold handleReplace. rewrite Hm, Hz. cbn [jsStrictEq].
  destruct (Z.eqb_spec z (-1)); [lia|].
  destruct (Nat.eqb_spec (length (matches s)) 0); [lia|]. cbn [orb].
  rewrite <- Hid, (find_unique_id _ k panel Hnd Hk).
  eexists. split; [done|]. rewrite updatePanelText_withDocs. simpl_state.
  split; [apply mapSpread_length|].
  apply (mapSpread_one _ (panels s) (nextRef s) k panel
           (mkPanel (ref panel) (id panel)
              (substringTo (start m) (text panel) +:+ replaceQuery s
               +:+ substringFrom (end_ m) (text panel))
              (title panel))); [done| |].
  - cbn beta. by rewrite decide_True.
  - intros j p' Hj Hp'. cbn beta. rewrite decide_False; [done|].
    intros Heq. apply Hj. eapply NoDup_lookup; [exact Hnd| |].
    + rewrite list_lookup_fmap, Hp'. done.
    + rewrite list_lookup_fmap, Hk. cbn. by rewrite Heq.
Qed.

(** X4: in a reachable state [handleReplace] never throws: on an empty match
    list it returns without an update, and on a non-empty one the active
    index selects a match whose panel exists, so that it completes with an
    update. *)
Theorem reachable_handleReplace (uuid0 uuid1 : string) (s : AppState) :
  reachable uuid0 uuid1 s →
  (matches s = [] → handleReplace s = Normal None)
  ∧ (matches s ≠ [] → ∃ s', handleReplace s = Normal (Some s')).
Proof.
  intros Hs. destruct (reachable_find_invariants uuid0 uuid1 s Hs) as (_ & Hms & Hi).
  split.
  - intros Hnil. unfold handleReplace. rewrite Hnil. cbn [length Nat.eqb].
    by rewrite orb_true_r.
  - intros Hne. unfold indexInv in Hi.
    destruct (matches s) as [|m0 ms] eqn:Hm; [done|]. rewrite <- Hm in *.
    destruct Hi as (z & Hz & Hr).
    assert (Hlk : is_Some (matches s !! Z.to_nat z)) by (apply lookup_lt_is_Some; lia).
    destruct Hlk as [m Hlk].
    destruct (Hms m) as (p & Hp & Hid & _); [by eapply list_elem_of_lookup_2|].
    destruct (find_exists (fun q => bool_decide (id q = panelId m)) (panels s) p Hp)
      as [panel Hfind]; [by apply bool_decide_eq_true|].
    unfold handleReplace. rewrite Hz. cbn [jsStrictEq jsIndex].
    destruct (Z.eqb_spec z (-1)); [lia|].
    destruct (Nat.eqb_spec (length (matches s)) 0) as [H0|_]; [rewrite H0 in Hr; lia|].
    cbn [orb]. destruct (Z.leb_spec 0 z); [|lia]. rewrite Hlk, Hfind. by eexists.
Qed.

(** *** The scroll fan-out *)

Lemma syncRefs_fannedOut (ps : list PanelData) (k : nat) (sTop sLeft : Z)
    (refs : list (option Viewport)) (index : nat) (acc : list string) :
  (∀ i v, refs !! i = Some (Some v) → index + i < length ps) →
  syncRefs ps k sTop sLeft refs index acc
  = (fannedOut k sTop sLeft refs index, Some (acc ++ syncedIds ps k refs index)).
Proof.
  revert index acc. induction refs as [|r refs IH]; intros index acc Hm.
  { cbn. by rewrite app_nil_r. }
  assert (Hm' : ∀ i v, refs !! i = Some (Some v) → S index + i < length ps).
  { intros i v Hi. specialize (Hm (S i) v Hi). lia. }
  cbn [syncRefs fannedOut syncedIds]. destruct r as [v0|].
  - destruct (ps !! index) as [p|] eqn:Hp.
    + destruct (index =? k); cbn [negb]; rewrite IH by done; [done|].
      by rewrite <- app_assoc.
    + apply lookup_ge_None in Hp. specialize (Hm 0 v0 eq_refl). lia.
  - rewrite IH by done. by destruct (ps !! index).
Qed.

Lemma fannedOut_lookup (k : nat) (sTop sLeft : Z) (refs : list (option Viewport))
    (index i : nat) :
  fannedOut k sTop sLeft refs index !! i
  = match refs !! i with
    | Some (Some v) => Some (Some (if index + i =? k then v else mkViewport sTop sLeft))
    | other => other
    end.
Proof.
  revert index i. induction refs as [|r refs IH]; intros index [|i]; cbn [fannedOut]; try done.
  - cbn. rewrite Nat.add_0_r. destruct r; [by destruct (index =? k)|done].
  - change (fannedOut k sTop sLeft refs (S index) !! i
            = match refs !! i with
              | Some (Some v) =>
                  Some (Some (if index + S i =? k then v else mkViewport sTop sLeft))
              | other => other
              end).
    rewrite (IH (S index) i).
    by replace (S index + i) with (index + S i) by lia.
Qed.

Lemma fannedOut_idem (k : nat) (sTop sLeft : Z) (refs : list (option Viewport)) (index : nat) :
  fannedOut k sTop sLeft (fannedOut k sTop sLeft refs index) index
  = fannedOut k sTop sLeft refs index.
Proof.
  revert index. induction refs as [|r refs IH]; intros index; [done|].
  cbn [fannedOut]. rewrite IH. f_equal. destruct r; [|done]. by destruct (index =? k).
Qed.

Lemma elem_of_syncedIds (ps : list PanelData) (k : nat) (refs : list (option Viewport))
    (index : nat) (x : string) :
  x ∈ syncedIds ps k refs index
  ↔ ∃ i p v, index + i ≠ k ∧ ps !! (index + i) = Some p
       ∧ refs !! i = Some (Some v) ∧ x = id p.
Proof.
  revert index. induction refs as [|r refs IH]; intros index.
  { cbn. split; [by intros ?%elem_of_nil | by intros (i & p & v & _ & _ & ? & _)]. }
  assert (Hshift : (∃ i p v, S index + i ≠ k ∧ ps !! (S index + i) = Some p
                      ∧ refs !! i = Some (Some v) ∧ x = id p)
                   ↔ ∃ i p v, index + S i ≠ k ∧ ps !! (index + S i) = Some p
                       ∧ (r :: refs) !! S i = Some (Some v) ∧ x = id p).
  { split; intros (i & p & v & Hk & Hp & Hr & Hx); exists i, p, v.
    all: replace (index + S i) with (S index + i) in * by lia; done. }
  assert (Hrest : x ∈ syncedIds ps k refs (S index)
                  → ∃ i p v, index + i ≠ k ∧ ps !! (index + i) = Some p
                      ∧ (r :: refs) !! i = Some (Some v) ∧ x = id p).
  { intros Hx. apply IH, Hshift in Hx as (i & p & v & ?). by exists (S i), p, v. }
  assert (Hback : ∀ i p v, index + S i ≠ k → ps !! (index + S i) = Some p
                  → (r :: refs) !! S i = Some (Some v) → x = id p
                  → x ∈ syncedIds ps k refs (S index)).
  { intros i p v ? ? ? ?. apply IH, Hshift. by exists i, p, v. }
  cbn [syncedIds]. destruct r as [v0|].
  - destruct (ps !! index) as [p0|] eqn:Hp0.
    + destruct (Nat.eqb_spec index k) as [Hk|Hk].
      * split; [exact Hrest|]. intros ([|i] & p & v & Hne & Hp & Hr & Hx).
        -- rewrite Nat.add_0_r in Hne. done.
        -- by apply (Hback i p v).
      * rewrite elem_of_cons. split.
        -- intros [->|Hx]; [|by apply Hrest].
           exists 0, p0, v0. rewrite Nat.add_0_r. done.
        -- intros ([|i] & p & v & Hne & Hp & Hr & Hx).
           ++ rewrite Nat.add_0_r in Hp. left. congruence.
           ++ right. by apply (Hback i p v).
    + split; [exact Hrest|]. intros ([|i] & p & v & Hne & Hp & Hr & Hx).
      * rewrite Nat.add_0_r in Hp. congruence.
      * by apply (Hback i p v).
  - split; [exact Hrest|]. intros ([|i] & p & v & Hne & Hp & Hr & Hx); [done|].
    by apply (Hback i p v).
Qed.

(** The complete effect of a scroll event that finds the guard clear and its
    panel in the collection. *)
Lemma handleScroll_found (id' : string) (sTop sLeft : Z) (s : AppState) (k : nat) :
  isSyncingScroll s = false → refsMounted s →
  findIndex (fun p => bool_decide (id p = id')) (panels s) = Some k →
  handleScroll id' sTop sLeft s
  = Normal (withScroll true (fannedOut k sTop sLeft (panelScrollRefs s) 0)
              (syncedIds (panels s) k (panelScrollRefs s) 0)
              ((if truthyHandle (syncIndicatorTimer s)
                then List.filter (fun t => negb (t =? default 0 (syncIndicatorTimer s)))
                       (timeouts s)
                else timeouts s) ++ [nextTimerId s])
              (S (nextTimerId s)) (Some (nextTimerId s))
              (rafQueue s ++ [ReleaseScrollGuard]) s).
Proof.
  intros Hg Hm Hk. unfold handleScroll. rewrite Hg. cbn zeta. simpl_state.
  rewrite Hk, syncRefs_fannedOut by exact Hm. cbn [app]. simpl_state.
  destruct (truthyHandle (syncIndicatorTimer s)); simpl_state; by destruct s.
Qed.

Lemma findIndex_Some {A : Type} (pred : A → bool) (l : list A) (k : nat) :
  findIndex pred l = Some k → ∃ x, l !! k = Some x ∧ pred x = true.
Proof.
  revert k. induction l as [|a l IH]; intros k; [done|]. cbn [findIndex].
  destruct (pred a) eqn:Ha.
  - intros [= <-]. by exists a.
  - destruct (findIndex pred l) as [j|]; [|done]. intros [= <-].
    destruct (IH j eq_refl) as (x & ? & ?). by exists x.
Qed.

(** X5: a scroll event that finds the guard clear and its panel at index [k]
    completes; afterwards every mounted viewport other than the one at [k] is
    at the offsets of the event, the one at [k] and the unmounted slots are as
    before; the panels marked as synced are exactly the panels of the written
    viewports, never the scrolled one when the identifiers are distinct; and
    the same event repeated after the next frame leaves the viewports as
    they are. *)
Theorem handleScroll_fans_out (id' : string) (sTop sLeft : Z) (s : AppState) (k : nat) :
  isSyncingScroll s = false → refsMounted s →
  findIndex (fun p => bool_decide (id p = id')) (panels s) = Some k →
  ∃ s', handleScroll id' sTop sLeft s = Normal s'
    ∧ (∀ i, panelScrollRefs s' !! i
            = match panelScrollRefs s !! i with
              | Some (Some v) =>
                  Some (Some (if i =? k then v else mkViewport sTop sLeft))
              | other => other
              end)
    ∧ (∀ x, x ∈ syncingPanelIds s'
            ↔ ∃ i p v, i ≠ k ∧ panels s !! i = Some p
                 ∧ panelScrollRefs s !! i = Some (Some v) ∧ x = id p)
    ∧ (NoDup (id <$> panels s) → id' ∉ syncingPanelIds s')
    ∧ panelScrollRefs (dispatch (Scroll id' sTop sLeft) (dispatch AnimationFrame s'))
      = panelScrollRefs s'.
Proof.
  intros Hg Hm Hk. eexists. split; [by apply handleScroll_found|]. simpl_state.
  assert (Hids : ∀ x, x ∈ syncedIds (panels s) k (panelScrollRefs s) 0
            ↔ ∃ i p v, i ≠ k ∧ panels s !! i = Some p
                 ∧ panelScrollRefs s !! i = Some (Some v) ∧ x = id p).
  { intros x. by rewrite elem_of_syncedIds. }
  split; [intros i; by rewrite fannedOut_lookup|]. split; [exact Hids|]. split.
  - intros Hnd (i & p & v & Hne & Hp & _ & Hid)%Hids.
    destruct (findIndex_Some _ _ _ Hk) as (pk & Hpk & Hpred).
    apply bool_decide_eq_true in Hpred. apply Hne.
    eapply NoDup_lookup; [exact Hnd| |].
    + rewrite list_lookup_fmap, Hp. done.
    + rewrite list_lookup_fmap, Hpk. cbn. congruence.
  - unfold App.dispatch. rewrite animationFrame_spec. simpl_state.
    destruct (rafQueue s ++ [ReleaseScrollGuard]) eqn:Hq; [by destruct (rafQueue s)|].
    simpl_state. rewrite handleScroll_found with (k := k); simpl_state; try done.
    + cbn [afterCompletion]. simpl_state. apply fannedOut_idem.
    + intros i v. unfold refsMounted. simpl_state. rewrite fannedOut_lookup.
      destruct (panelScrollRefs s !! i) as [[v0|]|] eqn:Hi; [|done..].
      intros _. by apply (Hm i v0).
Qed.

(** *** The indicator timer *)

Lemma dispatch_timerFields (e : Event) (s : AppState) :
  isScrollEvent e = false → timerFields (dispatch e s) = timerFields s.
Proof.
  intros He. destruct e; try discriminate He; unfold App.dispatch.
  all: try (reduce_recompute; reflexivity).
  all: try (destruct (isFindVisible s); [|done]; unfold App.dispatchWidget).
  all: try (reduce_recompute; reflexivity).
  all: try reflexivity.
  - case_bool_decide; [done | reduce_recompute; reflexivity].
  - destruct (handleReplace s) as [[s'|]|] eqn:Hr; try done.
    destruct (handleReplace_withDocs s s' Hr) as (upd & -> & _). by reduce_recompute.
  - destruct (handleReplaceAll escapeRegExp s) as [[s'|]|] eqn:Hr; try done.
    destruct (handleReplaceAll_withDocs s s' Hr) as (upd & -> & _). by reduce_recompute.
  - unfold addPanel. destruct (length (panels s) <? 4); [|done]. by reduce_recompute.
  - unfold removePanel. destruct (2 <? length (panels s)); [|done]. by reduce_recompute.
  - rewrite updatePanelText_withDocs. by reduce_recompute.
  - rewrite updatePanelTitle_withDocs. by reduce_recompute.
Qed.

Lemma timerInv_frame (s s' : AppState) :
  timerFields s' = timerFields s → timerInv s → timerInv s'.
Proof. unfold timerFields, timerInv. by intros [= -> -> -> ->]. Qed.

Lemma dispatch_timerInv (e : Event) (s : AppState) : timerInv s → timerInv (dispatch e s).
Proof.
  intros Hinv. destruct (isScrollEvent e) eqn:He.
  2: { apply (timerInv_frame s); [by apply dispatch_timerFields | done]. }
  destruct Hinv as (Hnext & Hhandle & Hpending & Hids).
  destruct e; try discriminate He; unfold App.dispatch.
  - (* Scroll *)
    unfold handleScroll. destruct (isSyncingScroll s); [done|].
    cbn zeta. destruct (findIndex _ _); [|done].
    destruct (syncRefs _ _ _ _ _ _ _) as [refs [ids|]]; [|done].
    simpl_state.
    assert (Hnone : (if truthyHandle (syncIndicatorTimer s)
                     then List.filter (fun t => negb (t =? default 0 (syncIndicatorTimer s)))
                            (timeouts s)
                     else timeouts s) = []).
    { destruct Hpending as [->|(h & -> & Hh)]; [by destruct (truthyHandle _)|].
      rewrite Hh. destruct (Hhandle h Hh) as [H1 _]. cbn [truthyHandle default].
      destruct (Nat.eqb_spec h 0); [lia|]. cbn. by rewrite Nat.eqb_refl. }
    destruct (truthyHandle (syncIndicatorTimer s)); simpl_state; cbn [afterCompletion];
      simpl_state; rewrite Hnone; unfold timerInv; simpl_state.
    all: split; [lia|]; split; [intros h [= <-]; lia|]; split; [right; by eexists|done].
  - (* AnimationFrame *)
    rewrite animationFrame_spec. by destruct (rafQueue s).
  - (* TimerFired *)
    unfold timerFired. case_bool_decide as Hin; [|done]. unfold timerInv. simpl_state.
    split; [done|]. split; [done|]. split; [|done]. left.
    destruct Hpending as [Hnil|(h & Hh & _)]; [by rewrite Hnil|].
    rewrite Hh in *. apply list_elem_of_singleton in Hin as ->. cbn.
    by rewrite Nat.eqb_refl.
Qed.

(** X6: in every reachable state at most one indicator timer is pending and
    [syncIndicatorTimer] holds its handle; while a panel is marked as synced
    a timer is pending; and when the pending timer fires, no panel is marked
    and no timer is left. *)
Theorem reachable_indicator_timer (uuid0 uuid1 : string) (s : AppState) :
  reachable uuid0 uuid1 s →
  length (timeouts s) ≤ 1
  ∧ (syncingPanelIds s ≠ [] → timeouts s ≠ [])
  ∧ ∀ h, h ∈ timeouts s →
      syncIndicatorTimer s = Some h
      ∧ syncingPanelIds (dispatch (TimerFired h) s) = []
      ∧ timeouts (dispatch (TimerFired h) s) = [].
Proof.
  intros Hs.
  assert (Hinv : timerInv s).
  { induction Hs as [|e s Hs IH]; [|by apply dispatch_timerInv].
    unfold timerInv. cbn. split; [lia|]. split; [done|]. split; [by left|done]. }
  destruct Hinv as (_ & _ & Hpending & Hids).
  split; [destruct Hpending as [->|(h & -> & _)]; cbn; lia|]. split; [done|].
  intros h Hh. destruct Hpending as [Hnil|(h0 & Hh0 & Ht)].
  { rewrite Hnil in Hh. by apply elem_of_nil in Hh. }
  rewrite Hh0 in Hh. apply list_elem_of_singleton in Hh as ->. split; [done|].
  unfold App.dispatch, timerFired. rewrite bool_decide_true by (rewrite Hh0; apply list_elem_of_here).
  simpl_state. split; [done|]. rewrite Hh0. cbn. by rewrite Nat.eqb_refl.
Qed.

(** *** Editing a panel *)

Lemma mapSpread_pointwise (upd : PanelData → option PanelData) (ps : list PanelData)
    (n k : nat) (p : PanelData) :
  ps !! k = Some p →
  ∃ p', (mapSpread upd n ps).2 !! k = Some p'
    ∧ match upd p with
      | None => p' = p
      | Some q => n ≤ ref p' ∧ id p' = id q ∧ text p' = text q ∧ title p' = title q
      end.
Proof.
  intros Hk. pose proof (mapSpread_lookup upd ps n k p Hk) as Hlk.
  destruct (upd p) as [q|].
  - destruct Hlk as (r & Hr & Hlk). eexists. split; [exact Hlk|]. done.
  - by exists p.
Qed.

Lemma mapSpread_none (upd : PanelData → option PanelData) (ps : list PanelData) (n : nat) :
  (∀ p, p ∈ ps → upd p = None) → mapSpread upd n ps = (n, ps).
Proof.
  induction ps as [|p ps IH]; intros Hnone; [done|]. cbn [mapSpread].
  rewrite (Hnone p) by apply list_elem_of_here.
  rewrite IH; [done|]. intros q Hq. apply Hnone. by apply elem_of_cons; right.
Qed.

(** X7: a text edit: the panels keep their number, order, identifiers and
    titles; the panels with the identifier of the event are replaced by new
    objects with the new text; every other panel stays the object it was; and
    for an identifier that no panel carries the collection is unchanged. *)
Theorem textChange_panels (id' newText : string) (s : AppState) :
  length (panels (dispatch (TextChange id' newText) s)) = length (panels s)
  ∧ (∀ k p, panels s !! k = Some p →
       ∃ p', panels (dispatch (TextChange id' newText) s) !! k = Some p'
         ∧ id p' = id p ∧ title p' = title p
         ∧ (id p = id' → text p' = newText ∧ nextRef s ≤ ref p')
         ∧ (id p ≠ id' → p' = p))
  ∧ (id' ∉ id <$> panels s →
     panels (dispatch (TextChange id' newText) s) = panels s).
Proof.
  unfold App.dispatch. rewrite updatePanelText_withDocs. reduce_recompute.
  split; [apply mapSpread_length|]. split.
  - intros k p Hk.
    destruct (mapSpread_pointwise
                (fun p => if decide (id p = id')
                          then Some (mkPanel (ref p) (id p) newText (title p))
                          else None) (panels s) (nextRef s) k p Hk) as (p' & Hp' & Hupd).
    exists p'. split; [done|]. cbn beta in Hupd. case_decide.
    + cbn in Hupd. destruct Hupd as (? & ? & ? & ?). by repeat split.
    + subst p'. by repeat split.
  - intros Hnot. rewrite mapSpread_none; [done|].
    intros p Hp. cbn beta. rewrite decide_False; [done|].
    intros Heq. apply Hnot. rewrite <- Heq. by apply list_elem_of_fmap_2.
Qed.

Lemma mapSpread_id_text (upd : PanelData → option PanelData) (ps : list PanelData) (n : nat) :
  (∀ p q, upd p = Some q → id q = id p ∧ text q = text p) →
  (fun p => (id p, text p)) <$> (mapSpread upd n ps).2 = (fun p => (id p, text p)) <$> ps.
Proof.
  intros Hupd. revert n. induction ps as [|p ps IH]; intros n; [done|].
  cbn [mapSpread]. destruct (upd p) as [q|] eqn:Hq.
  - specialize (IH (S n)). destruct (mapSpread upd (S n) ps). cbn in *.
    destruct (Hupd p q Hq) as [-> ->]. by rewrite IH.
  - specialize (IH n). destruct (mapSpread upd n ps). cbn in *. by rewrite IH.
Qed.

(** X8: a title edit re-runs the Find Matches effect although no text has
    changed: in a state whose match list is current, the match list stays
    the same and the active index goes back to the first match (or to the
    sentinel when there is none). *)
Theorem titleChange_resets_active_index (id' newTitle : string) (s : AppState) :
  matches s = matches (recompute s) →
  matches (dispatch (TitleChange id' newTitle) s) = matches s
  ∧ activeMatchIndex (dispatch (TitleChange id' newTitle) s) = resetIndex (matches s).
Proof.
  intros Hup. unfold App.dispatch.
  assert (Hm : matches (recompute (updatePanelTitle id' newTitle s)) = matches s).
  { rewrite Hup. apply recompute_matches_ext. rewrite updatePanelTitle_withDocs.
    unfold findInputs. simpl_state. f_equal. apply mapSpread_id_text.
    intros p q. case_decide; [|done]. by intros [= <-]. }
  split; [done|]. by rewrite recompute_activeMatchIndex, Hm.
Qed.

(** *** Adding and removing panels *)

(** X12: adding a panel while there is room appends a panel with the given
    identifier, an empty text and the title "Comparison n", n being the
    number of panels before; removing a panel right afterwards gives back
    the collection as it was, object by object. *)
Theorem addPanel_then_removePanel (uuid : string) (s : AppState) :
  2 ≤ length (panels s) → length (panels s) < 4 →
  panels (dispatch (AddPanel uuid) s)
  = panels s ++ [mkPanel (nextRef s) uuid "" ("Comparison " +:+ pretty (length (panels s)))]
  ∧ panels (dispatch RemovePanel (dispatch (AddPanel uuid) s)) = panels s.
Proof.
  intros H2 H4.
  assert (Hadd : panels (dispatch (AddPanel uuid) s)
                 = panels s ++ [mkPanel (nextRef s) uuid ""
                                  ("Comparison " +:+ pretty (length (panels s)))]).
  { unfold App.dispatch, addPanel. rewrite (proj2 (Nat.ltb_lt _ _) H4).
    by reduce_recompute. }
  split; [done|].
  remember (dispatch (AddPanel uuid) s) as t eqn:Ht.
  unfold App.dispatch, removePanel. rewrite Hadd, length_app. cbn [length].
  destruct (Nat.ltb_spec 2 (length (panels s) + 1)); [|lia].
  reduce_recompute. unfold sliceButLast. rewrite length_app. cbn [length].
  replace (length (panels s) + 1 - 1) with (length (panels s)) by lia.
  by rewrite take_app_length.
Qed.

End Machine.

End AppInvFacts.

Module AppViewFacts.
Import App AppInv AppView AppFacts.

(** *** The matches handed to each panel *)

Lemma panelMatches_init (ps : list PanelData) (acc : gmap string (list Match)) (key : string) :
  foldl (fun result p => <[id p := []]> result) acc ps !! key
  = if bool_decide (key ∈ id <$> ps) then Some [] else acc !! key.
Proof.
  revert acc. induction ps as [|p ps IH]; intros acc; [done|].
  cbn [foldl fmap list_fmap]. rewrite IH.
  destruct (decide (key = id p)) as [->|Hne].
  - rewrite lookup_insert_eq. rewrite (bool_decide_true (_ ∈ _ :: _)) by apply list_elem_of_here.
    by case_bool_decide.
  - rewrite lookup_insert_ne by done.
    case_bool_decide as Hin.
    + rewrite bool_decide_true; [done|]. by apply elem_of_cons; right.
    + rewrite bool_decide_false; [done|]. by intros [?|?]%elem_of_cons.
Qed.

Lemma panelMatches_push (ms : list Match) (acc : gmap string (list Match)) (key : string) :
  foldl (fun result m =>
           match result !! panelId m with
           | Some arr => <[panelId m := arr ++ [m]]> result
           | None => result
           end) acc ms !! key
  = (fun arr => arr ++ List.filter (fun m => bool_decide (panelId m = key)) ms) <$> acc !! key.
Proof.
  revert acc. induction ms as [|m ms IH]; intros acc.
  { cbn. destruct (acc !! key); cbn; [by rewrite app_nil_r|done]. }
  cbn [foldl List.filter]. rewrite IH.
  destruct (decide (panelId m = key)) as [<-|Hne].
  - rewrite bool_decide_true by done.
    destruct (acc !! panelId m) as [arr|] eqn:Harr.
    + rewrite lookup_insert_eq. cbn. by rewrite <- app_assoc.
    + by rewrite Harr.
  - rewrite bool_decide_false by done.
    destruct (acc !! panelId m) as [arr|]; [by rewrite lookup_insert_ne|done].
Qed.

Lemma panelMatches_lookup (ps : list PanelData) (ms : list Match) (key : string) :
  panelMatches ps ms !! key
  = if bool_decide (key ∈ id <$> ps)
    then Some (List.filter (fun m => bool_decide (panelId m = key)) ms)
    else None.
Proof.
  unfold panelMatches. rewrite panelMatches_push, panelMatches_init.
  rewrite lookup_empty. by case_bool_decide.
Qed.

(** X9: [panelMatches] has exactly the panel identifiers as keys, and under
    each of them the matches with that [panelId], in the order of the match
    list; a match whose [panelId] is no panel's identifier is dropped. *)
Theorem panelMatches_groups (ps : list PanelData) (ms : list Match) (key : string) :
  panelMatches ps ms !! key
  = if bool_decide (key ∈ id <$> ps)
    then Some (List.filter (fun m => bool_decide (panelId m = key)) ms)
    else None.
Proof.
  unfold panelMatches.
  rewrite panelMatches_push, panelMatches_init, lookup_empty.
  case_bool_decide; [|done]. cbn [fmap option_fmap option_map]. done.
Qed.

Section View.
Context `{RegexEngine} (escapeRegExp : string → string).

Lemma filter_panelScan_same (regex : RegExp) (p : PanelData) :
  List.filter (fun m => bool_decide (panelId m = id p)) (panelScan regex p)
  = panelScan regex p.
Proof.
  assert (Hall : ∀ l : list Match, (∀ m, m ∈ l → panelId m = id p) →
            List.filter (fun m => bool_decide (panelId m = id p)) l = l).
  { induction l as [|m l IH]; intros Hl; [done|]. cbn [List.filter].
    rewrite bool_decide_true by apply Hl, list_elem_of_here.
    rewrite IH; [done|]. intros m' Hm'. apply Hl. by apply elem_of_cons; right. }
  apply Hall. intros m Hm. by destruct (AppInvFacts.elem_of_panelScan regex p m Hm).
Qed.

Lemma filter_panelScan_other (regex : RegExp) (p : PanelData) (key : string) :
  id p ≠ key →
  List.filter (fun m => bool_decide (panelId m = key)) (panelScan regex p) = [].
Proof.
  intros Hne.
  assert (Hall : ∀ l : list Match, (∀ m, m ∈ l → panelId m = id p) →
            List.filter (fun m => bool_decide (panelId m = key)) l = []).
  { induction l as [|m l IH]; intros Hl; [done|]. cbn [List.filter].
    rewrite bool_decide_false.
    - apply IH. intros m' Hm'. apply Hl. by apply elem_of_cons; right.
    - rewrite (Hl m) by apply list_elem_of_here. done. }
  apply Hall. intros m Hm. by destruct (AppInvFacts.elem_of_panelScan regex p m Hm).
Qed.

Lemma filter_scan (regex : RegExp) (ps : list PanelData) (p : PanelData) :
  NoDup (id <$> ps) → p ∈ ps →
  List.filter (fun m => bool_decide (panelId m = id p)) (ps ≫= panelScan regex)
  = panelScan regex p.
Proof.
  induction ps as [|p0 ps IH]; intros Hnd Hp; [by apply elem_of_nil in Hp|].
  cbn [fmap list_fmap] in Hnd. apply NoDup_cons in Hnd as [Hp0 Hnd].
  cbn [mbind list_bind]. rewrite List.filter_app.
  apply elem_of_cons in Hp as [->|Hp].
  - rewrite filter_panelScan_same.
    assert (Hrest : ∀ l, (∀ q, q ∈ l → id q ≠ id p0) →
              List.filter (fun m => bool_decide (panelId m = id p0)) (l ≫= panelScan regex)
              = []).
    { induction l as [|q l IHl]; intros Hl; [done|]. cbn [mbind list_bind].
      rewrite List.filter_app, filter_panelScan_other by apply Hl, list_elem_of_here.
      apply IHl. intros q' Hq'. apply Hl. by apply elem_of_cons; right. }
    rewrite Hrest; [by rewrite app_nil_r|].
    intros q Hq Heq. apply Hp0. rewrite <- Heq. by apply list_elem_of_fmap_2.
  - rewrite filter_panelScan_other, IH by
      (done || (intros Heq; apply Hp0; rewrite Heq; by apply list_elem_of_fmap_2)).
    done.
Qed.

(** X10: with distinct identifiers, when the match list is the scan of the
    panels, every panel is handed exactly the matches of its own text, in
    scan order. *)
Theorem matchesProp_own_matches (s : AppState) (regex : RegExp) (p : PanelData) :
  NoDup (id <$> panels s) →
  matches s = panels s ≫= panelScan regex →
  p ∈ panels s →
  matchesProp s p = panelScan regex p.
Proof.
  intros Hnd Hms Hp. unfold matchesProp. rewrite panelMatches_lookup.
  rewrite bool_decide_true by (by apply list_elem_of_fmap_2). cbn [default].
  rewrite Hms. by apply filter_scan.
Qed.

(** *** The active match handed to a panel *)

(** X11: the active match is handed to a panel only if it is one of the matches
    handed to that panel; all panels that get it carry the identifier of the
    match; and in a reachable state with a non-empty match list some panel
    of the collection gets it. *)
Theorem activeMatchProp_consistent (s : AppState) :
  (∀ p m, p ∈ panels s → activeMatchProp s p = Some m →
     m ∈ matchesProp s p ∧ panelId m = id p
     ∧ jsIndex (matches s) (activeMatchIndex s) = Some m)
  ∧ (∀ p p' m m', activeMatchProp s p = Some m → activeMatchProp s p' = Some m' →
       m = m' ∧ id p = id p')
  ∧ (∀ uuid0 uuid1, reachable escapeRegExp uuid0 uuid1 s → matches s ≠ [] →
       ∃ p m, p ∈ panels s ∧ activeMatchProp s p = Some m).
Proof.
  split; [|split].
  - intros p m Hp. unfold activeMatchProp.
    destruct (jsIndex (matches s) (activeMatchIndex s)) as [m0|] eqn:Hidx; [|done].
    case_bool_decide as Hid; [|done]. intros [= <-]. split; [|done].
    unfold matchesProp. rewrite panelMatches_lookup.
    rewrite bool_decide_true by (by apply list_elem_of_fmap_2). cbn [default].
    destruct (AppInvFacts.jsIndex_Some _ _ _ Hidx) as (z & _ & _ & Hlk).
    apply list_elem_of_In, List.filter_In. split.
    + apply list_elem_of_In. by eapply list_elem_of_lookup_2.
    + by apply bool_decide_eq_true.
  - intros p p' m m'. unfold activeMatchProp.
    destruct (jsIndex (matches s) (activeMatchIndex s)) as [m0|]; [|done].
    repeat case_bool_decide; try done. intros [= <-] [= <-]. split; [done|congruence].
  - intros uuid0 uuid1 Hs Hne.
    destruct (AppInvFacts.reachable_find_invariants escapeRegExp uuid0 uuid1 s Hs)
      as (_ & Hms & Hi).
    unfold indexInv in Hi. destruct (matches s) as [|m0 ms] eqn:Hm; [done|].
    rewrite <- Hm in *. destruct Hi as (z & Hz & Hr).
    assert (Hlk : is_Some (matches s !! Z.to_nat z)) by (apply lookup_lt_is_Some; lia).
    destruct Hlk as [m Hlk].
    destruct (Hms m) as (p & Hp & Hid & _); [by eapply list_elem_of_lookup_2|].
    exists p, m. split; [done|]. unfold activeMatchProp. rewrite Hz. cbn [jsIndex].
    destruct (Z.leb_spec 0 z); [|lia]. rewrite Hlk. by rewrite bool_decide_true.
Qed.

End View.

(** *** The diff results *)

(** X13: the Diff Calculation effect produces one entry per panel; the entry of
    the base panel is null; with at least two panels every other entry is
    the diff of the base panel's text against that panel's text; with fewer
    than two panels every entry is null. *)
Theorem diffEffect_entries (calculateDiff : string → string → list Diff.DiffLine)
    (ps : list PanelData) :
  length (diffEffect calculateDiff ps) = length ps
  ∧ (∀ p0, ps !! 0 = Some p0 → diffEffect calculateDiff ps !! 0 = Some None)
  ∧ (∀ k p0 p, 2 ≤ length ps → 0 < k → ps !! 0 = Some p0 → ps !! k = Some p →
       diffEffect calculateDiff ps !! k = Some (Some (calculateDiff (text p0) (text p))))
  ∧ (length ps < 2 → ∀ k, diffResultProp (diffEffect calculateDiff ps) k = None).
Proof.
  unfold diffEffect. destruct (Nat.ltb_spec (length ps) 2) as [Hlt|Hge].
  - split; [by rewrite length_fmap|].
    split; [intros p0 Hp0; by rewrite list_lookup_fmap, Hp0|]. split; [lia|].
    intros _ k. unfold diffResultProp. rewrite list_lookup_fmap.
    by destruct (ps !! k).
  - cbn zeta. split.
    { cbn [length]. rewrite length_drop, length_imap. lia. }
    split; [done|]. split; [|lia].
    intros k p0 p _ Hk Hp0 Hp. destruct k as [|k]; [lia|].
    cbn [lookup list_lookup]. change (drop 1 ?l !! k) with (drop 1 l !! k).
    rewrite lookup_drop. cbn [Nat.add]. rewrite list_lookup_imap, Hp, Hp0. done.
Qed.

(** *** The grid *)


End AppViewFacts.

Module EditorPanelFacts.
Import Diff EditorPanel.

(** *** Languages *)

Lemma lowerChar_idem (c : ascii) : lowerChar (lowerChar c) = lowerChar c.
Proof. by destruct c as [[] [] [] [] [] [] [] []]. Qed.

Lemma toLowerCase_idem (str : string) : toLowerCase (toLowerCase str) = toLowerCase str.
Proof. induction str as [|c str IH]; [done|]. cbn. by rewrite lowerChar_idem, IH. Qed.

(** Two suffixes of one string of which neither is a suffix of the other
    cannot both be present. *)
Lemma endsWith_exclusive (str a b : string) :
  endsWith str a = true → endsWith a b = false → endsWith b a = false →
  endsWith str b = false.
Proof.
  unfold endsWith. intros Ha%bool_decide_eq_true Hab%bool_decide_eq_false
    Hba%bool_decide_eq_false.
  apply bool_decide_eq_false. intros Hb.
  by destruct (suffix_weak_total _ _ _ Ha Hb).
Qed.

Ltac decide_suffixes H :=
  repeat match goal with
  | |- context [endsWith ?str ?b] =>
      first [ rewrite H
            | rewrite (endsWith_exclusive str _ b H eq_refl eq_refl) ]
  end.

(** X15: the language depends on the title only up to the case of its letters; it
    is always one of seven names; and each of the ten known suffixes selects
    its language, no test for another suffix getting in its way. *)
Theorem getLanguageFromTitle_suffixes (title : string) :
  getLanguageFromTitle (toLowerCase title) = getLanguageFromTitle title
  ∧ getLanguageFromTitle title
    ∈ ["tsx"; "typescript"; "jsx"; "javascript"; "css"; "markup"; "json"]
  ∧ ∀ suffix language,
      (suffix, language) ∈ knownSuffixes →
      endsWith (toLowerCase title) suffix = true →
      getLanguageFromTitle title = language.
Proof.
  split; [|split].
  - unfold getLanguageFromTitle. by rewrite toLowerCase_idem.
  - unfold getLanguageFromTitle. cbn zeta.
    repeat match goal with
    | |- context [if ?c then _ else _] => destruct c
    end; set_solver.
  - intros suffix language Hin Hends. unfold knownSuffixes in Hin.
    unfold getLanguageFromTitle. cbn zeta.
    repeat (apply elem_of_cons in Hin as [[= -> ->]|Hin];
            [by decide_suffixes Hends|]).
    by apply elem_of_nil in Hin.
Qed.

Lemma getLanguageFromTitle_suffixes_witness :
  getLanguageFromTitle "Main.TSX" = "tsx".
Proof.
  apply (proj2 (proj2 (getLanguageFromTitle_suffixes "Main.TSX")) ".tsx" "tsx").
  - apply list_elem_of_here.
  - reflexivity.
Defined.

(** *** Lines *)

Lemma split_cons (sep : ascii) (str : string) :
  ∃ piece pieces, split sep str = piece :: pieces.
Proof.
  destruct str as [|c str]; [by eexists _, _|]. cbn [split].
  case_bool_decide; [by eexists _, _|].
  destruct (split sep str); by eexists _, _.
Qed.

Lemma concat_cons_cons (sep piece piece' : string) (pieces : list string) :
  String.concat sep (piece :: piece' :: pieces)
  = piece +:+ sep +:+ String.concat sep (piece' :: pieces).
Proof. reflexivity. Qed.

Lemma concat_String (sep : string) (c : ascii) (piece : string) (pieces : list string) :
  String.concat sep (String c piece :: pieces)
  = String c (String.concat sep (piece :: pieces)).
Proof. by destruct pieces. Qed.

(** Splitting a text at the line feeds always gives at least one line, no
    line contains a line feed, there is one line more than there are line
    feeds, and joining the lines with line feeds gives back the text. *)
Theorem split_join (str : string) :
  String.concat (String newline "") (split newline str) = str
  ∧ length (split newline str)
    = S (length (List.filter (fun c => bool_decide (c = newline))
                   (list_ascii_of_string str)))
  ∧ ∀ line, line ∈ split newline str → newline ∉ list_ascii_of_string line.
Proof.
  induction str as [|c str (IHjoin & IHlen & IHin)].
  { cbn. split; [done|]. split; [done|].
    intros line ->%list_elem_of_singleton. by intros ?%elem_of_nil. }
  cbn [split list_ascii_of_string List.filter].
  destruct (split_cons newline str) as (piece & pieces & Hsplit).
  rewrite Hsplit in *. case_bool_decide as Hc.
  - subst c. split; [|split].
    + by rewrite concat_cons_cons, IHjoin.
    + cbn [length] in *. lia.
    + intros line [->|Hin]%elem_of_cons; [by intros ?%elem_of_nil | by apply IHin].
  - split; [|split].
    + by rewrite concat_String, IHjoin.
    + done.
    + intros line [->|Hin]%elem_of_cons.
      * cbn. intros [?|?]%elem_of_cons; [done|].
        by apply (IHin piece); [apply list_elem_of_here|].
      * apply IHin. by apply elem_of_cons; right.
Qed.

(** *** Escaping *)

Lemma list_ascii_app (a b : string) :
  list_ascii_of_string (a +:+ b) = list_ascii_of_string a ++ list_ascii_of_string b.
Proof.
  induction a as [|c a IH]; [done|].
  change (c :: list_ascii_of_string (a +:+ b)
          = c :: (list_ascii_of_string a ++ list_ascii_of_string b)).
  by rewrite IH.
Qed.

Lemma elem_of_replaceChar (c : ascii) (by_ str : string) (y : ascii) :
  y ∈ list_ascii_of_string (replaceChar c by_ str)
  ↔ (y ∈ list_ascii_of_string by_ ∧ c ∈ list_ascii_of_string str)
    ∨ (y ≠ c ∧ y ∈ list_ascii_of_string str).
Proof.
  induction str as [|x str IH].
  { cbn. split; [by intros ?%elem_of_nil|]. intros [[_ ?%elem_of_nil]|[_ ?%elem_of_nil]]; done. }
  cbn [replaceChar list_ascii_of_string]. case_bool_decide as Hx.
  - subst x. rewrite list_ascii_app, elem_of_app, IH, !elem_of_cons. intuition congruence.
  - cbn [list_ascii_of_string]. rewrite !elem_of_cons, IH. intuition congruence.
Qed.

Lemma replaceChar_nonempty (c : ascii) (by_ str : string) :
  by_ ≠ "" → str ≠ "" → replaceChar c by_ str ≠ "".
Proof.
  intros Hby Hstr. destruct str as [|x str]; [done|]. cbn [replaceChar].
  case_bool_decide; [|done]. by destruct by_.
Qed.

Ltac not_in_literal H :=
  cbn in H;
  repeat (apply elem_of_cons in H as [H|H]; [discriminate H|]);
  apply elem_of_nil in H.

(** The escaped text contains neither ["<"] nor [">"], keeps every other
    character of the line that is not ["&"], and is empty only for an empty
    line. *)
Theorem escapeHtml_no_markup (lineContent : string) :
  let markup := list_ascii_of_string (escapeHtml lineContent) in
  (ltChar ∉ markup) ∧ (gtChar ∉ markup)
  ∧ (∀ c, c ∈ list_ascii_of_string lineContent →
          c ≠ ampChar → c ≠ ltChar → c ≠ gtChar → c ∈ markup)
  ∧ (lineContent ≠ "" → escapeHtml lineContent ≠ "").
Proof.
  cbn zeta. unfold escapeHtml. fold ampChar ltChar gtChar.
  split; [|split; [|split]].
  - rewrite !elem_of_replaceChar.
    intros [[Hin _]|[_ [[Hin _]|[Hne _]]]]; [by not_in_literal Hin.. | done].
  - rewrite !elem_of_replaceChar.
    intros [[Hin _]|[Hne _]]; [by not_in_literal Hin | done].
  - intros c Hc Hamp Hlt Hgt. rewrite !elem_of_replaceChar. tauto.
  - intros Hne. by repeat apply replaceChar_nonempty.
Qed.

(** *** The highlight overlay *)

Lemma append_String (c : ascii) (a b : string) : String c a +:+ b = String c (a +:+ b).
Proof. reflexivity. Qed.

Lemma append_nil_r (a : string) : a +:+ "" = a.
Proof. induction a as [|c a IH]; [done|]. by rewrite append_String, IH. Qed.

Lemma append_assoc (a b c : string) : (a +:+ b) +:+ c = a +:+ (b +:+ c).
Proof. induction a as [|x a IH]; [done|]. by rewrite !append_String, IH. Qed.

Lemma substring_zero (a : nat) (str : string) : String.substring a 0 str = "".
Proof.
  revert a. induction str as [|c str IH]; intros [|a]; try done. apply IH.
Qed.

Lemma substring_app (str : string) (a n m : nat) :
  String.substring a n str +:+ String.substring (a + n) m str
  = String.substring a (n + m) str.
Proof.
  revert a n. induction str as [|c str IH]; intros a n.
  - destruct a, n, m; reflexivity.
  - destruct a as [|a].
    + destruct n as [|n]; [reflexivity|].
      change (String c (String.substring 0 n str +:+ String.substring (0 + n) m str)
              = String c (String.substring 0 (n + m) str)).
      by rewrite IH.
    + apply (IH a n).
Qed.

Lemma substring_full (str : string) : String.substring 0 (String.length str) str = str.
Proof.
  induction str as [|c str IH]; [done|].
  change (String c (String.substring 0 (String.length str) str) = String c str).
  by rewrite IH.
Qed.

Lemma jsSubstring_ordered (a b : nat) (str : string) :
  a ≤ b → jsSubstring a b str = String.substring a (b - a) str.
Proof.
  intros Hab. unfold jsSubstring. by rewrite Nat.min_l, Nat.max_r by lia.
Qed.

Lemma overlayText_snoc (parts : list Part) (part : Part) :
  overlayText (parts ++ [part]) = overlayText parts +:+ partText part.
Proof.
  induction parts as [|p parts IH]; cbn [app overlayText foldr].
  - by rewrite append_nil_r.
  - fold (overlayText (parts ++ [part])). fold (overlayText parts).
    by rewrite IH, append_assoc.
Qed.

Lemma overlayLoop_text (text : string) (activeMatch : option App.Match)
    (ms : list App.Match) (i lastIndex : nat) (parts : list Part) :
  placed text lastIndex ms → lastIndex ≤ String.length text →
  overlayText (overlayLoop text activeMatch ms i lastIndex parts).1
    +:+ jsSubstringFrom (overlayLoop text activeMatch ms i lastIndex parts).2 text
  = overlayText parts +:+ jsSubstringFrom lastIndex text
  ∧ (overlayLoop text activeMatch ms i lastIndex parts).2 ≤ String.length text
  ∧ length (List.filter isMark (overlayLoop text activeMatch ms i lastIndex parts).1)
    = length (List.filter isMark parts) + length ms.
Proof.
  revert i lastIndex parts. induction ms as [|m ms IH]; intros i lastIndex parts Hpl Hlen.
  { cbn. split; [done|]. split; [done|lia]. }
  destruct Hpl as (Hs & He & Hb & Hpl). cbn [overlayLoop]. cbn zeta.
  set (parts1 := if lastIndex <? App.start m
                 then parts ++ [Plain (jsSubstring lastIndex (App.start m) text)]
                 else parts).
  set (mark := Mark i _ _).
  destruct (IH (S i) (App.end_ m) (parts1 ++ [mark]) Hpl Hb) as (Htext & Hlast & Hmarks).
  split; [|split; [done|]].
  - rewrite Htext, overlayText_snoc. unfold mark. cbn [partText].
    assert (H1 : overlayText parts1
                 = overlayText parts
                   +:+ String.substring lastIndex (App.start m - lastIndex) text).
    { unfold parts1. destruct (Nat.ltb_spec lastIndex (App.start m)).
      - rewrite overlayText_snoc. cbn [partText]. by rewrite jsSubstring_ordered by lia.
      - replace (App.start m - lastIndex) with 0 by lia.
        by rewrite substring_zero, append_nil_r. }
    rewrite H1, jsSubstring_ordered by lia. unfold jsSubstringFrom.
    rewrite !append_assoc. f_equal.
    pose proof (substring_app text (App.start m) (App.end_ m - App.start m)
                  (String.length text - App.end_ m)) as E1.
    replace (App.start m + (App.end_ m - App.start m)) with (App.end_ m) in E1 by lia.
    pose proof (substring_app text lastIndex (App.start m - lastIndex)
                  (String.length text - App.start m)) as E2.
    replace (lastIndex + (App.start m - lastIndex)) with (App.start m) in E2 by lia.
    rewrite E1.
    replace (App.end_ m - App.start m + (String.length text - App.end_ m))
      with (String.length text - App.start m) by lia.
    rewrite E2. f_equal. lia.
  - rewrite Hmarks. rewrite List.filter_app, length_app. cbn [List.filter isMark mark length].
    assert (H2 : length (List.filter isMark parts1) = length (List.filter isMark parts)).
    { unfold parts1. destruct (lastIndex <? App.start m); [|done].
      rewrite List.filter_app, length_app. cbn. lia. }
    unfold mark. cbn. lia.
Qed.

Lemma sortByStart_placed (text : string) (lastIndex : nat) (ms : list App.Match) :
  placed text lastIndex ms → sortByStart ms = ms.
Proof.
  revert lastIndex. induction ms as [|m ms IH]; intros lastIndex Hpl; [done|].
  destruct Hpl as (_ & He & _ & Hpl). cbn [sortByStart]. rewrite (IH _ Hpl).
  destruct ms as [|m' ms]; [done|]. cbn [insertByStart].
  destruct Hpl as (Hs' & _). destruct (Nat.leb_spec (App.start m) (App.start m')); [done|lia].
Qed.

(** X16: for matches that lie one after the other inside the text, the parts of
    the overlay, read one after the other, are the text itself, and there is
    one [mark] element per match; without matches the overlay is the text. *)
Theorem HighlightOverlay_text (text : string) (matches : list App.Match)
    (activeMatch : option App.Match) :
  placed text 0 matches →
  overlayText (HighlightOverlay text matches activeMatch) = text
  ∧ length (List.filter isMark (HighlightOverlay text matches activeMatch))
    = length matches.
Proof.
  intros Hpl. unfold HighlightOverlay. cbn zeta.
  rewrite (sortByStart_placed text 0 matches Hpl).
  destruct matches as [|m ms].
  { cbn [length Nat.eqb overlayText foldr partText List.filter isMark].
    split; [apply append_nil_r | done]. }
  cbn [length Nat.eqb].
  destruct (overlayLoop_text text activeMatch (m :: ms) 0 0 [] Hpl ltac:(lia))
    as (Htext & Hlast & Hmarks).
  destruct (overlayLoop text activeMatch (m :: ms) 0 0 []) as [parts lastIndex].
  cbn [fst snd overlayText foldr List.filter length] in *.
  unfold jsSubstringFrom in Htext at 2. rewrite Nat.sub_0_r, substring_full in Htext.
  change ("" +:+ text) with text in Htext.
  destruct (Nat.ltb_spec lastIndex (String.length text)).
  - rewrite overlayText_snoc. cbn [partText]. split; [done|].
    rewrite List.filter_app, length_app. cbn. lia.
  - split; [|done]. rewrite <- Htext. unfold jsSubstringFrom.
    replace (String.length text - lastIndex) with 0 by lia.
    by rewrite substring_zero, append_nil_r.
Qed.

Lemma HighlightOverlay_text_witness :
  overlayText (HighlightOverlay "foo bar baz"
                 [App.mkMatch "d1" 4 7; App.mkMatch "d1" 8 11]
                 (Some (App.mkMatch "d1" 8 11)))
  = "foo bar baz".
Proof.
  refine (proj1 (HighlightOverlay_text "foo bar baz"
                   [App.mkMatch "d1" 4 7; App.mkMatch "d1" 8 11]
                   (Some (App.mkMatch "d1" 8 11)) _)).
  cbn. lia.
Defined.

(** *** The rendered lines *)

Section RenderFacts.
Variable Grammar : Type.
Variable prismGrammar : string → option Grammar.
Variable prismHighlight : string → Grammar → string → string.

Local Abbreviation renderLines := (renderLines Grammar prismGrammar prismHighlight).
Local Abbreviation renderContent := (renderContent Grammar prismGrammar prismHighlight).

Lemma renderLines_diff (language : string) (d : list DiffLine) (b c : nat) :
  length (renderLines language false d b c) = length d
  ∧ omap (fun rl => k ← baseNumber rl.1; Some (k, text rl.2))
      (zip (renderLines language false d b c) d)
    = zip (seq (S b) (length (baseLines d))) (baseLines d)
  ∧ omap (fun rl => k ← currentNumber rl.1; Some (k, text rl.2))
      (zip (renderLines language false d b c) d)
    = zip (seq (S c) (length (variantLines d))) (variantLines d).
Proof.
  revert b c. induction d as [|[ty tx] d IH]; intros b c; [done|].
  rewrite DiffFacts.baseLines_cons, DiffFacts.variantLines_cons.
  cbn [renderLines]. cbn zeta.
  destruct ty; cbn [isAdded isRemoved isUnchanged type text orb].
  - destruct (IH b (S c)) as (Hl & Hb & Hc).
    cbn [length zip zip_with omap list_omap baseNumber currentNumber fst snd mbind
         option_bind seq].
    rewrite Hl, Hb, Hc. done.
  - destruct (IH (S b) c) as (Hl & Hb & Hc).
    cbn [length zip zip_with omap list_omap baseNumber currentNumber fst snd mbind
         option_bind seq].
    rewrite Hl, Hb, Hc. done.
  - destruct (IH (S b) (S c)) as (Hl & Hb & Hc).
    cbn [length zip zip_with omap list_omap baseNumber currentNumber fst snd mbind
         option_bind seq].
    rewrite Hl, Hb, Hc. done.
Qed.

(** X17: a panel with a diff renders one row per diff line; the rows with a
    number in the base column are those of the Removed and Unchanged lines,
    numbered 1, 2, ... in order, and the rows with a number in the other
    column are those of the Added and Unchanged lines, numbered likewise. *)
Theorem renderContent_diff_numbers (title text' : string) (d : list DiffLine) :
  let rows := renderContent title text' (Some d) in
  length rows = length d
  ∧ omap (fun rl => k ← baseNumber rl.1; Some (k, text rl.2)) (zip rows d)
    = zip (seq 1 (length (baseLines d))) (baseLines d)
  ∧ omap (fun rl => k ← currentNumber rl.1; Some (k, text rl.2)) (zip rows d)
    = zip (seq 1 (length (variantLines d))) (variantLines d).
Proof.
  cbn zeta. unfold EditorPanel.renderContent. cbn zeta.
  destruct (renderLines_diff (getLanguageFromTitle title) d 0 0) as (Hlen & Hbase & Hcur).
  split; [exact Hlen|]. split; [exact Hbase | exact Hcur].
Qed.

Lemma renderLines_base (language : string) (lines : list DiffLine) (b c : nat) :
  baseNumber <$> renderLines language true lines b c = Some <$> seq (S b) (length lines)
  ∧ Forall (fun r => currentNumber r = None ∧ symbol r = " "
                     ∧ symbolClass r = "text-transparent")
      (renderLines language true lines b c).
Proof.
  revert b c. induction lines as [|line lines IH]; intros b c; [done|].
  cbn [renderLines]. cbn zeta. destruct (IH (S b) c) as [Hn Hall].
  split.
  - cbn [fmap list_fmap baseNumber length seq]. by rewrite Hn.
  - apply Forall_cons. by split.
Qed.

(** X18: the base panel renders one row per line of its text, at least one, with
    the numbers 1, 2, ... in the base column, nothing in the other column,
    a blank symbol and no background. *)
Theorem renderContent_base (title text' : string) :
  let rows := renderContent title text' None in
  rows ≠ []
  ∧ length rows
    = S (length (List.filter (fun c => bool_decide (c = newline))
                   (list_ascii_of_string text')))
  ∧ baseNumber <$> rows = Some <$> seq 1 (length rows)
  ∧ Forall (fun r => currentNumber r = None ∧ symbol r = " "
                     ∧ symbolClass r = "text-transparent" ∧ rowStyle r = None) rows.
Proof.
  cbn zeta. unfold EditorPanel.renderContent. cbn zeta.
  destruct (split_join text') as (_ & Hlen & _).
  set (lines := (fun line => mkDiffLine Unchanged line) <$> split newline text').
  destruct (renderLines_base (getLanguageFromTitle title) lines 0 0) as [Hn Hall].
  assert (Hrows : length (renderLines (getLanguageFromTitle title) true lines 0 0)
                  = length lines).
  { rewrite <- (length_fmap baseNumber), Hn, length_fmap. apply length_seq. }
  assert (Hlines : length lines = length (split newline text')) by apply length_fmap.
  split; [|split; [|split]].
  - intros Hnil. rewrite Hnil in Hrows. cbn in Hrows. lia.
  - lia.
  - by rewrite Hn, Hrows.
  - assert (Hstyle : ∀ ls b c, Forall (fun l => type l = Unchanged) ls →
              Forall (fun r => rowStyle r = None)
                (renderLines (getLanguageFromTitle title) true ls b c)).
    { induction ls as [|l ls IHls]; intros b c Hls; [constructor|].
      apply Forall_cons in Hls as [Hl Hls]. cbn [EditorPanel.renderLines]. cbn zeta.
      apply Forall_cons. split; [cbn; by rewrite Hl | by apply IHls]. }
    specialize (Hstyle lines 0 0).
    eapply Forall_impl; [apply Forall_and; split; [exact Hall | apply Hstyle]|].
    + unfold lines. apply Forall_fmap. by apply Forall_true.
    + intros r [(? & ? & ?) ?]. done.
Qed.

(** X19: without a grammar for the language, no rendered line contains ["<"] or
    [">"], and no line is rendered empty. *)
Theorem renderContent_escaped (title text' : string) (diffResult : option (list DiffLine)) :
  prismGrammar (getLanguageFromTitle title) = None →
  Forall (fun r => (ltChar ∉ list_ascii_of_string (html r))
                   ∧ (gtChar ∉ list_ascii_of_string (html r)) ∧ html r ≠ "")
    (renderContent title text' diffResult).
Proof.
  intros Hno. unfold EditorPanel.renderContent. cbn zeta.
  generalize (match diffResult with Some _ => false | None => true end) as isBase.
  generalize (match diffResult with
              | Some d => d
              | None => (fun line => mkDiffLine Unchanged line) <$> split newline text'
              end) as lines.
  generalize 0 at 1 as b. generalize 0 as c.
  intros c b lines isBase. revert b c.
  induction lines as [|line lines IH]; intros b c; [constructor|].
  cbn [EditorPanel.renderLines]. cbn zeta. apply Forall_cons. split; [|apply IH].
  cbn [html]. rewrite Hno.
  destruct (escapeHtml_no_markup
              (if 0 <? String.length (text line) then text line else " "))
    as (Hlt & Hgt & _ & Hne).
  split; [done|]. split; [done|]. apply Hne.
  destruct (Nat.ltb_spec 0 (String.length (text line))) as [Hpos|_]; [|done].
  destruct (text line); [cbn in Hpos; lia | done].
Qed.

End RenderFacts.

End EditorPanelFacts.

(** *** The further properties on concrete states *)

Module ExtraWitnesses.
Import App AppInv AppView EditorPanel Samples.

Lemma greeterState_reachable : reachable Literal.escapeRegExp "u0" "u1" greeterState.
Proof.
  unfold greeterState, run. cbn [foldl]. repeat apply reachable_step. apply reachable_init.
Defined.

Lemma reachable_matches_current_witness :
  matches greeterState = matches (recompute Literal.escapeRegExp greeterState)
  ∧ (∀ m, m ∈ matches greeterState →
       ∃ p, p ∈ panels greeterState ∧ panelId m = id p ∧ start m ≤ end_ m)
  ∧ ∃ z : Z, activeMatchIndex greeterState = Num z
             ∧ (0 <= z < Z.of_nat (length (matches greeterState)))%Z.
Proof.
  apply (AppInvFacts.reachable_matches_current Literal.escapeRegExp "u0" "u1" greeterState).
  exact greeterState_reachable.
Defined.

Lemma handleReplace_splices_witness :
  ∃ s', handleReplace twoDocs = Normal (Some s')
    ∧ length (panels s') = 2
    ∧ (∃ r, 2 ≤ r ∧ panels s' !! 0 = Some (mkPanel r "d1" "foo qux" "first"))
    ∧ ∀ j p, j ≠ 0 → panels twoDocs !! j = Some p → panels s' !! j = Some p.
Proof.
  apply (AppInvFacts.handleReplace_splices twoDocs (mkMatch "d1" 4 7) 0
           (mkPanel 0 "d1" "foo bar" "first")).
  - reflexivity.
  - exact AppFacts.twoDocs_NoDup.
  - reflexivity.
  - reflexivity.
Defined.

Lemma reachable_handleReplace_witness :
  (matches greeterState = [] → handleReplace greeterState = Normal None)
  ∧ (matches greeterState ≠ [] → ∃ s', handleReplace greeterState = Normal (Some s')).
Proof.
  apply (AppInvFacts.reachable_handleReplace Literal.escapeRegExp "u0" "u1" greeterState).
  exact greeterState_reachable.
Defined.

Lemma initialState_mounted : refsMounted (initialState "u0" "u1").
Proof. intros [|[|i]] v Hi; cbn in *; [lia | lia | discriminate Hi]. Defined.

Lemma handleScroll_fans_out_witness :
  ∃ s', handleScroll "u0" 120 0 (initialState "u0" "u1") = Normal s'
    ∧ panelScrollRefs s' !! 1 = Some (Some (mkViewport 120 0))
    ∧ panelScrollRefs s' !! 0 = Some (Some (mkViewport 0 0))
    ∧ syncingPanelIds s' = ["u1"].
Proof.
  destruct (AppInvFacts.handleScroll_fans_out Literal.escapeRegExp "u0" 120 0
              (initialState "u0" "u1") 0 eq_refl initialState_mounted eq_refl)
    as (s' & Hs' & _).
  exists s'. split; [exact Hs'|]. injection Hs' as <-. by repeat split.
Defined.

Lemma reachable_indicator_timer_witness :
  length (timeouts scrolledState) ≤ 1
  ∧ (syncingPanelIds scrolledState ≠ [] → timeouts scrolledState ≠ [])
  ∧ ∀ h, h ∈ timeouts scrolledState →
      syncIndicatorTimer scrolledState = Some h
      ∧ syncingPanelIds (dispatch Literal.escapeRegExp (TimerFired h) scrolledState) = []
      ∧ timeouts (dispatch Literal.escapeRegExp (TimerFired h) scrolledState) = [].
Proof.
  apply (AppInvFacts.reachable_indicator_timer Literal.escapeRegExp "u0" "u1" scrolledState).
  unfold scrolledState, run. cbn [foldl]. apply reachable_step, reachable_init.
Defined.

Lemma titleChange_resets_active_index_witness :
  activeMatchIndex greeterState = Num 1
  ∧ matches (dispatch Literal.escapeRegExp (TitleChange "u0" "a.ts") greeterState)
    = matches greeterState
  ∧ activeMatchIndex (dispatch Literal.escapeRegExp (TitleChange "u0" "a.ts") greeterState)
    = Num 0.
Proof.
  split; [reflexivity|].
  apply (AppInvFacts.titleChange_resets_active_index Literal.escapeRegExp
           "u0" "a.ts" greeterState).
  reflexivity.
Defined.

Lemma addPanel_then_removePanel_witness :
  panels (dispatch Literal.escapeRegExp RemovePanel
            (dispatch Literal.escapeRegExp (AddPanel "u2") (initialState "u0" "u1")))
  = panels (initialState "u0" "u1").
Proof.
  apply (AppInvFacts.addPanel_then_removePanel Literal.escapeRegExp "u2"
           (initialState "u0" "u1")).
  - cbn. lia.
  - cbn. lia.
Defined.

Lemma matchesProp_own_matches_witness :
  matchesProp twoDocs (mkPanel 0 "d1" "foo bar" "first") = [mkMatch "d1" 4 7]
  ∧ matchesProp twoDocs (mkPanel 1 "d2" "baz" "second") = [].
Proof.
  split.
  - apply (AppViewFacts.matchesProp_own_matches twoDocs barPattern
             (mkPanel 0 "d1" "foo bar" "first")).
    + exact AppFacts.twoDocs_NoDup.
    + reflexivity.
    + apply list_elem_of_here.
  - reflexivity.
Defined.


Lemma renderContent_escaped_witness :
  Forall (fun r => (ltChar ∉ list_ascii_of_string (html r))
                   ∧ (gtChar ∉ list_ascii_of_string (html r)) ∧ html r ≠ "")
    (renderContent unit (fun _ => None) (fun str _ _ => str) "notes.txt"
       "if (a < b && b > c) {}" None).
Proof.
  apply (EditorPanelFacts.renderContent_escaped unit (fun _ => None) (fun str _ _ => str)).
  reflexivity.
Defined.

End ExtraWitnesses.
